(** * Turkish diacritics validator: a shallow embedding of [hooks/turkish-check.py]

    Python [str] values are sequences of Unicode code points: a character is
    a code point in [N], a string a list of them, so that [len], indexing and
    comparison count code points as Python does.  Dictionaries keep insertion
    order (association lists), sets are duplicate-free lists. *)

From Stdlib Require Import String Ascii.
From Stdlib Require Import List NArith ZArith Arith Bool Lia Permutation Sorted.
Import ListNotations.
Local Open Scope list_scope.

(** ** Characters and strings *)

Definition char := N.
Definition str := list char.

(** Decoding of the UTF-8 bytes of a literal of this file into code points
    (one to three bytes are enough for the Latin and Turkish letters). *)
Fixpoint utf8 (bs : list N) : str :=
  match bs with
  | [] => []
  | b :: bs1 =>
      if (b <? 128)%N then b :: utf8 bs1
      else if (b <? 224)%N then
        match bs1 with
        | b2 :: r => ((b - 192) * 64 + (b2 - 128))%N :: utf8 r
        | [] => []
        end
      else
        match bs1 with
        | b2 :: b3 :: r =>
            ((b - 224) * 4096 + (b2 - 128) * 64 + (b3 - 128))%N :: utf8 r
        | _ => []
        end
  end.

Definition u (s : string) : str :=
  utf8 (map N_of_ascii (list_ascii_of_string s)).

Definition ch (s : string) : char := hd 0%N (u s).

Definition nl : char := 10%N.

(** ** Decidable equality, as Python's [==] on characters, strings, tuples *)

Class Eqb (A : Type) := eqb : A -> A -> bool.

#[export] Instance N_Eqb : Eqb N := N.eqb.

Fixpoint list_eqb {A} `{Eqb A} (x y : list A) : bool :=
  match x, y with
  | [], [] => true
  | a :: x1, b :: y1 => eqb a b && list_eqb x1 y1
  | _, _ => false
  end.

#[export] Instance list_Eqb {A} `{Eqb A} : Eqb (list A) := list_eqb.

(** [x in l] for a list, tuple or set [l]. *)
Definition mem {A} `{Eqb A} (x : A) (l : list A) : bool := existsb (eqb x) l.

(** ** Dictionaries: insertion-ordered, as Python's [dict] *)

Section Dict.
Context {K V : Type} `{Eqb K}.

Definition dict := list (K * V).

Fixpoint dict_get (k : K) (d : dict) : option V :=
  match d with
  | [] => None
  | (k1, v) :: d1 => if eqb k k1 then Some v else dict_get k d1
  end.

Definition dict_mem (k : K) (d : dict) : bool :=
  match dict_get k d with Some _ => true | None => false end.

(** [d[k] = v]: an existing key keeps its place, a new one goes last. *)
Fixpoint dict_set (k : K) (v : V) (d : dict) : dict :=
  match d with
  | [] => [(k, v)]
  | (k1, v1) :: d1 =>
      if eqb k k1 then (k1, v) :: d1 else (k1, v1) :: dict_set k v d1
  end.

Definition dict_keys (d : dict) : list K := map fst d.
End Dict.

Arguments dict : clear implicits.

(** [d.setdefault(k, []).append(x)] *)
Fixpoint dict_append {K V} `{Eqb K} (k : K) (x : V) (d : dict K (list V))
  : dict K (list V) :=
  match d with
  | [] => [(k, [x])]
  | (k1, l) :: d1 =>
      if eqb k k1 then (k1, l ++ [x]) :: d1 else (k1, l) :: dict_append k x d1
  end.

(** ** The diacritic model *)

Definition DIACRITICS_MAP : dict char char := Eval vm_compute in
  [ (ch "ç", ch "c"); (ch "Ç", ch "C");
    (ch "ğ", ch "g"); (ch "Ğ", ch "G");
    (ch "ı", ch "i"); (ch "İ", ch "I");
    (ch "ö", ch "o"); (ch "Ö", ch "O");
    (ch "ş", ch "s"); (ch "Ş", ch "S");
    (ch "ü", ch "u"); (ch "Ü", ch "U") ].

Definition SWAP_MAP : dict char (list char) := Eval vm_compute in
  [ (ch "c", [ch "ç"]); (ch "g", [ch "ğ"]); (ch "i", [ch "ı"]);
    (ch "o", [ch "ö"]); (ch "s", [ch "ş"]); (ch "u", [ch "ü"]);
    (ch "C", [ch "Ç"]); (ch "G", [ch "Ğ"]); (ch "I", [ch "İ"]);
    (ch "O", [ch "Ö"]); (ch "S", [ch "Ş"]); (ch "U", [ch "Ü"]) ].

Definition ascii_fold (s : str) : str :=
  map (fun c => match dict_get c DIACRITICS_MAP with
                | Some a => a
                | None => c
                end) s.

Definition count_diacritics (s : str) : nat :=
  List.length (filter (fun c => dict_mem c DIACRITICS_MAP) s).

(** ** Variant generation (Layer 2) *)

(** [enumerate(word)] *)
Definition enumerate {A} (l : list A) : list (nat * A) :=
  combine (seq 0 (List.length l)) l.

(** [itertools.product]: the last position varies fastest. *)
Fixpoint product {A} (pools : list (list A)) : list (list A) :=
  match pools with
  | [] => [[]]
  | opts :: rest => flat_map (fun o => map (cons o) (product rest)) opts
  end.

Definition positions (word : str) : list (nat * list char) :=
  map (fun ic : nat * char =>
         let (i, c) := ic in
         match dict_get c SWAP_MAP with
         | Some alts => (i, [c] ++ alts)
         | None => (i, [c])
         end) (enumerate word).

(** The enumeration loop of [generate_variants]: [count] counts the
    candidates other than the word, and the loop breaks after 64 of them. *)
Fixpoint variants_loop (word : str) (word_dc : nat) (combos : list str)
    (variants : list str) (count : nat) : list str :=
  match combos with
  | [] => variants
  | candidate :: rest =>
      if eqb candidate word then variants_loop word word_dc rest variants count
      else
        let count := count + 1 in
        if 64 <? count then variants
        else if word_dc <? count_diacritics candidate
             then variants_loop word word_dc rest (variants ++ [candidate]) count
             else variants_loop word word_dc rest variants count
  end.

Definition generate_variants (word : str) : list str :=
  if negb (existsb (fun c => dict_mem c SWAP_MAP) word) then []
  else
    let positions := positions word in
    let swappable :=
      List.length (filter (fun p : nat * list char => 1 <? List.length (snd p))
                          positions) in
    if 6 <? swappable then []
    else
      let word_dc := count_diacritics word in
      variants_loop word word_dc (product (map snd positions)) [] 0.


(** ** The parts of Python's Unicode database the program relies on

    [str.lower] and the [\w] class of [re] are tables of the Python runtime.
    They are kept abstract; the one fact about case mapping that is used is
    that, apart from U+0130, only the twelve keys of [SWAP_MAP] lower-case to
    a string that holds one of c, g, i, o, s, u. *)

Definition count_if {A} (p : A -> bool) (l : list A) : nat :=
  List.length (filter p l).

Definition lower_swappable : str := Eval vm_compute in u "cgiosu".
Definition dotted_capital_I : char := Eval vm_compute in ch "İ".

Class Unicode := {
  lower : str -> str;
  is_word : char -> bool;
  lower_counts_swappable : forall x : str,
    ~ In dotted_capital_I x ->
    count_if (fun c => mem c lower_swappable) (lower x)
    = count_if (fun c => dict_mem c SWAP_MAP) x
}.

(** [\s] of [re] on [str] patterns, which is [str.isspace]. *)
Definition is_space (c : char) : bool :=
  ((9 <=? c) && (c <=? 13) || (28 <=? c) && (c <=? 32)
   || (c =? 133) || (c =? 160) || (c =? 5760)
   || (8192 <=? c) && (c <=? 8202)
   || (c =? 8232) || (c =? 8233) || (c =? 8239) || (c =? 8287)
   || (c =? 12288))%N.

(** The line boundaries of [str.splitlines]. *)
Definition is_linebreak (c : char) : bool :=
  ((10 <=? c) && (c <=? 13) || (28 <=? c) && (c <=? 30)
   || (c =? 133) || (c =? 8232) || (c =? 8233))%N.

(** ** Regular expressions: the fragment of [re] the program uses

    Every repetition in the program's patterns is over a single character
    class, so [Rep] repeats a class between [lo] and [hi] times, greedily or
    lazily. *)

Inductive re :=
| Eps
| Cls (p : char -> bool)
| Rep (greedy : bool) (lo : nat) (hi : option nat) (p : char -> bool)
| Cat (a b : re)
| Alt (a b : re)
| Bol (multiline : bool)
| Eol
| WordB
| Grp (a : re).

Definition cats (l : list re) : re := fold_right Cat Eps l.
Definition lit (s : str) : re := cats (map (fun c => Cls (eqb c)) s).

Definition one_of (s : str) : char -> bool := fun c => mem c s.
Definition none_of (s : str) : char -> bool := fun c => negb (mem c s).
Definition in_range (a b : char) : char -> bool :=
  fun c => ((a <=? c) && (c <=? b))%N.
Definition either (p q : char -> bool) : char -> bool := fun c => p c || q c.
Definition any_char : char -> bool := fun _ => true.
(** [.] without [re.DOTALL] *)
Definition dot : char -> bool := fun c => negb (eqb c nl).

Definition star (p : char -> bool) : re := Rep true 0 None p.
Definition plus (p : char -> bool) : re := Rep true 1 None p.
Definition lazy_star (p : char -> bool) : re := Rep false 0 None p.

(** A state of the backtracking matcher: the character before the current
    position, the text still to read and the text of group 1. *)
Record mstate := { m_prev : option char; m_rest : str; m_g1 : str }.

Definition pred_hi (hi : option nat) : option nat :=
  match hi with Some n => Some (Nat.pred n) | None => None end.

(** The states after reading 0, 1, 2, ... characters of the class [p], at
    most [hi] of them. *)
Fixpoint runs (p : char -> bool) (hi : option nat) (prev : option char)
    (s : str) (g1 : str) : list mstate :=
  {| m_prev := prev; m_rest := s; m_g1 := g1 |} ::
  match hi with
  | Some 0 => []
  | _ =>
      match s with
      | c :: s1 => if p c then runs p (pred_hi hi) (Some c) s1 g1 else []
      | [] => []
      end
  end.

Section Matcher.
Context {U : Unicode}.

Definition word_at (c : option char) : bool :=
  match c with Some c => is_word c | None => false end.

(** All the ways [r] matches at a state, in the order in which a
    backtracking matcher tries them: the first one is the match. *)
Fixpoint mt (r : re) (st : mstate) : list mstate :=
  match r with
  | Eps => [st]
  | Cls p =>
      match m_rest st with
      | c :: s1 =>
          if p c then [{| m_prev := Some c; m_rest := s1; m_g1 := m_g1 st |}]
          else []
      | [] => []
      end
  | Rep greedy lo hi p =>
      let asc := skipn lo (runs p hi (m_prev st) (m_rest st) (m_g1 st)) in
      if greedy then rev asc else asc
  | Cat a b => flat_map (mt b) (mt a st)
  | Alt a b => mt a st ++ mt b st
  | Bol multiline =>
      match m_prev st with
      | None => [st]
      | Some c => if multiline && eqb c nl then [st] else []
      end
  | Eol =>
      match m_rest st with
      | [] => [st]
      | c :: _ => if eqb c nl then [st] else []
      end
  | WordB =>
      if xorb (word_at (m_prev st)) (word_at (hd_error (m_rest st)))
      then [st] else []
  | Grp a =>
      map (fun st1 =>
             {| m_prev := m_prev st1; m_rest := m_rest st1;
                m_g1 := firstn (List.length (m_rest st)
                                - List.length (m_rest st1)) (m_rest st) |})
          (mt a st)
  end.

(** The match of [r] that starts at the current position, if any: its
    length and its group 1. *)
Definition match_at (r : re) (prev : option char) (s : str)
  : option (nat * str) :=
  match mt r {| m_prev := prev; m_rest := s; m_g1 := [] |} with
  | st :: _ => Some (List.length s - List.length (m_rest st), m_g1 st)
  | [] => None
  end.

(** [pattern.fullmatch(s)] as a truth value *)
Definition fullmatch (r : re) (s : str) : bool :=
  existsb (fun st => match m_rest st with [] => true | _ => false end)
          (mt r {| m_prev := None; m_rest := s; m_g1 := [] |}).

(** The leftmost non-overlapping matches of a text, with the characters
    between them. *)
Inductive piece :=
| Keep (c : char)
| Hit (g0 g1 : str).

Definition spend (limit : option nat) : option nat := pred_hi limit.

(** [skip] characters of the last match are still to be passed over;
    [limit] is what is left of [count]. *)
Fixpoint scan (r : re) (limit : option nat) (skip : nat)
    (prev : option char) (s : str) : list piece :=
  match skip with
  | S k =>
      match s with
      | [] => []
      | c :: s1 => scan r limit k (Some c) s1
      end
  | 0 =>
      let found :=
        match limit with
        | Some 0 => None
        | _ => match_at r prev s
        end in
      match found with
      | Some (len, g1) =>
          Hit (firstn len s) g1 ::
          match s with
          | [] => []
          | c :: s1 =>
              match len with
              | 0 => Keep c :: scan r (spend limit) 0 (Some c) s1
              | S k => scan r (spend limit) k (Some c) s1
              end
          end
      | None =>
          match s with
          | [] => []
          | c :: s1 => Keep c :: scan r limit 0 (Some c) s1
          end
      end
  end.

(** [re.sub(r, repl, s, count)], with [repl] a function of the match *)
Definition re_sub (r : re) (repl : str -> str -> str) (limit : option nat)
    (s : str) : str :=
  flat_map (fun p => match p with
                     | Keep c => [c]
                     | Hit g0 g1 => repl g0 g1
                     end) (scan r limit 0 None s).

(** [re.findall(r, s)] for a pattern without groups *)
Definition re_findall (r : re) (s : str) : list str :=
  flat_map (fun p => match p with
                     | Keep _ => []
                     | Hit g0 _ => [g0]
                     end) (scan r None 0 None s).

End Matcher.

(** ** Text stripping (Markdown / MDX) *)

Section Pipeline.
Context {U : Unicode}.

(** [_blank]: as many newlines as the match holds *)
Definition _blank (g0 g1 : str) : str := repeat nl (count_if (eqb nl) g0).
Definition space (g0 g1 : str) : str := u " ".
Definition nothing (g0 g1 : str) : str := [].
Definition group1 (g0 g1 : str) : str := g1.

(** [^---\n.*?\n---\n] with [re.DOTALL] *)
Definition re_front_matter : re :=
  cats [Bol false; lit (u "---" ++ [nl]); lazy_star any_char;
        lit ([nl] ++ u "---" ++ [nl])].
(** [```[\s\S]*?```] and [~~~[\s\S]*?~~~] *)
Definition re_fence (mark : str) : re :=
  cats [lit mark; lazy_star (either is_space (fun c => negb (is_space c)));
        lit mark].
(** [`[^`]+`] *)
Definition re_inline_code : re :=
  cats [lit (u "`"); plus (none_of (u "`")); lit (u "`")].
(** [^(?:import|export)\s+.*$] with [re.MULTILINE] *)
Definition re_import : re :=
  cats [Bol true; Alt (lit (u "import")) (lit (u "export")); plus is_space;
        star dot; Eol].
(** [<[^>]+>] *)
Definition re_tag : re :=
  cats [lit (u "<"); plus (none_of (u ">")); lit (u ">")].
(** [\{[^}]*\}] *)
Definition re_braces : re :=
  cats [lit (u "{"); star (none_of (u "}")); lit (u "}")].
(** [https?://\S+] *)
Definition re_url : re :=
  cats [lit (u "http"); Rep true 0 (Some 1) (one_of (u "s")); lit (u "://");
        plus (fun c => negb (is_space c))].
(** [!\[ [^\]]* \] \( [^)]+ \)], written here with a space between its parts *)
Definition re_image : re :=
  cats [lit (u "!["); star (none_of (u "]")); lit (u "]("); 
        plus (none_of (u ")")); lit (u ")")].
(** [\[ ( [^\]]* ) \] \( [^)]+ \)], written here with a space between its parts *)
Definition re_link : re :=
  cats [lit (u "["); Grp (star (none_of (u "]"))); lit (u "](");
        plus (none_of (u ")")); lit (u ")")].
(** [\[\^[^\]]+\]] *)
Definition re_footnote : re :=
  cats [lit (u "[^"); plus (none_of (u "]")); lit (u "]")].
(** [\[/?(?:bdi|var)\]] *)
Definition re_bdi_var : re :=
  cats [lit (u "["); Rep true 0 (Some 1) (one_of (u "/"));
        Alt (lit (u "bdi")) (lit (u "var")); lit (u "]")].
(** [<!--.*?-->] with [re.DOTALL] *)
Definition re_comment : re :=
  cats [lit (u "<!--"); lazy_star any_char; lit (u "-->")].
(** [^#+\s*] with [re.MULTILINE] *)
Definition re_heading : re :=
  cats [Bol true; plus (one_of (u "#")); star is_space].
(** [\*{1,3}|_{1,3}] *)
Definition re_emphasis : re :=
  Alt (Rep true 1 (Some 3) (one_of (u "*")))
      (Rep true 1 (Some 3) (one_of (u "_"))).

Definition strip_non_prose (text : str) : str :=
  let text := re_sub re_front_matter _blank (Some 1) text in
  let text := re_sub (re_fence (u "```")) _blank None text in
  let text := re_sub (re_fence (u "~~~")) _blank None text in
  let text := re_sub re_inline_code space None text in
  let text := re_sub re_import space None text in
  let text := re_sub re_tag space None text in
  let text := re_sub re_braces space None text in
  let text := re_sub re_url space None text in
  let text := re_sub re_image space None text in
  let text := re_sub re_link group1 None text in
  let text := re_sub re_footnote space None text in
  let text := re_sub re_bdi_var space None text in
  let text := re_sub re_comment _blank None text in
  let text := re_sub re_heading nothing None text in
  let text := re_sub re_emphasis nothing None text in
  text.

(** ** Layer 0: the word index *)

(** [str.splitlines]: [cur] is the current line, reversed; [after_cr] tells
    that the last character was a carriage return. *)
Fixpoint splitlines_from (cur : str) (after_cr : bool) (s : str) : list str :=
  match s with
  | [] => match cur with [] => [] | _ => [rev cur] end
  | c :: s1 =>
      if after_cr && eqb c nl then splitlines_from [] false s1
      else if is_linebreak c
           then rev cur :: splitlines_from [] (eqb c 13%N) s1
           else splitlines_from (c :: cur) false s1
  end.

Definition splitlines (s : str) : list str := splitlines_from [] false s.

(** [[a-zA-ZçğıöşüÇĞİÖŞÜ]] *)
Definition is_letter : char -> bool :=
  either (in_range (ch "a") (ch "z"))
         (either (in_range (ch "A") (ch "Z")) (one_of (u "çğıöşüÇĞİÖŞÜ"))).

(** [\b[a-zA-ZçğıöşüÇĞİÖŞÜ]+\b] *)
Definition re_word : re := cats [WordB; plus is_letter; WordB].

Definition index_line (word_locations : dict str (list nat))
    (numbered : nat * str) : dict str (list nat) :=
  let (line_num, line) := numbered in
  fold_left (fun d word =>
               if List.length word <? 2 then d
               else dict_append word line_num d)
            (re_findall re_word line) word_locations.

Definition layer0 (prose : str) : dict str (list nat) :=
  let lines := splitlines prose in
  fold_left index_line (combine (seq 1 (List.length lines)) lines) [].

(** ** Sorting, joining *)

(** [<=] of Python on strings: lexicographic on code points *)
Fixpoint str_leb (a b : str) : bool :=
  match a, b with
  | [], _ => true
  | _ :: _, [] => false
  | x :: a1, y :: b1 =>
      if (x <? y)%N then true
      else if (y <? x)%N then false
      else str_leb a1 b1
  end.

Fixpoint insert_by {A} (leb : A -> A -> bool) (x : A) (l : list A) : list A :=
  match l with
  | [] => [x]
  | y :: l1 => if leb x y then x :: l else y :: insert_by leb x l1
  end.

(** A stable sort *)
Definition sort_by {A} (leb : A -> A -> bool) (l : list A) : list A :=
  fold_right (insert_by leb) [] l.

(** [sorted(s)] for a set or list of strings *)
Definition sorted (l : list str) : list str := sort_by str_leb l.

(** [sep.join(l)] *)
Fixpoint join (sep : str) (l : list str) : str :=
  match l with
  | [] => []
  | [x] => x
  | x :: l1 => x ++ sep ++ join sep l1
  end.

(** [set(l)]: the elements of [l], once each *)
Fixpoint dedup (l : list str) : list str :=
  match l with
  | [] => []
  | x :: l1 => x :: filter (fun y => negb (eqb x y)) (dedup l1)
  end.

(** The order in which a set is iterated depends on the hashes of its
    elements, which differ from one process to the next: [slot] stands for
    the place of a string in the hash table of this process. *)
Definition set_iter (slot : str -> nat) (s : list str) : list str :=
  sort_by (fun a b => slot a <=? slot b) s.

(** ** Identifier-shaped words *)

Definition ascii_letter : char -> bool :=
  either (in_range (ch "a") (ch "z")) (in_range (ch "A") (ch "Z")).
Definition ascii_upper : char -> bool := in_range (ch "A") (ch "Z").

(** [[a-zA-Z]+[A-Z][a-zA-Z]*] *)
Definition re_camel : re :=
  cats [plus ascii_letter; Cls ascii_upper; star ascii_letter].
(** [[a-zA-Z]+_[a-zA-Z_]+] *)
Definition re_snake : re :=
  cats [plus ascii_letter; lit (u "_");
        plus (either ascii_letter (one_of (u "_")))].
(** [[A-Z]{2,}] *)
Definition re_caps : re := Rep true 2 None ascii_upper.
(** [[a-zA-Z]+-[a-zA-Z-]+] *)
Definition re_kebab : re :=
  cats [plus ascii_letter; lit (u "-");
        plus (either ascii_letter (one_of (u "-")))].

Definition RE_IDENTIFIER : re :=
  Alt re_camel (Alt re_snake (Alt re_caps re_kebab)).

Definition is_identifier (word : str) : bool := fullmatch RE_IDENTIFIER word.

(** ** Detection layers *)

Fixpoint layer1_suggestion_loop (word folded : str) (word_dc : nat)
    (suggestions : list str) : option str :=
  match suggestions with
  | [] => None
  | s :: rest =>
      if eqb (lower (ascii_fold s)) folded && negb (eqb (lower s) (lower word))
      then if word_dc <? count_diacritics s then Some s
           else layer1_suggestion_loop word folded word_dc rest
      else layer1_suggestion_loop word folded word_dc rest
  end.

Definition layer1_suggestion (word : str) (suggestions : list str)
  : option str :=
  let folded := lower (ascii_fold word) in
  let word_dc := count_diacritics word in
  layer1_suggestion_loop word folded word_dc suggestions.

(** [s.startswith(w)] *)
Fixpoint startswith (s w : str) : bool :=
  match w, s with
  | [], _ => true
  | _ :: _, [] => false
  | y :: w1, x :: s1 => eqb x y && startswith s1 w1
  end.

Definition layer3_ambiguity (word : str) (amb_lookup : dict str str)
    (amb_skip whitelist : list str) : option str :=
  let wl := lower word in
  if mem wl whitelist
     || existsb (fun w => startswith wl w
                          && (Z.of_nat (List.length wl)
                              - Z.of_nat (List.length w) <=? 5)%Z)
                (filter (fun w => 5 <=? List.length w) whitelist)
  then None
  else if mem wl amb_skip then None
  else if dict_mem wl amb_lookup then dict_get wl amb_lookup
  else None.

End Pipeline.

(** ** Findings, the spell checker and the process *)

Inductive Confidence := high | medium.

Record Finding := {
  word : str;
  correction : str;
  lines : list nat;
  confidence : Confidence;
  layer : nat
}.

(** A decoded JSON value, as [json.loads] returns it.  Of a number the
    program only uses whether it is zero. *)
#[local] Unset Elimination Schemes.
Inductive Json :=
| JNull
| JBool (b : bool)
| JNum (nonzero : bool)
| JStr (s : str)
| JList (l : list Json)
| JDict (d : dict str Json).
#[local] Set Elimination Schemes.

(** An exception that nothing catches: the interpreter prints its traceback
    on the error channel and the process ends with status 1. *)
Inductive Exn :=
| AttributeError
| TypeError
| OSError
| UnicodeDecodeError
| IndexError.

(** What [os.path.isfile], [open] and [f.read] make of a path: not a file,
    a file that cannot be opened, a file that is not UTF-8, or its text. *)
Inductive FileRead :=
| NotAFile
| CannotOpen
| NotUtf8
| Content (text : str).

(** What a run depends on.  [stdin_json] is the payload, [None] when
    [json.loads] raises.  [hunspell_found] tells whether the program
    [hunspell] is there, for the whole of the run: when it is not,
    [subprocess.run] raises [FileNotFoundError] and no process is started;
    when it is, the process starts.  [hunspell_a] and
    [hunspell_l] are the two ways the checker is started, on the text given
    as its input: [None] stands for a timeout; a reply of [hunspell -a] is
    the text of its standard output, a reply of [hunspell -l] the lines it
    prints.  The three dictionaries are files of the program itself and are
    given as loaded. *)
Record World := {
  stdin_json : option Json;
  read_file : str -> FileRead;
  CHECK_FILES : list str;
  whitelist : list str;
  amb_lookup : dict str str;
  amb_skip : list str;
  hunspell_found : bool;
  hunspell_a : str -> option str;
  hunspell_l : str -> option (list str);
  slot : str -> nat
}.

(** A process of the checker that was started, with its input *)
Inductive call :=
| Call_a (input : str)
| Call_l (input : str).

(** A computation that starts the checker: it threads the log of calls. *)
Definition M (A : Type) : Type := list call -> A * list call.

Definition ret {A} (x : A) : M A := fun log => (x, log).
Definition bind {A B} (m : M A) (f : A -> M B) : M B :=
  fun log => let (x, log1) := m log in f x log1.

Notation "x <- m ;; k" := (bind m (fun x => k))
  (at level 61, m at next level, right associativity).

(** [subprocess.run] inside its [try]: [None] after [TimeoutExpired] or
    [FileNotFoundError] *)
Definition run_a (w : World) (input : str) : M (option str) :=
  fun log =>
    if hunspell_found w then (hunspell_a w input, log ++ [Call_a input])
    else (None, log).
Definition run_l (w : World) (input : str) : M (option (list str)) :=
  fun log =>
    if hunspell_found w then (hunspell_l w input, log ++ [Call_l input])
    else (None, log).

(** *** The reply of [hunspell -a], as text

    [hunspell_check_text] reads the standard output of the checker line by
    line.  The functions below are the string methods it uses and its loop;
    [None] stands for the [IndexError] of [parts[0].split()[1]]. *)

(** [s.lstrip()] and [s.strip()] *)
Fixpoint lstrip (s : str) : str :=
  match s with
  | c :: s1 => if is_space c then lstrip s1 else s
  | [] => []
  end.

Definition strip (s : str) : str := rev (lstrip (rev (lstrip s))).

(** [s.split(sep)]: [cur] is the current part, reversed *)
Fixpoint split_from (sep : char) (cur : str) (s : str) : list str :=
  match s with
  | [] => [rev cur]
  | c :: s1 =>
      if eqb c sep then rev cur :: split_from sep [] s1
      else split_from sep (c :: cur) s1
  end.

Definition split (sep : char) (s : str) : list str := split_from sep [] s.

(** [s.split(sep, 1)]: the part before the first [sep] and, when there is
    one, the part after it *)
Fixpoint split_once (sep : char) (s : str) : str * option str :=
  match s with
  | [] => ([], None)
  | c :: s1 =>
      if eqb c sep then ([], Some s1)
      else let (a, b) := split_once sep s1 in (c :: a, b)
  end.

(** [s.split()]: the words between runs of white space *)
Fixpoint split_ws_from (cur : str) (s : str) : list str :=
  match s with
  | [] => match cur with [] => [] | _ => [rev cur] end
  | c :: s1 =>
      if is_space c
      then match cur with
           | [] => split_ws_from [] s1
           | _ => rev cur :: split_ws_from [] s1
           end
      else split_ws_from (c :: cur) s1
  end.

Definition split_ws (s : str) : list str := split_ws_from [] s.

(** One turn of the loop over [proc.stdout.splitlines()] *)
Definition results_step (results : dict str (list str)) (line : str)
  : option (dict str (list str)) :=
  if startswith line (u "&") then
    let (head, tail) := split_once (ch ":") line in
    match split_ws head with
    | _ :: word :: _ =>
        let suggestions :=
          match tail with
          | Some t => map strip (split (ch ",") t)
          | None => []
          end in
        Some (dict_set word suggestions results)
    | _ => None
    end
  else if startswith line (u "#") then
    let word := match split_ws line with
                | _ :: word :: _ => word
                | _ => []
                end in
    match word with
    | [] => Some results
    | _ => Some (dict_set word [] results)
    end
  else Some results.

(** The loop: from the standard output of the checker to [results] *)
Definition hunspell_results (stdout : str) : option (dict str (list str)) :=
  fold_left (fun acc line =>
               match acc with
               | Some results => results_step results line
               | None => None
               end)
            (splitlines stdout) (Some []).

(** [None] is the [IndexError] that the loop over the reply can raise. *)
Definition hunspell_check_text (w : World) (text : str)
  : M (option (dict str (list str))) :=
  reply <- run_a w text ;;
  match reply with
  | None => ret (Some [])
  | Some stdout => ret (hunspell_results stdout)
  end.

(** The result is the set [set(words) - misspelled]. *)
Definition hunspell_batch_valid (w : World) (words : list str)
  : M (list str) :=
  match words with
  | [] => ret []
  | _ =>
      reply <- run_l w (join [nl] words) ;;
      match reply with
      | None => ret []
      | Some misspelled =>
          ret (filter (fun v => negb (mem v misspelled)) (dedup words))
      end
  end.

Section Detection.
Context {U : Unicode}.

Record Acc := {
  errors : list Finding;
  seen_lower : list str;
  layer2_candidates : dict str (list str)
}.

(** [d.get(k, [])] *)
Definition get_lines (word_locations : dict str (list nat)) (k : str)
  : list nat :=
  match dict_get k word_locations with Some l => l | None => [] end.

Definition claim (word_locations : dict str (list nat)) (st : Acc)
    (word correction : str) (c : Confidence) (layer : nat) : Acc :=
  {| errors := errors st ++
               [{| word := word; correction := correction;
                   lines := get_lines word_locations word;
                   confidence := c; layer := layer |}];
     seen_lower := seen_lower st ++ [lower word];
     layer2_candidates := layer2_candidates st |}.

(** The truth value of an optional string *)
Definition truthy (o : option str) : bool :=
  match o with
  | Some (_ :: _) => true
  | _ => false
  end.

Definition some_or_empty (o : option str) : str :=
  match o with Some s => s | None => [] end.

(** Pass 1: one turn of the loop over [misspellings.items()] *)
Definition pass1_step (w : World) (word_locations : dict str (list nat))
    (st : Acc) (item : str * list str) : Acc :=
  let (word, suggestions) := item in
  let wl := lower word in
  if mem wl (seen_lower st) || (List.length word <? 3) then st
  else if is_identifier word || mem wl (whitelist w) then st
  else
    let correction := layer1_suggestion word suggestions in
    if truthy correction
    then claim word_locations st word (some_or_empty correction) high 1
    else
      let variants := generate_variants word in
      match variants with
      | [] => st
      | _ => {| errors := errors st; seen_lower := seen_lower st;
                layer2_candidates :=
                  dict_set word variants (layer2_candidates st) |}
      end.

(** [min(l, key=key)] of a list with first element [best]: the first of
    the least elements *)
Fixpoint min_by {A} (key : A -> nat) (best : A) (l : list A) : A :=
  match l with
  | [] => best
  | x :: l1 => if key x <? key best then min_by key x l1 else min_by key best l1
  end.

Definition layer2_step (word_locations : dict str (list nat)) (st : Acc)
    (item : str * list str) : Acc :=
  let (word, valid_list) := item in
  let wl := lower word in
  if mem wl (seen_lower st) then st
  else
    match valid_list with
    | [] => st
    | v :: vs =>
        let best := min_by count_diacritics v vs in
        claim word_locations st word best high 2
    end.

(** The block around the second call of the checker *)
Definition layer2 (w : World) (word_locations : dict str (list nat))
    (st : Acc) : M Acc :=
  match layer2_candidates st with
  | [] => ret st
  | _ =>
      let all_variants := flat_map snd (layer2_candidates st) in
      let variant_to_word :=
        fold_left (fun d item =>
                     fold_left (fun d v => dict_set v (fst item) d)
                               (snd item) d)
                  (layer2_candidates st) [] in
      valid_variants <- hunspell_batch_valid w all_variants ;;
      let word_valid :=
        fold_left (fun d v =>
                     match dict_get v variant_to_word with
                     | Some src => dict_append src v d
                     | None => d
                     end)
                  (set_iter (slot w) valid_variants) [] in
      ret (fold_left (layer2_step word_locations) word_valid st)
  end.

Definition LAYER3_BRAKE : nat := 15.

(** Pass 2: the loop over [sorted(unique_words)], with its [break] *)
Fixpoint pass2_loop (w : World) (word_locations : dict str (list nat))
    (misspellings : dict str (list str)) (words : list str) (st : Acc)
    (layer3_count : nat) : Acc :=
  match words with
  | [] => st
  | word :: rest =>
      let wl := lower word in
      if mem wl (seen_lower st)
      then pass2_loop w word_locations misspellings rest st layer3_count
      else if is_identifier word || (List.length word <? 3)
      then pass2_loop w word_locations misspellings rest st layer3_count
      else if negb (existsb (fun c => dict_mem c SWAP_MAP) word)
      then pass2_loop w word_locations misspellings rest st layer3_count
      else if dict_mem word misspellings
      then pass2_loop w word_locations misspellings rest st layer3_count
      else
        let correction :=
          layer3_ambiguity word (amb_lookup w) (amb_skip w) (whitelist w) in
        if truthy correction
           && negb (eqb (lower (some_or_empty correction)) wl)
        then
          let st := claim word_locations st word (some_or_empty correction)
                          medium 3 in
          let layer3_count := layer3_count + 1 in
          if LAYER3_BRAKE <=? layer3_count then st
          else pass2_loop w word_locations misspellings rest st layer3_count
        else pass2_loop w word_locations misspellings rest st layer3_count
  end.

(** From the misspellings that the first call gave to the list [errors]:
    pass 1, the block of the second call and pass 2 *)
Definition detect (w : World) (content : str)
    (misspellings : dict str (list str)) : M (list Finding) :=
  let prose := strip_non_prose content in
  let word_locations := layer0 prose in
  let unique_words := dict_keys word_locations in
  let st := {| errors := []; seen_lower := []; layer2_candidates := [] |} in
  let st := fold_left (pass1_step w word_locations) misspellings st in
  st <- layer2 w word_locations st ;;
  let st := pass2_loop w word_locations misspellings (sorted unique_words)
                       st 0 in
  ret (errors st).

(** ** Output *)

Fixpoint digits (d : Decimal.uint) : str :=
  match d with
  | Decimal.Nil => []
  | Decimal.D0 d => 48%N :: digits d
  | Decimal.D1 d => 49%N :: digits d
  | Decimal.D2 d => 50%N :: digits d
  | Decimal.D3 d => 51%N :: digits d
  | Decimal.D4 d => 52%N :: digits d
  | Decimal.D5 d => 53%N :: digits d
  | Decimal.D6 d => 54%N :: digits d
  | Decimal.D7 d => 55%N :: digits d
  | Decimal.D8 d => 56%N :: digits d
  | Decimal.D9 d => 57%N :: digits d
  end.

(** [str(n)] *)
Definition str_of_nat (n : nat) : str := digits (Nat.to_uint n).

Definition is_high (e : Finding) : bool :=
  match confidence e with high => true | medium => false end.
Definition is_medium (e : Finding) : bool :=
  match confidence e with high => false | medium => true end.

Definition finding_line (e : Finding) : str :=
  let loc := match lines e with
             | n :: _ => u " (line " ++ str_of_nat n ++ u ")"
             | [] => []
             end in
  u "  '" ++ word e ++ u "' -> '" ++ correction e ++ u "'" ++ loc.

Definition group_lines (title : str) (es : list Finding) : list str :=
  match es with
  | [] => []
  | _ => [u "[" ++ title ++ u " confidence - "
            ++ str_of_nat (List.length es) ++ u " errors]"]
         ++ map finding_line es ++ [[]]
  end.

Definition report_lines (file_path : str) (errors : list Finding)
  : list str :=
  [u "Turkish diacritics errors in " ++ file_path ++ u " ("
     ++ str_of_nat (List.length errors) ++ u " found):"; []]
  ++ group_lines (u "HIGH") (filter is_high errors)
  ++ group_lines (u "MEDIUM") (filter is_medium errors)
  ++ [u "Fix these Turkish character errors using Edit tool."].

(** What the process wrote on the error channel *)
Inductive Written :=
| Nothing
| Text (s : str)
| Traceback (e : Exn).

(** How the process ends: its exit status and what it wrote; [findings] is
    the list [errors] the run built, empty when it did not get that far. *)
Record Outcome := {
  exit_code : Z;
  stdout : str;
  stderr : Written;
  findings : list Finding
}.

Definition exit_0 : Outcome :=
  {| exit_code := 0; stdout := []; stderr := Nothing; findings := [] |}.

(** The end of a run in which an exception is raised and not caught *)
Definition raise (e : Exn) : Outcome :=
  {| exit_code := 1; stdout := []; stderr := Traceback e; findings := [] |}.

(** The end of [main]: silent success without findings, else the report
    on the error channel and status 2 *)
Definition report (file_path : str) (errors : list Finding) : Outcome :=
  match errors with
  | [] => exit_0
  | _ => {| exit_code := 2;
            stdout := [];
            stderr := Text (join [nl] (report_lines file_path errors) ++ [nl]);
            findings := errors |}
  end.

(** [os.path.basename] *)
Definition basename (p : str) : str :=
  fold_left (fun acc c => if eqb c (ch "/") then [] else acc ++ [c]) p [].

(** [d.get(k, default)] *)
Definition json_get (k : str) (default : Json) (d : dict str Json) : Json :=
  match dict_get k d with Some v => v | None => default end.

(** The truth value of a decoded value *)
Definition json_truthy (v : Json) : bool :=
  match v with
  | JNull => false
  | JBool b => b
  | JNum nonzero => nonzero
  | JStr [] | JList [] | JDict [] => false
  | JStr _ | JList _ | JDict _ => true
  end.

(** [v in ("Edit", "Write")] *)
Definition is_edit_or_write (v : Json) : bool :=
  match v with
  | JStr s => mem s [u "Edit"; u "Write"]
  | _ => false
  end.

Definition main (w : World) : M Outcome :=
  match stdin_json w with
  | None => ret exit_0
  | Some (JDict data) =>
      let tool_name := json_get (u "tool_name") (JStr []) data in
      let tool_input := json_get (u "tool_input") (JDict []) data in
      if negb (is_edit_or_write tool_name) then ret exit_0
      else
        match tool_input with
        | JDict tool_input =>
            let file_path := json_get (u "file_path") (JStr []) tool_input in
            if negb (json_truthy file_path) then ret exit_0
            else
              match file_path with
              | JStr file_path =>
                  if negb (mem (basename file_path) (CHECK_FILES w))
                  then ret exit_0
                  else
                    match read_file w file_path with
                    | NotAFile => ret exit_0
                    | CannotOpen => ret (raise OSError)
                    | NotUtf8 => ret (raise UnicodeDecodeError)
                    | Content content =>
                        let prose := strip_non_prose content in
                        let unique_words := dict_keys (layer0 prose) in
                        let words_text := join [nl] (sorted unique_words) in
                        misspellings <- hunspell_check_text w words_text ;;
                        match misspellings with
                        | None => ret (raise IndexError)
                        | Some misspellings =>
                            errors <- detect w content misspellings ;;
                            ret (report file_path errors)
                        end
                    end
              | _ => ret (raise TypeError)
              end
        | _ => ret (raise AttributeError)
        end
  | Some _ => ret (raise AttributeError)
  end.

End Detection.

(** ** A table for Latin and Turkish text

    [latin_lower] and [latin_is_word] agree with [str.lower] and [\w] on
    ASCII, Latin-1 and the Turkish letters; they are used to run the program
    on texts in these characters. *)

Definition latin_lower_char (c : char) : str :=
  if in_range 65%N 90%N c then [(c + 32)%N]
  else if (c =? 304)%N then [105%N; 775%N]
  else if in_range 192%N 222%N c && negb (c =? 215)%N then [(c + 32)%N]
  else if (c =? 286)%N || (c =? 350)%N then [(c + 1)%N]
  else [c].

Definition latin_lower (s : str) : str := flat_map latin_lower_char s.

Definition latin_is_word (c : char) : bool :=
  in_range 48%N 57%N c || in_range 65%N 90%N c || (c =? 95)%N || in_range 97%N 122%N c
  || (c =? 170)%N || in_range 178%N 179%N c || (c =? 181)%N || in_range 185%N 186%N c
  || in_range 188%N 190%N c || in_range 192%N 214%N c || in_range 216%N 246%N c
  || in_range 248%N 383%N c.

(** ** Worlds to run the program in

    A [Write] of [docs/tr.md] with the given content, the default file
    names, empty dictionaries, and a checker that is there and gives the
    same replies whatever its input. *)

Definition tr_md : str := u "docs/tr.md".

(** The payload of a tool applied to a path *)
Definition payload_of (tool path : str) : Json :=
  JDict [(u "tool_name", JStr tool);
         (u "tool_input", JDict [(u "file_path", JStr path)])].

Definition world_of (content : str) (reply_a : str) (reply_l : list str)
    (slot : str -> nat) : World :=
  {| stdin_json := Some (payload_of (u "Write") tr_md);
     read_file := fun p => if eqb p tr_md then Content content else NotAFile;
     CHECK_FILES := [u "tr.mdx"; u "tr.md"];
     whitelist := [];
     amb_lookup := [];
     amb_skip := [];
     hunspell_found := true;
     hunspell_a := fun _ => Some reply_a;
     hunspell_l := fun _ => Some reply_l;
     slot := slot |}.

(** A comment of three lines, then a line of prose *)
Definition commented_text : str :=
  u "<!--" ++ [nl] ++ u "taslak" ++ [nl] ++ u "-->" ++ [nl]
    ++ u "Bu bir ornek metindir".

Definition commented_world : World :=
  world_of commented_text (u "& ornek 1 0: örnek" ++ [nl]) [] (fun _ => 0).

(** A word that the checker reports without suggestion and of which every
    variant is valid, in two processes that differ by the place of the
    strings in their hash tables only *)
Definition tie_world (slot : str -> nat) : World :=
  world_of (u "Hava kis gibi") (u "# kis 0" ++ [nl]) [] slot.

(** The same trigger for a file that is not UTF-8, as a text saved in the
    Turkish code page *)
Definition code_page_world : World :=
  {| stdin_json := Some (payload_of (u "Write") tr_md);
     read_file := fun p => if eqb p tr_md then NotUtf8 else NotAFile;
     CHECK_FILES := [u "tr.mdx"; u "tr.md"];
     whitelist := [];
     amb_lookup := [];
     amb_skip := [];
     hunspell_found := true;
     hunspell_a := fun _ => Some [];
     hunspell_l := fun _ => Some [];
     slot := fun _ => 0 |}.

Definition slot_a : str -> nat := fun _ => 0.
Definition slot_b : str -> nat := fun s => if eqb s (u "kıs") then 0 else 1.

(** ** Notions used to state the properties *)

Class EqbOk (A : Type) `{Eqb A} :=
  eqb_eq : forall x y : A, eqb x y = true <-> x = y.

Arguments EqbOk A {_}.

(** The number of letters of a word that have a diacritic counterpart *)
Definition substitutable (word : str) : nat :=
  count_if (fun c => dict_mem c SWAP_MAP) word.

(** The texts a pattern can match, anchors and word boundaries left aside *)
Fixpoint lang (r : re) (t : str) : Prop :=
  match r with
  | Eps | Bol _ | Eol | WordB => t = []
  | Cls p => exists c, t = [c] /\ p c = true
  | Rep _ lo _ p => Forall (fun c => p c = true) t /\ lo <= List.length t
  | Cat a b => exists x y, t = x ++ y /\ lang a x /\ lang b y
  | Alt a b => lang a t \/ lang b t
  | Grp a => lang a t
  end.

(** A suggestion [s] qualifies for a word: same word once folded to ASCII
    and lower-cased, another word once lower-cased, more diacritics. *)
Definition qualifies {U : Unicode} (word s : str) : Prop :=
  lower (ascii_fold s) = lower (ascii_fold word)
  /\ lower s <> lower word
  /\ count_diacritics word < count_diacritics s.

(** The case-insensitive form of the word of a finding *)
Definition lw {U : Unicode} (e : Finding) : str := lower (word e).

(** From [st] to [st1] the findings [new] were claimed, each for a word
    form that was not claimed before, each satisfying [P]. *)
Definition grows_by {U : Unicode} (P : Finding -> Prop) (st st1 : Acc)
    (new : list Finding) : Prop :=
  errors st1 = errors st ++ new
  /\ seen_lower st1 = seen_lower st ++ map lw new
  /\ Forall P new
  /\ NoDup (map lw new)
  /\ (forall e, In e new -> ~ In (lw e) (seen_lower st)).

(** What the findings of each layer satisfy *)
Definition by_layer1 {U : Unicode} (word_locations : dict str (list nat))
    (items : dict str (list str)) (e : Finding) : Prop :=
  layer e = 1 /\ confidence e = high
  /\ lines e = get_lines word_locations (word e)
  /\ exists suggestions,
       In (word e, suggestions) items
       /\ layer1_suggestion (word e) suggestions = Some (correction e).

Definition by_layer2 (word_locations : dict str (list nat))
    (keys : list str) (e : Finding) : Prop :=
  layer e = 2 /\ confidence e = high
  /\ lines e = get_lines word_locations (word e)
  /\ In (word e) keys.

Definition by_layer3 {U : Unicode} (w : World)
    (word_locations : dict str (list nat))
    (misspellings : dict str (list str)) (e : Finding) : Prop :=
  layer e = 3 /\ confidence e = medium
  /\ lines e = get_lines word_locations (word e)
  /\ dict_mem (word e) misspellings = false
  /\ substitutable (word e) <> 0
  /\ is_identifier (word e) = false
  /\ 3 <= List.length (word e)
  /\ layer3_ambiguity (word e) (amb_lookup w) (amb_skip w) (whitelist w)
     = Some (correction e)
  /\ lower (correction e) <> lower (word e).



(** The text given to the first call *)
Definition words_text {U : Unicode} (content : str) : str :=
  join [nl] (sorted (dict_keys (layer0 (strip_non_prose content)))).

(** The state after pass 1 on given misspellings *)
Definition pass1 {U : Unicode} (w : World) (content : str)
    (misspellings : dict str (list str)) : Acc :=
  fold_left (pass1_step w (layer0 (strip_non_prose content))) misspellings
            {| errors := []; seen_lower := []; layer2_candidates := [] |}.

(** The misspellings that the first call gives for a content; none when
    reading the reply raises *)
Definition misspellings_of {U : Unicode} (w : World) (content : str)
  : dict str (list str) :=
  let word_locations := layer0 (strip_non_prose content) in
  let text := join [nl] (sorted (dict_keys word_locations)) in
  match fst (hunspell_check_text w text []) with
  | Some misspellings => misspellings
  | None => []
  end.

(** The state after pass 1 of the run on a content *)
Definition after_pass1 {U : Unicode} (w : World) (content : str) : Acc :=
  pass1 w content (misspellings_of w content).

(** [v] is [word] with some letters replaced by their diacritic counterpart *)
Definition diacritized (word v : str) : Prop :=
  Forall2 (fun c o => o = c \/ dict_get c SWAP_MAP = Some [o]) word v.

(** The options of [generate_variants] at a letter *)
Definition options (c : char) : list char :=
  match dict_get c SWAP_MAP with
  | Some alts => [c] ++ alts
  | None => [c]
  end.

(** Patterns without anchor, group or bounded repetition *)
Fixpoint plain (r : re) : Prop :=
  match r with
  | Eps | Cls _ => True
  | Rep _ _ hi _ => hi = None
  | Cat a b | Alt a b => plain a /\ plain b
  | Bol _ | Eol | WordB | Grp _ => False
  end.

(** Every entry of an index has line numbers, from [lo] and below [hi], in
    increasing order *)
Definition lines_within (lo hi : nat) (d : dict str (list nat)) : Prop :=
  NoDup (dict_keys d)
  /\ forall k l, In (k, l) d ->
       l <> [] /\ Forall (fun n => lo <= n < hi) l /\ StronglySorted le l.

(** The replacement has no more newlines than the match *)
Definition shrinks {U : Unicode} (r : re) (repl : str -> str -> str) : Prop :=
  forall prev s len g1,
    match_at r prev s = Some (len, g1) ->
    count_if (eqb nl) (repl (firstn len s) g1)
    <= count_if (eqb nl) (firstn len s).

(** What every finding has gone through: the word passed the filters of
    length, identifier shape and whitelist, and the correction is a word
    other than the word of the finding. *)
Definition filtered {U : Unicode} (w : World) (e : Finding) : Prop :=
  3 <= List.length (word e)
  /\ is_identifier (word e) = false
  /\ ~ In (lower (word e)) (whitelist w)
  /\ correction e <> []
  /\ correction e <> word e.

(** A word that the checker flagged and for which Layer 1 found nothing *)
Definition left_by_layer1 {U : Unicode} (misspellings : dict str (list str))
    (k : str) : Prop :=
  exists suggestions,
    In (k, suggestions) misspellings
    /\ truthy (layer1_suggestion k suggestions) = false.

(** An entry of [layer2_candidates] *)
Definition candidate_ok {U : Unicode} (w : World)
    (misspellings : dict str (list str)) (kv : str * list str) : Prop :=
  3 <= List.length (fst kv)
  /\ is_identifier (fst kv) = false
  /\ ~ In (lower (fst kv)) (whitelist w)
  /\ snd kv = generate_variants (fst kv)
  /\ left_by_layer1 misspellings (fst kv).

(** A finding of Layer 2, given the variants that the checker accepted *)
Definition by_layer2_valid {U : Unicode} (w : World)
    (word_locations : dict str (list nat))
    (misspellings : dict str (list str)) (valid : list str) (e : Finding)
  : Prop :=
  layer e = 2 /\ confidence e = high
  /\ lines e = get_lines word_locations (word e)
  /\ left_by_layer1 misspellings (word e)
  /\ In (correction e) (generate_variants (word e))
  /\ In (correction e) valid.

(** What a finding of a scan satisfies, layer by layer *)
Definition sound {U : Unicode} (w : World) (content : str)
    (misspellings : dict str (list str)) (e : Finding) : Prop :=
  let word_locations := layer0 (strip_non_prose content) in
  let all_variants :=
    flat_map snd (layer2_candidates (pass1 w content misspellings)) in
  let valid := fst (hunspell_batch_valid w all_variants []) in
  filtered w e
  /\ (by_layer1 word_locations misspellings e
      \/ by_layer2_valid w word_locations misspellings valid e
      \/ (by_layer3 w word_locations misspellings e
          /\ In (word e) (dict_keys word_locations))).

(** The trigger is one for which [main] reads the file at [path] and gets
    [content]: a payload that is an object, of the tool Edit or Write, with
    an object as tool input whose path is a string that is not empty, whose
    last component is one of the checked file names, of a file that can be
    read *)
Definition reads (w : World) (path content : str) : Prop :=
  exists data tool_input,
    stdin_json w = Some (JDict data)
    /\ is_edit_or_write (json_get (u "tool_name") (JStr []) data) = true
    /\ json_get (u "tool_input") (JDict []) data = JDict tool_input
    /\ json_get (u "file_path") (JStr []) tool_input = JStr path
    /\ path <> []
    /\ In (basename path) (CHECK_FILES w)
    /\ read_file w path = Content content.

Definition applicable (w : World) : Prop :=
  exists path content, reads w path content.

(** A file with a word of the lookup table that the checker knows *)
Definition amb_world : World :=
  {| stdin_json := Some (payload_of (u "Edit") tr_md);
     read_file := fun p => if eqb p tr_md then Content (u "Biber aci")
                           else NotAFile;
     CHECK_FILES := [u "tr.mdx"; u "tr.md"];
     whitelist := [];
     amb_lookup := [(u "aci", u "acı")];
     amb_skip := [];
     hunspell_found := true;
     hunspell_a := fun _ => Some [];
     hunspell_l := fun _ => Some [];
     slot := fun _ => 0 |}.

(** ** The lookup table of Layer 3, as a file

    [file] is [None] when the path is not a file; else it holds the lines
    that iterating over the file gives, each with its line end. *)

Definition tab : char := 9%N.

Section Lookup.
Context {U : Unicode}.

(** One turn of the loop [for line in f] *)
Definition lookup_step (lookup : dict str str) (line : str) : dict str str :=
  let line := strip line in
  match line with
  | [] => lookup
  | _ =>
      if negb (mem tab line) then lookup
      else
        match split_once tab line with
        | (ascii_form, Some diacritics_forms) =>
            let best := strip (hd [] (split (ch ",") diacritics_forms)) in
            dict_set (lower ascii_form) best lookup
        | (_, None) => lookup
        end
  end.

Definition load_ambiguous_lookup (file : option (list str)) : dict str str :=
  match file with
  | None => []
  | Some lines => fold_left lookup_step lines []
  end.

End Lookup.

(** A string without white space at its start *)
Definition starts_clean (t : str) : Prop :=
  match t with
  | c :: _ => is_space c = false
  | [] => True
  end.

(** A string without white space at either end *)
Definition tidy (t : str) : Prop := starts_clean t /\ starts_clean (rev t).

(** The shape of an entry of the results: a word without white space and
    suggestions without comma and without white space at either end *)
Definition entry_ok (kv : str * list str) : Prop :=
  fst kv <> []
  /\ Forall (fun c => is_space c = false) (fst kv)
  /\ Forall (fun s => ~ In (ch ",") s /\ tidy s) (snd kv).

(** The character before the position that follows [a], [prev] being the
    character before [a] *)
Fixpoint prev_of (prev : option char) (a : str) : option char :=
  match a with
  | [] => prev
  | c :: a1 => prev_of (Some c) a1
  end.

(** [p] holds of the rest of the text at the start of one of its lines, a
    line being ended by a newline; [at_start] tells that the text starts a
    line *)
Fixpoint any_line_start (p : str -> bool) (at_start : bool) (s : str) : bool :=
  (at_start && p s)
  || match s with
     | [] => false
     | c :: s1 => any_line_start p (eqb c nl) s1
     end.

(** A text without markup: none of the characters that start a pattern of
    [strip_non_prose], no slash, no front matter, no line that starts with
    [import] or [export] *)
Definition plain_prose (text : str) : bool :=
  forallb (fun c => negb (mem c (u "`~<{[#*_/"))) text
  && negb (startswith text (u "---" ++ [nl]))
  && negb (any_line_start (fun b => startswith b (u "import")
                                    || startswith b (u "export"))
                          true text).

(** [l1] is [l2] with some elements left out *)
Inductive subseq {A} : list A -> list A -> Prop :=
| subseq_nil : subseq [] []
| subseq_skip x l1 l2 : subseq l1 l2 -> subseq l1 (x :: l2)
| subseq_take x l1 l2 : subseq l1 l2 -> subseq (x :: l1) (x :: l2).


(** * Properties *)

(** ** Equality tests decide equality *)

#[export] Instance N_EqbOk : EqbOk N := N.eqb_eq.

Lemma list_eqb_eq {A} `{EqbOk A} (x y : list A) :
  list_eqb x y = true <-> x = y.
Proof.
  revert y; induction x as [|a x IH]; intros [|b y]; simpl;
    try (split; [discriminate | discriminate]); try tauto.
  rewrite andb_true_iff, eqb_eq, IH. split.
  - intros [-> ->]; reflexivity.
  - intros E; inversion E; auto.
Qed.

#[export] Instance list_EqbOk {A} `{EqbOk A} : EqbOk (list A) := list_eqb_eq.

Lemma eqb_refl {A} `{EqbOk A} (x : A) : eqb x x = true.
Proof. apply eqb_eq; reflexivity. Qed.

Lemma eqb_neq {A} `{EqbOk A} (x y : A) : eqb x y = false <-> x <> y.
Proof.
  split.
  - intros E ->. rewrite eqb_refl in E; discriminate.
  - intros N. destruct (eqb x y) eqn:E; auto. apply eqb_eq in E; contradiction.
Qed.

Lemma mem_In {A} `{EqbOk A} (x : A) l : mem x l = true <-> In x l.
Proof.
  unfold mem. rewrite existsb_exists. split.
  - intros (y & Hy & E). apply eqb_eq in E. subst; auto.
  - intros Hx. exists x. split; auto. apply eqb_refl.
Qed.

Lemma mem_notIn {A} `{EqbOk A} (x : A) l : mem x l = false <-> ~ In x l.
Proof.
  rewrite <- mem_In. destruct (mem x l); split; intros; try discriminate; auto.
  exfalso; auto.
Qed.

(** ** Variant generation *)

Lemma existsb_count_if {A} (p : A -> bool) (l : list A) :
  existsb p l = false <-> count_if p l = 0.
Proof.
  unfold count_if. induction l as [|x l IH]; simpl; [tauto|].
  destruct (p x); simpl; [split; discriminate | exact IH].
Qed.

Lemma SWAP_MAP_one_alternative (c : char) (alts : list char) :
  dict_get c SWAP_MAP = Some alts -> List.length alts = 1.
Proof.
  unfold SWAP_MAP, dict_get.
  repeat (destruct (eqb c _); [intros E; injection E as <-; reflexivity|]).
  discriminate.
Qed.

Lemma swappable_positions (word : str) (k : nat) :
  List.length
    (filter (fun p : nat * list char => 1 <? List.length (snd p))
       (map (fun ic : nat * char =>
               let (i, c) := ic in
               match dict_get c SWAP_MAP with
               | Some alts => (i, [c] ++ alts)
               | None => (i, [c])
               end) (combine (seq k (List.length word)) word)))
  = substitutable word.
Proof.
  unfold substitutable, count_if. revert k.
  induction word as [|c word IH]; intros k; [reflexivity|].
  cbn [List.length seq combine map filter]. unfold dict_mem at 1.
  destruct (dict_get c SWAP_MAP) as [alts|] eqn:E.
  - apply SWAP_MAP_one_alternative in E. cbn [snd].
    rewrite length_app, E. cbn [List.length Nat.add Nat.ltb Nat.leb].
    f_equal. apply IH.
  - cbn [snd List.length Nat.ltb Nat.leb]. apply IH.
Qed.

Lemma variants_loop_inv (word : str) (word_dc : nat) (combos : list str) :
  forall (variants : list str) (count : nat),
    ~ In word variants ->
    Forall (fun v => word_dc < count_diacritics v) variants ->
    List.length variants <= count -> count <= 64 ->
    let r := variants_loop word word_dc combos variants count in
    ~ In word r /\ Forall (fun v => word_dc < count_diacritics v) r
    /\ List.length r <= 64.
Proof.
  induction combos as [|candidate rest IH]; intros variants count Hn Hd Hl Hc;
    cbn [variants_loop].
  - repeat split; auto; lia.
  - destruct (eqb candidate word) eqn:E; [apply IH; auto|].
    apply eqb_neq in E.
    destruct (64 <? count + 1) eqn:E64; [repeat split; auto; lia|].
    apply Nat.ltb_ge in E64.
    destruct (word_dc <? count_diacritics candidate) eqn:Edc.
    + apply Nat.ltb_lt in Edc. apply IH; auto.
      * rewrite in_app_iff. intros [H|[H|[]]]; auto.
      * apply Forall_app; split; auto.
      * rewrite length_app; simpl; lia.
    + apply IH; auto; lia.
Qed.

(** C6: [generate_variants] never returns the word itself, returns at most
    64 candidates, each with strictly more diacritic characters than the
    word, and returns none when the word has more than 6 substitutable
    positions or no substitutable letter. *)
Theorem generate_variants_bounds (word : str) :
  ~ In word (generate_variants word)
  /\ List.length (generate_variants word) <= 64
  /\ Forall (fun v => count_diacritics word < count_diacritics v)
            (generate_variants word)
  /\ (6 < substitutable word -> generate_variants word = [])
  /\ (substitutable word = 0 -> generate_variants word = []).
Proof.
  unfold generate_variants, positions, enumerate.
  rewrite swappable_positions.
  destruct (existsb (fun c => dict_mem c SWAP_MAP) word) eqn:Ex; cbn [negb].
  - assert (Hs : substitutable word <> 0).
    { intros H0. apply existsb_count_if in H0.
      unfold char in *. rewrite H0 in Ex. discriminate. }
    destruct (6 <? substitutable word) eqn:E6.
    + repeat split; auto; simpl; try lia; try tauto.
    + apply Nat.ltb_ge in E6.
      destruct (variants_loop_inv word (count_diacritics word)
                  (product (map snd
                     (map (fun ic : nat * char =>
                             let (i, c) := ic in
                             match dict_get c SWAP_MAP with
                             | Some alts => (i, [c] ++ alts)
                             | None => (i, [c])
                             end) (combine (seq 0 (List.length word)) word))))
                  [] 0) as (H1 & H2 & H3); simpl; auto; try lia.
      repeat split; auto; intros; try lia; try contradiction.
  - repeat split; auto; simpl; try lia; try tauto.
Qed.

(** ** The matcher only returns texts of the pattern *)

Lemma runs_skipn (p : char -> bool) (s : str) :
  forall lo hi prev g1 st,
    In st (skipn lo (runs p hi prev s g1)) ->
    exists t, s = t ++ m_rest st
              /\ Forall (fun c => p c = true) t /\ lo <= List.length t.
Proof.
  induction s as [|c s IH]; intros lo hi prev g1 st Hin.
  - assert (Hst : st = {| m_prev := prev; m_rest := []; m_g1 := g1 |} /\ lo = 0).
    { destruct lo as [|lo]; cbn [runs skipn] in Hin.
      - destruct hi as [[|n]|]; destruct Hin as [<-|[]]; auto.
      - destruct hi as [[|n]|]; destruct lo; destruct Hin. }
    destruct Hst as [-> ->]. exists []. repeat split; auto.
  - assert (Hcases :
      (lo = 0 /\ st = {| m_prev := prev; m_rest := c :: s; m_g1 := g1 |})
      \/ (p c = true /\
          In st (skipn (Nat.pred lo) (runs p (pred_hi hi) (Some c) s g1)))).
    { destruct lo as [|lo]; cbn [runs skipn Nat.pred] in *.
      - destruct Hin as [<-|Hin]; [left; auto|]. right.
        destruct hi as [[|n]|]; [destruct Hin| |];
          (destruct (p c); [split; auto | destruct Hin]).
      - right. destruct hi as [[|n]|];
          [destruct lo; destruct Hin| |];
          (destruct (p c); [split; auto | destruct lo; destruct Hin]). }
    destruct Hcases as [[-> ->]|[Hp Hin1]].
    + exists []. repeat split; auto.
    + apply IH in Hin1. destruct Hin1 as (t & Hs & Ht & Hlo).
      exists (c :: t). repeat split.
      * simpl. f_equal. exact Hs.
      * constructor; auto.
      * simpl. lia.
Qed.

Section MatcherFacts.
Context {U : Unicode}.

Lemma mt_sound (r : re) :
  forall st st1, In st1 (mt r st) ->
    exists t, m_rest st = t ++ m_rest st1 /\ lang r t.
Proof.
  induction r as [|p|greedy lo hi p|a IHa b IHb|a IHa b IHb|ml| | |a IHa];
    intros st st1 Hin; cbn [mt lang] in *.
  - destruct Hin as [<-|[]]. exists []; auto.
  - destruct (m_rest st) as [|c s1] eqn:E; [destruct Hin|].
    destruct (p c) eqn:Hp; [|destruct Hin].
    destruct Hin as [<-|[]]. exists [c]. split; eauto.
  - assert (Hin1 : In st1 (skipn lo (runs p hi (m_prev st) (m_rest st)
                                       (m_g1 st)))).
    { destruct greedy; [apply in_rev|]; exact Hin. }
    apply runs_skipn in Hin1. destruct Hin1 as (t & Hs & Ht & Hlo).
    exists t. auto.
  - apply in_flat_map in Hin. destruct Hin as (st0 & H0 & H1).
    apply IHa in H0. apply IHb in H1.
    destruct H0 as (x & Hx & Lx). destruct H1 as (y & Hy & Ly).
    exists (x ++ y). split.
    + rewrite Hx, Hy. apply app_assoc.
    + exists x, y. auto.
  - apply in_app_or in Hin. destruct Hin as [H|H];
      [apply IHa in H | apply IHb in H];
      destruct H as (t & Ht & Lt); exists t; auto.
  - destruct (m_prev st) as [c|].
    + destruct (ml && eqb c nl); [|destruct Hin].
      destruct Hin as [<-|[]]. exists []; auto.
    + destruct Hin as [<-|[]]. exists []; auto.
  - destruct (m_rest st) as [|c s1] eqn:E.
    + destruct Hin as [<-|[]]. exists []; auto.
    + destruct (eqb c nl); [|destruct Hin].
      destruct Hin as [<-|[]]. exists []; auto.
  - destruct (xorb _ _); [|destruct Hin].
    destruct Hin as [<-|[]]. exists []; auto.
  - apply in_map_iff in Hin. destruct Hin as (st0 & <- & H0).
    apply IHa in H0. exact H0.
Qed.

Lemma fullmatch_lang (r : re) (s : str) : fullmatch r s = true -> lang r s.
Proof.
  unfold fullmatch. intros H. apply existsb_exists in H.
  destruct H as (st & Hin & Hr). apply mt_sound in Hin.
  destruct Hin as (t & Ht & Lt). cbn [m_rest] in Ht.
  destruct (m_rest st); [|discriminate].
  rewrite app_nil_r in Ht. subst. exact Lt.
Qed.

Lemma fullmatch_Alt (a b : re) (s : str) :
  fullmatch (Alt a b) s = fullmatch a s || fullmatch b s.
Proof. unfold fullmatch. cbn [mt]. apply existsb_app. Qed.

Lemma match_at_lang (r : re) (prev : option char) (s : str) (len : nat)
    (g1 : str) :
  match_at r prev s = Some (len, g1) -> lang r (firstn len s).
Proof.
  unfold match_at.
  destruct (mt r _) as [|st l] eqn:E; [discriminate|].
  intros H. injection H as <- <-.
  assert (Hin : In st (mt r {| m_prev := prev; m_rest := s; m_g1 := [] |}))
    by (rewrite E; left; reflexivity).
  apply mt_sound in Hin. destruct Hin as (t & Ht & Lt). cbn [m_rest] in Ht.
  rewrite Ht at 1 2. rewrite length_app, Nat.add_sub, firstn_app, firstn_all.
  rewrite Nat.sub_diag. cbn [firstn]. rewrite app_nil_r. exact Lt.
Qed.

Lemma scan_hits (r : re) (s : str) :
  forall limit skip prev g0 g1,
    In (Hit g0 g1) (scan r limit skip prev s) -> lang r g0.
Proof.
  induction s as [|c s IH]; intros limit skip prev g0 g1 Hin.
  - destruct skip; cbn [scan] in Hin; [|destruct Hin].
    destruct (match limit with Some 0 => None | _ => match_at r prev [] end)
      as [[len g]|] eqn:E; [|destruct Hin].
    destruct Hin as [H|[]]. injection H as <- <-.
    destruct limit as [[|n]|]; try discriminate;
      apply match_at_lang in E; exact E.
  - destruct skip; cbn [scan] in Hin; [|eapply IH; exact Hin].
    destruct (match limit with Some 0 => None | _ => match_at r prev (c :: s) end)
      as [[len g]|] eqn:E.
    + destruct Hin as [H|Hin].
      * injection H as <- <-.
        destruct limit as [[|n]|]; try discriminate;
          apply match_at_lang in E; exact E.
      * destruct len; [destruct Hin as [H|Hin]; [discriminate|]|];
          eapply IH; exact Hin.
    + destruct Hin as [H|Hin]; [discriminate|]. eapply IH; exact Hin.
Qed.

Lemma re_findall_lang (r : re) (s word : str) :
  In word (re_findall r s) -> lang r word.
Proof.
  unfold re_findall. intros H. apply in_flat_map in H.
  destruct H as ([c|g0 g1] & Hin & Hw); [destruct Hw|].
  destruct Hw as [<-|[]]. eapply scan_hits; exact Hin.
Qed.

End MatcherFacts.

(** ** The word index *)

Ltac eval_lits :=
  repeat match goal with
  | |- context [ch ?s] =>
      let v := eval vm_compute in (ch s) in change (ch s) with v
  | |- context [u ?s] =>
      let v := eval vm_compute in (u s) in change (u s) with v
  end.

Lemma is_letter_not_punct (c : char) :
  is_letter c = true ->
  c <> ch "_" /\ c <> ch "-" /\ in_range (ch "0") (ch "9") c = false.
Proof.
  unfold is_letter, either, in_range, one_of, mem. eval_lits.
  cbn [existsb]. unfold eqb, N_Eqb. intros H.
  rewrite !orb_true_iff, !andb_true_iff, !N.leb_le, !N.eqb_eq in H.
  assert (Hc : (65 <= c)%N) by lia.
  repeat split; try lia.
  destruct (N.leb_spec c 57); [lia|]. apply andb_false_r.
Qed.

Lemma dict_append_keys {V} (k k1 : str) (x : V) (d : dict str (list V)) :
  In k (dict_keys (dict_append k1 x d)) -> k = k1 \/ In k (dict_keys d).
Proof.
  unfold dict_keys. induction d as [|[k2 l] d IH]; cbn [dict_append map In].
  - intros [<-|[]]; auto.
  - destruct (eqb k1 k2) eqn:E; cbn [map In fst].
    + tauto.
    + intros [H|H]; auto. apply IH in H. tauto.
Qed.

Section IndexFacts.
Context {U : Unicode}.

Lemma index_words_keys (line_num : nat) (words : list str) :
  forall (d : dict str (list nat)) (k : str),
    In k (dict_keys
            (fold_left (fun d word =>
                          if List.length word <? 2 then d
                          else dict_append word line_num d) words d)) ->
    In k (dict_keys d) \/ (In k words /\ 2 <= List.length k).
Proof.
  induction words as [|x words IH]; intros d k H; cbn [fold_left] in H; auto.
  apply IH in H. destruct H as [H|[H1 H2]]; [|right; split; [right|]; auto].
  destruct (List.length x <? 2) eqn:E; auto.
  apply Nat.ltb_ge in E. apply dict_append_keys in H.
  destruct H as [->|H]; auto. right. split; [left|]; auto.
Qed.

Lemma layer0_keys (prose k : str) :
  In k (dict_keys (layer0 prose)) ->
  exists line, In k (re_findall re_word line) /\ 2 <= List.length k.
Proof.
  unfold layer0.
  generalize (combine (seq 1 (List.length (splitlines prose)))
                      (splitlines prose)).
  intros numbered.
  assert (G : forall d,
    In k (dict_keys (fold_left index_line numbered d)) ->
    In k (dict_keys d)
    \/ exists line, In k (re_findall re_word line) /\ 2 <= List.length k).
  { induction numbered as [|[n line] numbered IH]; intros d H;
      cbn [fold_left] in H; auto.
    apply IH in H. destruct H as [H|H]; auto.
    unfold index_line in H. apply index_words_keys in H.
    destruct H as [H|[H1 H2]]; auto. right. exists line. auto. }
  intros H. apply G in H. destruct H as [[]|H]. exact H.
Qed.

Lemma re_word_letters (k : str) :
  lang re_word k -> Forall (fun c => is_letter c = true) k.
Proof.
  unfold re_word, cats, plus. cbn [fold_right lang].
  intros (x & y & -> & -> & x1 & y1 & -> & [H _] & x2 & y2 & -> & -> & ->).
  cbn [app]. rewrite app_nil_r. exact H.
Qed.

Lemma lang_lit_plus (p q : char -> bool) (m : char) (k : str) :
  lang (cats [plus p; lit [m]; plus q]) k -> In m k.
Proof.
  unfold cats, lit, plus. cbn [map fold_right lang].
  intros (x & y & -> & _ & x1 & y1 & -> & Hm & _).
  destruct Hm as (x2 & y2 & -> & (c & -> & Hc) & ->).
  apply (proj1 (eqb_eq m c)) in Hc. subst c.
  apply in_or_app. right. left. reflexivity.
Qed.

(** C10: a key of the word index is a run of at least two Latin or Turkish
    letters, without underscore, hyphen or digit; the snake_case and
    kebab-case alternatives of the identifier pattern never match it, so
    that it is identifier-shaped only through the camelCase or the ALL-CAPS
    alternative. *)
Theorem indexed_words_are_letter_runs (prose k : str) :
  In k (dict_keys (layer0 prose)) ->
  Forall (fun c => is_letter c = true) k
  /\ 2 <= List.length k
  /\ ~ In (ch "_") k /\ ~ In (ch "-") k
  /\ Forall (fun c => in_range (ch "0") (ch "9") c = false) k
  /\ fullmatch re_snake k = false
  /\ fullmatch re_kebab k = false
  /\ is_identifier k = fullmatch re_camel k || fullmatch re_caps k.
Proof.
  intros Hk. apply layer0_keys in Hk. destruct Hk as (line & Hin & Hlen).
  apply re_findall_lang, re_word_letters in Hin.
  assert (Hu : ~ In (ch "_") k).
  { intros H. rewrite Forall_forall in Hin. apply Hin in H.
    apply is_letter_not_punct in H. tauto. }
  assert (Hh : ~ In (ch "-") k).
  { intros H. rewrite Forall_forall in Hin. apply Hin in H.
    apply is_letter_not_punct in H. tauto. }
  assert (Hs : fullmatch re_snake k = false).
  { destruct (fullmatch re_snake k) eqn:E; auto.
    apply fullmatch_lang in E. apply lang_lit_plus in E. contradiction. }
  assert (Hb : fullmatch re_kebab k = false).
  { destruct (fullmatch re_kebab k) eqn:E; auto.
    apply fullmatch_lang in E. apply lang_lit_plus in E. contradiction. }
  repeat split; auto.
  - apply Forall_forall. intros c Hc. rewrite Forall_forall in Hin.
    apply Hin in Hc. apply is_letter_not_punct in Hc. tauto.
  - unfold is_identifier, RE_IDENTIFIER.
    rewrite !fullmatch_Alt, Hs, Hb. cbn [orb]. rewrite orb_false_r.
    reflexivity.
Qed.

End IndexFacts.

(** ** The Latin and Turkish table is an instance of the Unicode facts *)

Lemma latin_char_law (c : char) :
  c <> dotted_capital_I ->
  count_if (fun c => mem c lower_swappable) (latin_lower_char c)
  = if dict_mem c SWAP_MAP then 1 else 0.
Proof.
  intros Hc. unfold dotted_capital_I in Hc.
  unfold latin_lower_char, in_range, dict_mem, SWAP_MAP, dict_get, eqb, N_Eqb.
  repeat match goal with
  | |- context [(?a =? ?b)%N] =>
      destruct (N.eqb_spec a b); [subst; try reflexivity; try lia|]
  end.
  all: cbn [negb andb orb].
  all: repeat match goal with
  | |- context [(?a <=? ?b)%N] => destruct (N.leb_spec a b)
  end;
  cbn [negb andb orb count_if filter List.length mem existsb lower_swappable];
  unfold eqb, N_Eqb;
  repeat match goal with
  | |- context [(?a =? ?b)%N] => destruct (N.eqb_spec a b); [exfalso; lia|]
  end; cbn [orb]; try reflexivity; try lia.
Qed.

Lemma latin_law (x : str) :
  ~ In dotted_capital_I x ->
  count_if (fun c => mem c lower_swappable) (latin_lower x)
  = count_if (fun c => dict_mem c SWAP_MAP) x.
Proof.
  intros H. induction x as [|c x IH]; [reflexivity|].
  change (latin_lower (c :: x)) with (latin_lower_char c ++ latin_lower x).
  unfold count_if in *.
  rewrite filter_app, length_app.
  rewrite IH by (intros Hx; apply H; right; exact Hx).
  pose proof (@latin_char_law c) as L. unfold count_if in L.
  rewrite L by (intros ->; apply H; left; reflexivity).
  cbn [filter]. destruct (dict_mem c SWAP_MAP); reflexivity.
Qed.

#[export] Instance latin_unicode : Unicode :=
  {| lower := latin_lower; is_word := latin_is_word;
     lower_counts_swappable := latin_law |}.

(** A text with two indexed words, one of them in capitals. *)
Lemma indexed_words_are_letter_runs_witness :
  In (u "NATO") (dict_keys (layer0 (u "NATO ve kis")))
  /\ fullmatch re_snake (u "NATO") = false
  /\ is_identifier (u "NATO")
     = fullmatch re_camel (u "NATO") || fullmatch re_caps (u "NATO").
Proof.
  assert (H : In (u "NATO") (dict_keys (layer0 (u "NATO ve kis"))))
    by (vm_compute; tauto).
  split; [exact H|].
  pose proof (@indexed_words_are_letter_runs latin_unicode
                (u "NATO ve kis") (u "NATO") H) as T.
  split; apply T.
Defined.

(** ** Layer 1 *)

Section Layer1Facts.
Context {U : Unicode}.

Lemma qualifies_test (word s : str) :
  (eqb (lower (ascii_fold s)) (lower (ascii_fold word))
   && negb (eqb (lower s) (lower word))
   && (count_diacritics word <? count_diacritics s)) = true
  <-> qualifies word s.
Proof.
  unfold qualifies.
  rewrite !andb_true_iff, negb_true_iff, Nat.ltb_lt, eqb_eq, eqb_neq. tauto.
Qed.

Lemma layer1_loop_step (word s : str) (rest : list str) :
  layer1_suggestion_loop word (lower (ascii_fold word))
                         (count_diacritics word) (s :: rest)
  = if eqb (lower (ascii_fold s)) (lower (ascii_fold word))
       && negb (eqb (lower s) (lower word))
       && (count_diacritics word <? count_diacritics s)
    then Some s
    else layer1_suggestion_loop word (lower (ascii_fold word))
                                (count_diacritics word) rest.
Proof.
  cbn [layer1_suggestion_loop].
  destruct (eqb (lower (ascii_fold s)) (lower (ascii_fold word))
            && negb (eqb (lower s) (lower word)));
    destruct (count_diacritics word <? count_diacritics s); reflexivity.
Qed.

Lemma layer1_found (word s : str) (suggestions : list str) :
  layer1_suggestion word suggestions = Some s ->
  exists before after,
    suggestions = before ++ s :: after /\ qualifies word s
    /\ Forall (fun t => ~ qualifies word t) before.
Proof.
  unfold layer1_suggestion.
  induction suggestions as [|t rest IH]; [discriminate|].
  rewrite layer1_loop_step.
  destruct (_ && _ && _) eqn:E.
  - intros H. injection H as <-. apply qualifies_test in E.
    exists [], rest. auto.
  - intros H. apply IH in H. destruct H as (before & after & -> & Hq & Hb).
    exists (t :: before), after. repeat split; auto; try apply Hq.
    constructor; auto. intros Ht. apply qualifies_test in Ht.
    rewrite Ht in E. discriminate.
Qed.

Lemma layer1_not_found (word : str) (suggestions : list str) :
  layer1_suggestion word suggestions = None ->
  Forall (fun t => ~ qualifies word t) suggestions.
Proof.
  unfold layer1_suggestion.
  induction suggestions as [|t rest IH]; [constructor|].
  rewrite layer1_loop_step.
  destruct (_ && _ && _) eqn:E; [discriminate|].
  intros H. constructor; auto.
  intros Ht. apply qualifies_test in Ht. rewrite Ht in E. discriminate.
Qed.

Lemma layer1_first (word s : str) (before after : list str) :
  Forall (fun t => ~ qualifies word t) before -> qualifies word s ->
  layer1_suggestion word (before ++ s :: after) = Some s.
Proof.
  unfold layer1_suggestion. intros Hb Hs.
  induction Hb as [|t before Ht Hb IH]; cbn [app]; rewrite layer1_loop_step.
  - apply qualifies_test in Hs. rewrite Hs. reflexivity.
  - destruct (_ && _ && _) eqn:E; auto.
    apply qualifies_test in E. contradiction.
Qed.

Lemma layer1_suggestion_nonempty (word s : str) (suggestions : list str) :
  layer1_suggestion word suggestions = Some s -> s <> [].
Proof.
  intros H. apply layer1_found in H.
  destruct H as (_ & _ & _ & (_ & _ & Hd) & _).
  intros ->. cbn in Hd. lia.
Qed.

(** C5: Layer 1 returns the first suggestion, in the order of the checker,
    that folds to the same ASCII word (compared in lower case), is another
    word in lower case and has strictly more diacritic characters; it
    returns nothing when no suggestion qualifies; and the finding that
    pass 1 makes of it has confidence high. *)
Theorem layer1_returns_first_qualifying (word : str) (suggestions : list str) :
  (forall s,
     layer1_suggestion word suggestions = Some s <->
     exists before after,
       suggestions = before ++ s :: after /\ qualifies word s
       /\ Forall (fun t => ~ qualifies word t) before)
  /\ (layer1_suggestion word suggestions = None <->
      Forall (fun t => ~ qualifies word t) suggestions)
  /\ (forall w word_locations st,
        let st1 := pass1_step w word_locations st (word, suggestions) in
        errors st1 = errors st
        \/ exists s,
             layer1_suggestion word suggestions = Some s
             /\ errors st1
                = errors st ++
                  [Build_Finding word s (get_lines word_locations word)
                                 high 1]).
Proof.
  split; [|split].
  - intros s. split; [apply layer1_found|].
    intros (before & after & -> & Hq & Hb). apply layer1_first; auto.
  - split; [apply layer1_not_found|].
    intros Hall. destruct (layer1_suggestion word suggestions) as [s|] eqn:E;
      auto.
    apply layer1_found in E. destruct E as (before & after & -> & Hq & _).
    rewrite Forall_forall in Hall. exfalso. apply (Hall s); auto.
    apply in_or_app. right. left. reflexivity.
  - intros w word_locations st. cbn zeta. unfold pass1_step.
    destruct (mem (lower word) (seen_lower st) || (List.length word <? 3));
      auto.
    destruct (is_identifier word || mem (lower word) (whitelist w)); auto.
    destruct (layer1_suggestion word suggestions) as [[|c s]|] eqn:E;
      cbn [truthy some_or_empty].
    + destruct (generate_variants word); auto.
    + right. exists (c :: s). split; auto.
    + destruct (generate_variants word); auto.
Qed.

End Layer1Facts.

(** ** Dictionaries *)

Lemma dict_get_In {K V} `{EqbOk K} (k : K) (v : V) (d : dict K V) :
  dict_get k d = Some v -> In (k, v) d.
Proof.
  induction d as [|[k1 v1] d IH]; cbn [dict_get]; [discriminate|].
  destruct (eqb k k1) eqn:E.
  - apply eqb_eq in E. subst. intros H1. injection H1 as ->. left; reflexivity.
  - intros H1. right. auto.
Qed.

Lemma dict_mem_keys {K V} `{EqbOk K} (k : K) (d : dict K V) :
  dict_mem k d = true <-> In k (dict_keys d).
Proof.
  unfold dict_mem, dict_keys.
  induction d as [|[k1 v1] d IH]; cbn [dict_get map In fst].
  - split; [discriminate|tauto].
  - destruct (eqb k k1) eqn:E.
    + apply eqb_eq in E. subst. split; auto.
    + apply eqb_neq in E. rewrite IH. split; [auto|].
      intros [H1|H1]; [symmetry in H1; contradiction|exact H1].
Qed.

Lemma dict_set_In {K V} `{EqbOk K} (k k1 : K) (v v1 : V) (d : dict K V) :
  In (k, v) (dict_set k1 v1 d) -> (k = k1 /\ v = v1) \/ In (k, v) d.
Proof.
  induction d as [|[k2 v2] d IH]; cbn [dict_set In].
  - intros [H1|[]]. injection H1 as <- <-. auto.
  - destruct (eqb k1 k2) eqn:E; cbn [In].
    + apply eqb_eq in E. subst.
      intros [H1|H1]; [injection H1 as <- <-|]; auto.
    + intros [H1|H1]; auto. apply IH in H1. tauto.
Qed.

(** ** Claims: one finding for each case-insensitive word form *)

Section ClaimFacts.
Context {U : Unicode}.

Lemma grows_by_refl (P : Finding -> Prop) (st : Acc) : grows_by P st st [].
Proof.
  unfold grows_by. cbn [map]. rewrite !app_nil_r.
  repeat split; auto; try constructor; try (intros ? []).
Qed.

Lemma grows_by_same (P : Finding -> Prop) (st st1 : Acc) :
  errors st1 = errors st -> seen_lower st1 = seen_lower st ->
  grows_by P st st1 [].
Proof.
  intros He Hs. unfold grows_by. cbn [map]. rewrite !app_nil_r.
  repeat split; auto; try constructor; try (intros ? []).
Qed.

Lemma grows_by_weaken (P Q : Finding -> Prop) (st st1 : Acc) new :
  (forall e, P e -> Q e) -> grows_by P st st1 new -> grows_by Q st st1 new.
Proof.
  intros HPQ (He & Hs & HP & Hn & Hf). repeat split; auto.
  eapply Forall_impl; eauto.
Qed.

Lemma grows_by_trans (P : Finding -> Prop) (st st1 st2 : Acc) n1 n2 :
  grows_by P st st1 n1 -> grows_by P st1 st2 n2 ->
  grows_by P st st2 (n1 ++ n2).
Proof.
  intros (He1 & Hs1 & HP1 & Hn1 & Hf1) (He2 & Hs2 & HP2 & Hn2 & Hf2).
  repeat split.
  - rewrite He2, He1. symmetry. apply app_assoc.
  - rewrite Hs2, Hs1, map_app. symmetry. apply app_assoc.
  - apply Forall_app; auto.
  - rewrite map_app. apply NoDup_app; auto.
    intros x Hx1 Hx2. apply in_map_iff in Hx2.
    destruct Hx2 as (e & <- & He). apply (Hf2 e He).
    rewrite Hs1. apply in_or_app. right. exact Hx1.
  - intros e He. apply in_app_or in He. destruct He as [He|He]; auto.
    intros Hin. apply (Hf2 e He). rewrite Hs1. apply in_or_app. auto.
Qed.

Lemma grows_by_claim (P : Finding -> Prop) word_locations (st : Acc)
    (word correction : str) (c : Confidence) (layer : nat) :
  mem (lower word) (seen_lower st) = false ->
  P (Build_Finding word correction (get_lines word_locations word) c layer) ->
  grows_by P st (claim word_locations st word correction c layer)
    [Build_Finding word correction (get_lines word_locations word) c layer].
Proof.
  intros Hm HP. apply mem_notIn in Hm.
  unfold grows_by, claim, lw. cbn [errors seen_lower map].
  repeat split; auto.
  - constructor; [intros []|constructor].
  - intros e [<-|[]]. exact Hm.
Qed.

End ClaimFacts.

(** ** A word claimed by Layer 1 has a letter with a diacritic counterpart *)

Lemma fold_char_swappable (c : char) :
  let f := match dict_get c DIACRITICS_MAP with Some a => a | None => c end in
  (if dict_mem f SWAP_MAP then 1 else 0)
  = (if dict_mem c DIACRITICS_MAP then 1 else 0)
    + (if dict_mem c SWAP_MAP then 1 else 0)
  /\ f <> dotted_capital_I.
Proof.
  unfold dict_mem, dict_get, DIACRITICS_MAP, SWAP_MAP, dotted_capital_I,
    eqb, N_Eqb.
  repeat match goal with
  | |- context [(c =? ?b)%N] =>
      destruct (N.eqb_spec c b);
      [subst; vm_compute; split; [reflexivity | discriminate]|]
  end.
  cbn zeta. split; [reflexivity | assumption].
Qed.

Lemma ascii_fold_counts (s : str) :
  count_if (fun c => dict_mem c SWAP_MAP) (ascii_fold s)
  = count_diacritics s + substitutable s
  /\ ~ In dotted_capital_I (ascii_fold s).
Proof.
  unfold count_diacritics, substitutable, count_if, ascii_fold.
  induction s as [|c s [IH1 IH2]]; [split; [reflexivity | intros []]|].
  destruct (fold_char_swappable c) as [Hc Hd]. cbn zeta in Hc, Hd.
  cbn [map filter In]. split.
  - destruct (dict_mem (match dict_get c DIACRITICS_MAP with
                        | Some a => a
                        | None => c
                        end) SWAP_MAP);
      destruct (dict_mem c DIACRITICS_MAP); destruct (dict_mem c SWAP_MAP);
      cbn [List.length] in *; try discriminate; rewrite IH1; lia.
  - intros [H|H]; [apply Hd; exact H | apply IH2; exact H].
Qed.

Lemma layer1_needs_substitutable {U : Unicode} (word s : str)
    (suggestions : list str) :
  layer1_suggestion word suggestions = Some s -> substitutable word <> 0.
Proof.
  intros H. apply layer1_found in H.
  destruct H as (_ & _ & _ & (Hf & _ & Hd) & _).
  destruct (ascii_fold_counts s) as [Cs Is].
  destruct (ascii_fold_counts word) as [Cw Iw].
  pose proof (lower_counts_swappable (ascii_fold s) Is) as Ls.
  pose proof (lower_counts_swappable (ascii_fold word) Iw) as Lw.
  rewrite Hf in Ls. lia.
Qed.

(** ** The three passes *)

Lemma subseq_nil_l {A} (l : list A) : subseq [] l.
Proof. induction l; constructor; auto. Qed.

Section PassFacts.
Context {U : Unicode}.
Variable w : World.
Variable word_locations : dict str (list nat).

Lemma pass1_step_grows (st : Acc) (item : str * list str) items :
  In item items ->
  exists new,
    grows_by (by_layer1 word_locations items) st (pass1_step w word_locations st item) new.
Proof.
  intros Hin. destruct item as [word suggestions]. unfold pass1_step.
  destruct (mem (lower word) (seen_lower st)) eqn:Hm; cbn [orb];
    [exists []; apply grows_by_refl|].
  destruct (List.length word <? 3); [exists []; apply grows_by_refl|].
  destruct (is_identifier word || mem (lower word) (whitelist w));
    [exists []; apply grows_by_refl|].
  destruct (layer1_suggestion word suggestions) as [[|c s]|] eqn:E;
    cbn [truthy some_or_empty].
  - destruct (generate_variants word); exists [];
      [apply grows_by_refl | apply grows_by_same; reflexivity].
  - eexists. apply grows_by_claim; auto.
    unfold by_layer1. cbn. repeat split; auto. exists suggestions. auto.
  - destruct (generate_variants word); exists [];
      [apply grows_by_refl | apply grows_by_same; reflexivity].
Qed.

Lemma pass1_grows (items all : dict str (list str)) :
  incl items all ->
  forall st, exists new,
    grows_by (by_layer1 word_locations all) st
             (fold_left (pass1_step w word_locations) items st) new.
Proof.
  induction items as [|item items IH]; intros Hincl st; cbn [fold_left].
  - exists []. apply grows_by_refl.
  - destruct (pass1_step_grows st item all) as (n1 & G1).
    { apply Hincl. left. reflexivity. }
    destruct (IH (fun x Hx => Hincl x (or_intror Hx))
                 (pass1_step w word_locations st item)) as (n2 & G2).
    exists (n1 ++ n2). eapply grows_by_trans; eauto.
Qed.

Lemma pass1_step_candidates (st : Acc) (word : str) suggestions k v :
  In (k, v) (layer2_candidates
               (pass1_step w word_locations st (word, suggestions))) ->
  In (k, v) (layer2_candidates st)
  \/ (k = word /\ v = generate_variants k /\ v <> []).
Proof.
  unfold pass1_step.
  destruct (mem (lower word) (seen_lower st) || (List.length word <? 3));
    auto.
  destruct (is_identifier word || mem (lower word) (whitelist w)); auto.
  destruct (truthy (layer1_suggestion word suggestions)); auto.
  destruct (generate_variants word) as [|v1 vs] eqn:E; auto.
  cbn [layer2_candidates]. intros H. apply dict_set_In in H.
  destruct H as [[-> ->]|H]; auto. right. rewrite E. repeat split; auto.
  discriminate.
Qed.

Lemma pass1_candidates (items : dict str (list str)) :
  forall st k v,
    In (k, v) (layer2_candidates
                 (fold_left (pass1_step w word_locations) items st)) ->
    In (k, v) (layer2_candidates st)
    \/ (In k (dict_keys items) /\ v = generate_variants k /\ v <> []).
Proof.
  induction items as [|[word suggestions] items IH]; intros st k v H;
    cbn [fold_left] in H; auto.
  apply IH in H. destruct H as [H|(H1 & H2 & H3)].
  - apply pass1_step_candidates in H. destruct H as [H|(-> & H2 & H3)]; auto.
    right. repeat split; auto. left. reflexivity.
  - right. repeat split; auto. right. exact H1.
Qed.

Lemma pass1_claims_all (items : dict str (list str)) :
  forall st word suggestions,
    In (word, suggestions) items ->
    3 <= List.length word -> is_identifier word = false ->
    mem (lower word) (whitelist w) = false ->
    truthy (layer1_suggestion word suggestions) = true ->
    In (lower word)
       (seen_lower (fold_left (pass1_step w word_locations) items st)).
Proof.
  induction items as [|item items IH];
    intros st word suggestions Hin Hlen Hid Hwl Ht; [destruct Hin|].
  cbn [fold_left]. destruct Hin as [->|Hin]; [|eapply IH; eauto].
  destruct (pass1_grows items items (incl_refl items)
              (pass1_step w word_locations st (word, suggestions)))
    as (new & _ & Hs & _).
  rewrite Hs. apply in_or_app. left.
  unfold pass1_step. apply Nat.ltb_ge in Hlen. rewrite Hlen, Hid, Hwl, Ht.
  cbn [orb]. rewrite orb_false_r.
  destruct (mem (lower word) (seen_lower st)) eqn:Hm.
  - apply mem_In. exact Hm.
  - cbn [claim seen_lower]. apply in_or_app. right. left. reflexivity.
Qed.

Lemma variant_to_word_inner (k : str) (vs : list str) :
  forall (d : dict str str) v src,
    In (v, src) (fold_left (fun d v => dict_set v k d) vs d) ->
    In (v, src) d \/ src = k.
Proof.
  induction vs as [|v1 vs IH]; intros d v src H; cbn [fold_left] in H; auto.
  apply IH in H. destruct H as [H|H]; auto.
  apply dict_set_In in H. tauto.
Qed.

Lemma variant_to_word_values (cands : dict str (list str)) :
  forall (d : dict str str) v src,
    In (v, src)
       (fold_left (fun d item =>
                     fold_left (fun d v => dict_set v (fst item) d)
                               (snd item) d) cands d) ->
    In (v, src) d \/ In src (dict_keys cands).
Proof.
  induction cands as [|[k vs] cands IH]; intros d v src H;
    cbn [fold_left] in H; auto.
  apply IH in H. destruct H as [H|H].
  - apply variant_to_word_inner in H. cbn [fst] in H.
    destruct H as [H| ->]; auto. right. left. reflexivity.
  - right. right. exact H.
Qed.

Lemma word_valid_keys (variant_to_word : dict str str) (vs : list str) :
  forall (d : dict str (list str)) k,
    In k (dict_keys
            (fold_left (fun d v =>
                          match dict_get v variant_to_word with
                          | Some src => dict_append src v d
                          | None => d
                          end) vs d)) ->
    In k (dict_keys d) \/ exists v, dict_get v variant_to_word = Some k.
Proof.
  induction vs as [|v vs IH]; intros d k H; cbn [fold_left] in H; auto.
  apply IH in H. destruct H as [H|H]; auto.
  destruct (dict_get v variant_to_word) as [src|] eqn:E; auto.
  apply dict_append_keys in H. destruct H as [->|H]; eauto.
Qed.

Lemma layer2_steps_grow (items : dict str (list str)) (keys : list str) :
  incl (dict_keys items) keys ->
  forall st, exists new,
    grows_by (by_layer2 word_locations keys) st
             (fold_left (layer2_step word_locations) items st) new.
Proof.
  induction items as [|[word valid_list] items IH]; intros Hincl st;
    cbn [fold_left].
  - exists []. apply grows_by_refl.
  - assert (G1 : exists n1,
      grows_by (by_layer2 word_locations keys) st
               (layer2_step word_locations st (word, valid_list)) n1).
    { unfold layer2_step.
      destruct (mem (lower word) (seen_lower st)) eqn:Hm;
        [exists []; apply grows_by_refl|].
      destruct valid_list as [|v vs]; [exists []; apply grows_by_refl|].
      eexists. apply grows_by_claim; auto.
      unfold by_layer2. cbn. repeat split; auto.
      apply Hincl. left. reflexivity. }
    destruct G1 as (n1 & G1).
    destruct (IH (fun x Hx => Hincl x (or_intror Hx))
                 (layer2_step word_locations st (word, valid_list)))
      as (n2 & G2).
    exists (n1 ++ n2). eapply grows_by_trans; eauto.
Qed.

Lemma layer2_grows (st : Acc) (log : list call) :
  exists new,
    grows_by (by_layer2 word_locations (dict_keys (layer2_candidates st))) st
             (fst (layer2 w word_locations st log)) new.
Proof.
  unfold layer2.
  destruct (layer2_candidates st) as [|c0 cands] eqn:Ec.
  - exists []. apply grows_by_refl.
  - unfold bind.
    destruct (hunspell_batch_valid w (flat_map snd (c0 :: cands)) log)
      as [valid_variants log1].
    unfold ret. cbn [fst].
    apply layer2_steps_grow.
    intros k Hk. apply word_valid_keys in Hk.
    destruct Hk as [[]|(v & Hv)].
    apply dict_get_In in Hv. apply variant_to_word_values in Hv.
    destruct Hv as [[]|Hv]. exact Hv.
Qed.

Lemma pass2_grows (misspellings : dict str (list str)) (words : list str) :
  forall st n, n < LAYER3_BRAKE ->
    exists new,
      grows_by (by_layer3 w word_locations misspellings) st
               (pass2_loop w word_locations misspellings words st n) new
      /\ List.length new + n <= LAYER3_BRAKE
      /\ subseq (map word new) words.
Proof.
  induction words as [|wd words IH]; intros st n Hn; cbn [pass2_loop].
  - exists []. split; [apply grows_by_refl|].
    split; [cbn; unfold LAYER3_BRAKE in *; lia | constructor].
  - assert (Skip : exists new,
      grows_by (by_layer3 w word_locations misspellings) st
               (pass2_loop w word_locations misspellings words st n) new
      /\ List.length new + n <= LAYER3_BRAKE
      /\ subseq (map word new) (wd :: words)).
    { destruct (IH st n Hn) as (new & G & L & S).
      exists new. split; [exact G|]. split; [exact L|].
      apply subseq_skip. exact S. }
    destruct (mem (lower wd) (seen_lower st)) eqn:Hm; [exact Skip|].
    destruct (is_identifier wd) eqn:Hid; cbn [orb]; [exact Skip|].
    destruct (List.length wd <? 3) eqn:Hlen; [exact Skip|].
    destruct (existsb (fun c => dict_mem c SWAP_MAP) wd) eqn:Hsw;
      cbn [negb]; [|exact Skip].
    destruct (dict_mem wd misspellings) eqn:Hms; [exact Skip|].
    destruct (layer3_ambiguity wd (amb_lookup w) (amb_skip w) (whitelist w))
      as [[|c s]|] eqn:E3; cbn [truthy some_or_empty andb];
      [exact Skip| |exact Skip].
    destruct (eqb (lower (c :: s)) (lower wd)) eqn:Eq; cbn [negb];
      [exact Skip|].
    apply eqb_neq in Eq. apply Nat.ltb_ge in Hlen.
    assert (G1 : grows_by (by_layer3 w word_locations misspellings) st
              (claim word_locations st wd (c :: s) medium 3)
              [Build_Finding wd (c :: s)
                 (get_lines word_locations wd) medium 3]).
    { apply grows_by_claim; auto. unfold by_layer3. cbn.
      repeat split; auto.
      intros H0. apply existsb_count_if in H0.
      unfold char in *. rewrite H0 in Hsw. discriminate. }
    destruct (LAYER3_BRAKE <=? n + 1) eqn:Eb.
    + eexists. split; [exact G1|]. split.
      * cbn. unfold LAYER3_BRAKE in *. lia.
      * cbn. apply subseq_take. apply subseq_nil_l.
    + apply Nat.leb_gt in Eb.
      destruct (IH (claim word_locations st wd (c :: s) medium 3)
                   (n + 1) Eb) as (new & G & L & S).
      eexists. split; [eapply grows_by_trans; [exact G1|exact G]|]. split.
      * cbn. lia.
      * cbn. apply subseq_take. exact S.
Qed.

End PassFacts.

(** ** Sorting *)

Lemma str_leb_total (a b : str) : str_leb a b = false -> str_leb b a = true.
Proof.
  revert b. induction a as [|x a IH]; intros [|y b]; cbn [str_leb]; auto.
  destruct (N.ltb_spec x y); [discriminate|].
  destruct (N.ltb_spec y x); [reflexivity|]. apply IH.
Qed.

Lemma str_leb_trans (a b c : str) :
  str_leb a b = true -> str_leb b c = true -> str_leb a c = true.
Proof.
  revert b c. induction a as [|x a IH]; intros [|y b] [|z c];
    cbn [str_leb]; auto; try discriminate.
  destruct (N.ltb_spec x y); destruct (N.ltb_spec y z);
    destruct (N.ltb_spec x z); auto; try lia;
    destruct (N.ltb_spec y x); destruct (N.ltb_spec z y);
    destruct (N.ltb_spec z x); auto; try discriminate; try lia.
  apply IH.
Qed.

Section SortFacts.
Context {A : Type} (leb : A -> A -> bool).
Hypothesis leb_total : forall a b, leb a b = false -> leb b a = true.
Hypothesis leb_trans :
  forall a b c, leb a b = true -> leb b c = true -> leb a c = true.

Lemma insert_by_In (x z : A) (l : list A) :
  In z (insert_by leb x l) -> z = x \/ In z l.
Proof.
  induction l as [|y l IH]; cbn [insert_by].
  - intros [<-|[]]; auto.
  - destruct (leb x y).
    + intros [<-|H]; auto.
    + intros [<-|H]; [right; left; reflexivity|].
      apply IH in H. destruct H; auto. right. right. assumption.
Qed.

Lemma insert_by_sorted (x : A) (l : list A) :
  StronglySorted (fun a b => leb a b = true) l ->
  StronglySorted (fun a b => leb a b = true) (insert_by leb x l).
Proof.
  induction 1 as [|y l Hs IH Hy]; cbn [insert_by].
  - constructor; constructor.
  - destruct (leb x y) eqn:E.
    + constructor; [constructor; auto|].
      constructor; auto. eapply Forall_impl; [|exact Hy].
      intros z Hz. eapply leb_trans; eauto.
    + constructor; auto. apply Forall_forall. intros z Hz.
      apply insert_by_In in Hz. destruct Hz as [->|Hz]; auto.
      rewrite Forall_forall in Hy. auto.
Qed.

Lemma sort_by_sorted (l : list A) :
  StronglySorted (fun a b => leb a b = true) (sort_by leb l).
Proof.
  unfold sort_by. induction l as [|x l IH]; cbn [fold_right].
  - constructor.
  - apply insert_by_sorted. exact IH.
Qed.

End SortFacts.

Lemma insert_by_perm {A} (leb : A -> A -> bool) (x : A) (l : list A) :
  Permutation (insert_by leb x l) (x :: l).
Proof.
  induction l as [|y l IH]; cbn [insert_by]; auto.
  destruct (leb x y); auto.
  eapply perm_trans; [apply perm_skip; exact IH | apply perm_swap].
Qed.

Lemma sort_by_perm {A} (leb : A -> A -> bool) (l : list A) :
  Permutation (sort_by leb l) l.
Proof.
  unfold sort_by. induction l as [|x l IH]; cbn [fold_right]; auto.
  eapply perm_trans; [apply insert_by_perm | apply perm_skip; exact IH].
Qed.

(** ** A scan as a whole *)

Section ScanFacts.
Context {U : Unicode}.

Lemma check_text_result (w : World) (text : str) (log : list call) :
  hunspell_check_text w text log
  = (fst (hunspell_check_text w text []),
     log ++ if hunspell_found w then [Call_a text] else []).
Proof.
  unfold hunspell_check_text, bind, run_a, ret.
  destruct (hunspell_found w).
  - destruct (hunspell_a w text); reflexivity.
  - rewrite app_nil_r. reflexivity.
Qed.

(** Without the program the first call gives no misspelling, and reading
    its reply raises only if there is a reply. *)
Lemma check_text_not_found (w : World) (text : str) (log : list call) :
  hunspell_found w = false ->
  fst (hunspell_check_text w text log) = Some [].
Proof.
  intros H. unfold hunspell_check_text, bind, run_a, ret. rewrite H.
  reflexivity.
Qed.

Lemma batch_valid_log (w : World) (words : list str) (log : list call) :
  snd (hunspell_batch_valid w words log)
  = log ++ match words with
           | [] => []
           | _ => if hunspell_found w then [Call_l (join [nl] words)] else []
           end.
Proof.
  unfold hunspell_batch_valid, bind, run_l, ret.
  destruct words as [|x words]; cbn [snd]; [symmetry; apply app_nil_r|].
  destruct (hunspell_found w).
  - destruct (hunspell_l w (join [nl] (x :: words))); reflexivity.
  - cbn [snd]. symmetry. apply app_nil_r.
Qed.

Lemma layer2_log (w : World) word_locations (st : Acc) (log : list call) :
  snd (layer2 w word_locations st log)
  = log ++ match flat_map snd (layer2_candidates st) with
           | [] => []
           | _ => if hunspell_found w
                  then [Call_l (join [nl] (flat_map snd (layer2_candidates st)))]
                  else []
           end.
Proof.
  unfold layer2.
  destruct (layer2_candidates st) as [|c0 cands] eqn:Ec.
  - cbn. symmetry. apply app_nil_r.
  - unfold bind.
    pose proof (batch_valid_log w (flat_map snd (c0 :: cands)) log) as L.
    destruct (hunspell_batch_valid w (flat_map snd (c0 :: cands)) log)
      as [valid_variants log1].
    cbn [snd ret] in *. unfold ret. cbn [snd]. exact L.
Qed.

Lemma detect_unfold (w : World) (content : str)
    (misspellings : dict str (list str)) (log : list call) :
  let word_locations := layer0 (strip_non_prose content) in
  let r := layer2 w word_locations (pass1 w content misspellings) log in
  detect w content misspellings log
  = (errors (pass2_loop w word_locations misspellings
                        (sorted (dict_keys word_locations)) (fst r) 0),
     snd r).
Proof.
  cbn zeta. unfold detect, pass1, bind, ret.
  destruct (layer2 _ _ _ _) as [st2 log2]. reflexivity.
Qed.

Lemma detect_shape (w : World) (content : str)
    (misspellings : dict str (list str)) (log : list call) :
  let word_locations := layer0 (strip_non_prose content) in
  exists n1 n2 n3,
    fst (detect w content misspellings log) = n1 ++ n2 ++ n3
    /\ Forall (by_layer1 word_locations misspellings) n1
    /\ Forall (by_layer2 word_locations
                 (dict_keys (layer2_candidates
                               (pass1 w content misspellings)))) n2
    /\ Forall (by_layer3 w word_locations misspellings) n3
    /\ NoDup (map lw (n1 ++ n2 ++ n3))
    /\ List.length n3 <= LAYER3_BRAKE
    /\ subseq (map word n3) (sorted (dict_keys word_locations))
    /\ seen_lower (pass1 w content misspellings) = map lw n1.
Proof.
  cbn zeta. rewrite detect_unfold. cbn zeta. cbn [fst].
  set (wl := layer0 (strip_non_prose content)).
  set (ms := misspellings).
  destruct (pass1_grows w wl ms ms (incl_refl ms)
              {| errors := []; seen_lower := []; layer2_candidates := [] |})
    as (n1 & G1).
  fold (pass1 w content ms) in G1.
  destruct (layer2_grows w wl (pass1 w content ms) log) as (n2 & G2).
  set (st2 := fst (layer2 w wl (pass1 w content ms) log)) in *.
  destruct (pass2_grows w wl ms (sorted (dict_keys wl)) st2 0)
    as (n3 & G3 & L3 & S3); [unfold LAYER3_BRAKE; lia|].
  exists n1, n2, n3.
  assert (T : grows_by (fun _ => True)
                {| errors := []; seen_lower := []; layer2_candidates := [] |}
                (pass2_loop w wl ms (sorted (dict_keys wl)) st2 0)
                ((n1 ++ n2) ++ n3)).
  { eapply grows_by_trans; [eapply grows_by_trans|];
      eapply grows_by_weaken; eauto. }
  destruct T as (He & _ & _ & Hn & _).
  destruct G1 as (_ & S1 & P1 & _). destruct G2 as (_ & _ & P2 & _).
  destruct G3 as (_ & _ & P3 & _).
  cbn [errors seen_lower app] in He, S1. rewrite <- app_assoc in He, Hn.
  repeat split; auto. lia.
Qed.

End ScanFacts.

Lemma generate_variants_without_letter (word : str) :
  substitutable word = 0 -> generate_variants word = [].
Proof.
  intros H0. apply existsb_count_if in H0. unfold generate_variants.
  unfold char in *. rewrite H0. reflexivity.
Qed.

Lemma swap_key_letters (c : char) :
  dict_mem c SWAP_MAP = mem c (u "cgiosuCGIOSU").
Proof.
  unfold mem. eval_lits. cbn [existsb].
  unfold dict_mem, dict_get, SWAP_MAP, eqb, N_Eqb.
  repeat match goal with
  | |- context [(c =? ?b)%N] => destruct (N.eqb_spec c b); [reflexivity|]
  end.
  reflexivity.
Qed.

Lemma substitutable_letters (word : str) :
  existsb (fun c => mem c (u "cgiosuCGIOSU")) word = false ->
  substitutable word = 0.
Proof.
  intros H. apply existsb_count_if. rewrite <- H.
  clear H. induction word as [|c word IH]; [reflexivity|].
  cbn [existsb]. rewrite swap_key_letters, IH. reflexivity.
Qed.

Lemma NoDup_app_apart {A} (l1 l2 : list A) (x : A) :
  NoDup (l1 ++ l2) -> In x l2 -> ~ In x l1.
Proof.
  induction l1 as [|y l1 IH]; cbn [app]; intros Hn Hx Hin; [destruct Hin|].
  inversion Hn as [|? ? Hy Hn1]; subst.
  destruct Hin as [->|Hin]; [|exact (IH Hn1 Hx Hin)].
  apply Hy. apply in_or_app. right. exact Hx.
Qed.

Section MainFacts.
Context {U : Unicode}.


(** The four ways a run ends: silently with status 0 before any call; with
    an exception raised before any call; with the [IndexError] of the loop
    over the first reply; or with the report of the scan. *)
Lemma main_cases (w : World) (log : list call) :
  (main w log = (exit_0, log)
   /\ forall path content, ~ reads w path content)
  \/ (exists e, e <> IndexError /\ main w log = (raise e, log)
                /\ forall path content, ~ reads w path content)
  \/ (exists path content,
        reads w path content
        /\ hunspell_found w = true
        /\ fst (hunspell_check_text w (words_text content) []) = None
        /\ main w log = (raise IndexError,
                         log ++ [Call_a (words_text content)]))
  \/ exists path content misspellings,
       reads w path content
       /\ fst (hunspell_check_text w (words_text content) []) = Some misspellings
       /\ let log1 := log ++ if hunspell_found w
                             then [Call_a (words_text content)] else [] in
          main w log = (report path (fst (detect w content misspellings log1)),
                        snd (detect w content misspellings log1)).
Proof.
  unfold main.
  destruct (stdin_json w) as [data|] eqn:Es.
  2:{ left. split; [reflexivity|].
      intros path content (d & ti & Hd & _). congruence. }
  destruct data as [| | | |l|data];
    try (right; left; exists AttributeError;
         split; [discriminate|]; split; [reflexivity|];
         intros path content (d & ti & Hd & _); congruence).
  assert (Same : forall path content,
            reads w path content ->
            exists ti,
              is_edit_or_write (json_get (u "tool_name") (JStr []) data)
              = true
              /\ json_get (u "tool_input") (JDict []) data = JDict ti
              /\ json_get (u "file_path") (JStr []) ti = JStr path
              /\ path <> []
              /\ In (basename path) (CHECK_FILES w)
              /\ read_file w path = Content content).
  { intros path content (d & ti & Hd & Ht & Hi & Hp & Hne & Hb & Hr).
    rewrite Es in Hd. injection Hd as <-. exists ti.
    repeat split; assumption. }
  destruct (is_edit_or_write (json_get (u "tool_name") (JStr []) data))
    eqn:Et; cbn [negb].
  2:{ left. split; [reflexivity|]. intros path content H. apply Same in H.
      destruct H as (ti & Ht & _). discriminate. }
  destruct (json_get (u "tool_input") (JDict []) data)
    as [| | | |l|tool_input] eqn:Ei;
    try (right; left; exists AttributeError;
         split; [discriminate|]; split; [reflexivity|];
         intros path content H; apply Same in H;
         destruct H as (ti & _ & Hi & _); discriminate).
  destruct (json_truthy (json_get (u "file_path") (JStr []) tool_input))
    eqn:Ef; cbn [negb].
  2:{ left. split; [reflexivity|]. intros path content H. apply Same in H.
      destruct H as (ti & _ & Hi & Hp & Hne & _). injection Hi as <-.
      rewrite Hp in Ef. destruct path; [contradiction | discriminate]. }
  destruct (json_get (u "file_path") (JStr []) tool_input)
    as [| | |path|l|d1] eqn:Ep;
    try (right; left; exists TypeError;
         split; [discriminate|]; split; [reflexivity|];
         intros path content H; apply Same in H;
         destruct H as (ti & _ & Hi & Hp & _);
         injection Hi as <-; congruence).
  assert (Other : forall path1 content,
            reads w path1 content ->
            In (basename path) (CHECK_FILES w)
            /\ read_file w path = Content content).
  { intros path1 content H. apply Same in H.
    destruct H as (ti & _ & Hi & Hp & _ & Hb & Hr). injection Hi as <-.
    rewrite Ep in Hp. injection Hp as <-. auto. }
  destruct (mem (basename path) (CHECK_FILES w)) eqn:Eb; cbn [negb].
  2:{ left. split; [reflexivity|]. intros p c H. apply Other in H.
      destruct H as [H _]. apply mem_In in H. congruence. }
  destruct (read_file w path) as [| | |content] eqn:Er.
  - left. split; [reflexivity|]. intros p c H. apply Other in H.
    destruct H as [_ H]. discriminate.
  - right. left. exists OSError. split; [discriminate|].
    split; [reflexivity|]. intros p c H. apply Other in H.
    destruct H as [_ H]. discriminate.
  - right. left. exists UnicodeDecodeError. split; [discriminate|].
    split; [reflexivity|]. intros p c H. apply Other in H.
    destruct H as [_ H]. discriminate.
  - assert (R : reads w path content).
    { exists data, tool_input. repeat split; auto.
      - intros ->. discriminate.
      - apply mem_In. exact Eb. }
    cbn zeta. fold (words_text content). unfold bind.
    rewrite check_text_result.
    destruct (fst (hunspell_check_text w (words_text content) []))
      as [misspellings|] eqn:Ec.
    + right. right. right. exists path, content, misspellings.
      split; [exact R|]. split; [exact Ec|]. cbn zeta.
      unfold ret. destruct (detect w content misspellings _).
      reflexivity.
    + right. right. left. exists path, content.
      split; [exact R|].
      destruct (hunspell_found w) eqn:Eh.
      * split; [reflexivity|]. split; [exact Ec|]. reflexivity.
      * rewrite check_text_not_found in Ec by exact Eh. discriminate.
Qed.

Lemma main_findings (w : World) (log : list call) :
  findings (fst (main w log)) = []
  \/ exists content misspellings log1,
       findings (fst (main w log)) = fst (detect w content misspellings log1).
Proof.
  destruct (main_cases w log)
    as [[E _]|[(e & _ & E & _)|[(p & c & _ & _ & _ & E)
                               |(p & c & ms & _ & _ & E)]]];
    cbn zeta in *; rewrite E.
  - left. reflexivity.
  - left. reflexivity.
  - left. reflexivity.
  - right.
    exists c, ms,
      (log ++ if hunspell_found w then [Call_a (words_text c)] else []).
    cbn [fst]. unfold report.
    destruct (fst (detect w c ms _)); reflexivity.
Qed.

(** What the first call gives is what pass 1 of the run works on. *)
Lemma after_pass1_of (w : World) (content : str)
    (misspellings : dict str (list str)) :
  fst (hunspell_check_text w (words_text content) []) = Some misspellings ->
  after_pass1 w content = pass1 w content misspellings.
Proof.
  intros H. unfold after_pass1, misspellings_of. cbn zeta.
  fold (words_text content). rewrite H. reflexivity.
Qed.

Lemma after_pass1_raised (w : World) (content : str) :
  fst (hunspell_check_text w (words_text content) []) = None ->
  after_pass1 w content = pass1 w content [].
Proof.
  intros H. unfold after_pass1, misspellings_of. cbn zeta.
  fold (words_text content). rewrite H. reflexivity.
Qed.

(** C1: a run starts the checker at most twice: once on the sorted distinct
    indexed words, one per line, and, only when Layer 2 has candidates, once
    more on all the Layer 2 variants together. *)
Theorem checker_started_at_most_twice (w : World) (log : list call) :
  exists calls,
    snd (main w log) = log ++ calls
    /\ List.length calls <= 2
    /\ (calls = []
        \/ exists content,
             let word_locations := layer0 (strip_non_prose content) in
             let candidates := layer2_candidates (after_pass1 w content) in
             (forall k vs, In (k, vs) candidates -> vs = generate_variants k)
             /\ calls
                = Call_a (join [nl] (sorted (dict_keys word_locations)))
                  :: match flat_map snd candidates with
                     | [] => []
                     | _ => [Call_l (join [nl] (flat_map snd candidates))]
                     end).
Proof.
  assert (Gen : forall content ms k vs,
            In (k, vs) (layer2_candidates (pass1 w content ms)) ->
            vs = generate_variants k).
  { intros content ms k vs H. unfold pass1 in H.
    apply pass1_candidates in H. destruct H as [[]|(_ & H & _)]. exact H. }
  destruct (main_cases w log)
    as [[E _]|[(e & _ & E & _)|[(p & c & _ & Eh & Ec & E)
                               |(p & c & ms & _ & Ec & E)]]];
    cbn zeta in *; rewrite E; cbn [snd].
  - exists []. rewrite app_nil_r. repeat split; auto.
  - exists []. rewrite app_nil_r. repeat split; auto.
  - exists [Call_a (words_text c)]. split; [reflexivity|].
    split; [cbn; lia|]. right. exists c. cbn zeta.
    rewrite (after_pass1_raised w c Ec). split; [apply Gen|].
    reflexivity.
  - rewrite detect_unfold. cbn zeta. cbn [snd]. rewrite layer2_log.
    destruct (hunspell_found w) eqn:Eh.
    + eexists. split; [rewrite <- app_assoc; reflexivity|]. split.
      * cbn [app]. destruct (flat_map snd _); cbn; lia.
      * right. exists c. cbn zeta. rewrite (after_pass1_of w c ms Ec).
        split; [apply Gen|]. reflexivity.
    + exists []. split.
      * destruct (flat_map snd _); rewrite !app_nil_r; reflexivity.
      * split; [cbn; lia | left; reflexivity].
Qed.

(** C4: in a scan every case-insensitive word form has at most one finding;
    the findings of Layer 1 come first, then those of Layer 2, then those of
    Layer 3, and a later layer claims no word form that an earlier one
    claimed.  A flagged word that passes the filters and the test of Layer 1
    has its form among the Layer 1 findings, hence in no Layer 3 finding. *)
Theorem one_finding_per_word_form (w : World) (content : str)
    (misspellings : dict str (list str)) (log : list call) :
  let fs := fst (detect w content misspellings log) in
  NoDup (map lw fs)
  /\ exists n1 n2 n3,
       fs = n1 ++ n2 ++ n3
       /\ Forall (fun e => layer e = 1) n1
       /\ Forall (fun e => layer e = 2) n2
       /\ Forall (fun e => layer e = 3) n3
       /\ (forall e, In e n2 -> ~ In (lw e) (map lw n1))
       /\ (forall e, In e n3 -> ~ In (lw e) (map lw (n1 ++ n2)))
       /\ (forall word suggestions,
             In (word, suggestions) misspellings ->
             3 <= List.length word -> is_identifier word = false ->
             mem (lower word) (whitelist w) = false ->
             truthy (layer1_suggestion word suggestions) = true ->
             In (lower word) (map lw n1)
             /\ ~ In (lower word) (map lw (n2 ++ n3))).
Proof.
  cbn zeta.
  destruct (detect_shape w content misspellings log)
    as (n1 & n2 & n3 & Hs & P1 & P2 & P3 & Hn & _ & _ & S1).
  cbn zeta in *. rewrite Hs. split; [exact Hn|].
  exists n1, n2, n3. split; [reflexivity|].
  split; [eapply Forall_impl; [|exact P1]; intros e H; apply H|].
  split; [eapply Forall_impl; [|exact P2]; intros e H; apply H|].
  split; [eapply Forall_impl; [|exact P3]; intros e H; apply H|].
  rewrite !map_app in Hn. split; [|split].
  - intros e He. rewrite app_assoc in Hn. apply NoDup_app_remove_r in Hn.
    eapply NoDup_app_apart; [exact Hn|]. apply in_map. exact He.
  - intros e He. rewrite map_app. rewrite app_assoc in Hn.
    eapply NoDup_app_apart; [exact Hn|]. apply in_map. exact He.
  - intros word suggestions Hin Hlen Hid Hwl Ht.
    assert (H1 : In (lower word) (map lw n1)).
    { rewrite <- S1. unfold pass1.
      eapply pass1_claims_all; eauto. }
    split; [exact H1|]. rewrite map_app. intros H23.
    revert H1. eapply NoDup_app_apart; [exact Hn | exact H23].
Qed.

(** C7: a word without any of the letters c, g, i, o, s, u, in either case,
    is the word of no finding of a scan, whatever the layer. *)
Theorem no_finding_without_substitutable_letter (w : World)
    (log : list call) (W : str) :
  existsb (fun c => mem c (u "cgiosuCGIOSU")) W = false ->
  ~ In W (map word (findings (fst (main w log)))).
Proof.
  intros HW Hin. apply substitutable_letters in HW.
  destruct (main_findings w log) as [E|(content & ms & log1 & E)];
    rewrite E in Hin; [destruct Hin|].
  destruct (detect_shape w content ms log1)
    as (n1 & n2 & n3 & Hs & P1 & P2 & P3 & _).
  cbn zeta in *. rewrite Hs in Hin. apply in_map_iff in Hin.
  destruct Hin as (e & <- & He).
  rewrite Forall_forall in P1, P2, P3.
  apply in_app_or in He. destruct He as [He|He].
  - destruct (P1 e He) as (_ & _ & _ & sugg & _ & H1).
    apply layer1_needs_substitutable in H1. contradiction.
  - apply in_app_or in He. destruct He as [He|He].
    + destruct (P2 e He) as (_ & _ & _ & Hk).
      apply in_map_iff in Hk. destruct Hk as ([k vs] & Hk & Hkv).
      cbn [fst] in Hk. subst k. unfold pass1 in Hkv.
      apply pass1_candidates in Hkv.
      destruct Hkv as [[]|(_ & Hv & Hne)].
      rewrite generate_variants_without_letter in Hv by exact HW.
      contradiction.
    + destruct (P3 e He) as (_ & _ & _ & _ & H3 & _). contradiction.
Qed.

(** C8: the findings of Layer 3 come after those of Layers 1 and 2; their
    words are taken in the order of the sorted list of distinct words, which
    is lexicographic; none of these words is flagged by the checker, none of
    their lower-case forms was claimed before; their confidence is medium;
    there are at most 15 of them. *)
Theorem layer3_sorted_unflagged_capped (w : World) (content : str)
    (misspellings : dict str (list str)) (log : list call) :
  let unique_words := dict_keys (layer0 (strip_non_prose content)) in
  exists earlier l3,
    fst (detect w content misspellings log) = earlier ++ l3
    /\ Forall (fun e => layer e = 1 \/ layer e = 2) earlier
    /\ Forall (fun e => layer e = 3 /\ confidence e = medium
                        /\ dict_mem (word e) misspellings = false
                        /\ ~ In (lw e) (map lw earlier)) l3
    /\ List.length l3 <= 15
    /\ subseq (map word l3) (sorted unique_words)
    /\ Permutation (sorted unique_words) unique_words
    /\ StronglySorted (fun a b => str_leb a b = true) (sorted unique_words).
Proof.
  cbn zeta.
  destruct (detect_shape w content misspellings log)
    as (n1 & n2 & n3 & Hs & P1 & P2 & P3 & Hn & L3 & S3 & _).
  cbn zeta in *. exists (n1 ++ n2), n3.
  split; [rewrite Hs; apply app_assoc|].
  split.
  { apply Forall_app. split; [eapply Forall_impl; [|exact P1]
                             |eapply Forall_impl; [|exact P2]];
      intros e H; [left|right]; apply H. }
  split.
  { apply Forall_forall. intros e He. rewrite Forall_forall in P3.
    destruct (P3 e He) as (A & B & _ & D & _). repeat split; auto.
    rewrite app_assoc, map_app in Hn.
    eapply NoDup_app_apart; [exact Hn|]. apply in_map. exact He. }
  split; [exact L3|]. split; [exact S3|]. split; [apply sort_by_perm|].
  apply sort_by_sorted; [apply str_leb_total | apply str_leb_trans].
Qed.

End MainFacts.

Lemma set_iter_permutation (slot : str -> nat) (s : list str) :
  Permutation (set_iter slot s) s.
Proof. apply sort_by_perm. Qed.

(** ** The lookups of Layer 2 never fail

    [variant_to_word[v]] is defined for every valid variant, and the lists
    of [word_valid], of which [min] is taken, are not empty. *)

Lemma dict_set_keys {K V} `{EqbOk K} (k k1 : K) (v : V) (d : dict K V) :
  k = k1 \/ In k (dict_keys d) -> In k (dict_keys (dict_set k1 v d)).
Proof.
  unfold dict_keys. induction d as [|[k2 v2] d IH]; cbn [dict_set map In fst].
  - intros [->|[]]. left. reflexivity.
  - destruct (eqb k1 k2) eqn:E; cbn [map In fst].
    + apply eqb_eq in E. subst. intros [->|[->|Hk]]; auto.
    + intros [->|[->|Hk]]; auto.
Qed.

Lemma variant_to_word_inner_keys (k : str) (vs : list str) :
  forall (d : dict str str) v,
    In v vs \/ In v (dict_keys d) ->
    In v (dict_keys (fold_left (fun d v => dict_set v k d) vs d)).
Proof.
  induction vs as [|v1 vs IH]; intros d v H; cbn [fold_left].
  - destruct H as [[]|H]. exact H.
  - apply IH. destruct H as [[->|H]|H]; auto; right; apply dict_set_keys; auto.
Qed.

Lemma variant_to_word_keys (cands : dict str (list str)) :
  forall (d : dict str str) v,
    In v (flat_map snd cands) \/ In v (dict_keys d) ->
    In v (dict_keys
            (fold_left (fun d item =>
                          fold_left (fun d v => dict_set v (fst item) d)
                                    (snd item) d) cands d)).
Proof.
  induction cands as [|[k vs] cands IH]; intros d v H;
    cbn [fold_left flat_map snd fst] in *.
  - destruct H as [[]|H]. exact H.
  - apply IH. destruct H as [H|H].
    + apply in_app_or in H. destruct H as [H|H]; auto.
      right. apply variant_to_word_inner_keys. auto.
    + right. apply variant_to_word_inner_keys. auto.
Qed.

Lemma dedup_In (l : list str) (v : str) : In v (dedup l) -> In v l.
Proof.
  induction l as [|x l IH]; cbn [dedup In]; auto.
  intros [H|H]; auto. apply filter_In in H. right. apply IH. apply H.
Qed.

Lemma batch_valid_subset (w : World) (words : list str) (log : list call)
    (v : str) :
  In v (fst (hunspell_batch_valid w words log)) -> In v words.
Proof.
  unfold hunspell_batch_valid, bind, run_l, ret.
  destruct words as [|x words]; cbn [fst]; [intros []|].
  destruct (hunspell_found w); [|intros []].
  destruct (hunspell_l w (join [nl] (x :: words))); cbn [fst]; [|intros []].
  intros H. apply filter_In in H. apply dedup_In. apply H.
Qed.

Lemma layer2_lookup_defined (w : World) (candidates : dict str (list str))
    (log : list call) (v : str) :
  In v (set_iter (slot w)
          (fst (hunspell_batch_valid w (flat_map snd candidates) log))) ->
  dict_mem v
    (fold_left (fun (d : dict str str) item =>
                  fold_left (fun d v => dict_set v (fst item) d) (snd item) d)
               candidates [])
  = true.
Proof.
  intros H. apply dict_mem_keys. apply variant_to_word_keys. left.
  eapply batch_valid_subset.
  eapply Permutation_in; [apply set_iter_permutation | exact H].
Qed.

Lemma dict_append_nonempty {V} (k : str) (x : V) (d : dict str (list V)) :
  Forall (fun kv => snd kv <> []) d ->
  Forall (fun kv => snd kv <> []) (dict_append k x d).
Proof.
  induction 1 as [|[k1 l] d Hl Hd IH]; cbn [dict_append].
  - constructor; [discriminate | constructor].
  - destruct (eqb k k1); constructor; auto. cbn [snd].
    intros E. apply app_eq_nil in E. destruct E as [_ E]. discriminate.
Qed.

Lemma word_valid_nonempty (variant_to_word : dict str str) (vs : list str) :
  forall d : dict str (list str),
    Forall (fun kv => snd kv <> []) d ->
    Forall (fun kv => snd kv <> [])
      (fold_left (fun d v =>
                    match dict_get v variant_to_word with
                    | Some src => dict_append src v d
                    | None => d
                    end) vs d).
Proof.
  induction vs as [|v vs IH]; intros d Hd; cbn [fold_left]; auto.
  apply IH. destruct (dict_get v variant_to_word); auto.
  apply dict_append_nonempty. exact Hd.
Qed.

(** ** Line numbers *)

Section LineFacts.
Context {U : Unicode}.

Lemma count_if_app {A} (p : A -> bool) (l1 l2 : list A) :
  count_if p (l1 ++ l2) = count_if p l1 + count_if p l2.
Proof. unfold count_if. rewrite filter_app. apply length_app. Qed.

Lemma blank_newlines (g0 g1 : str) :
  count_if (eqb nl) (_blank g0 g1) = count_if (eqb nl) g0.
Proof.
  unfold _blank. induction (count_if (eqb nl) g0) as [|n IH]; [reflexivity|].
  cbn [repeat]. unfold count_if in *. cbn [filter].
  change (eqb nl nl) with true. cbn [List.length]. rewrite IH. reflexivity.
Qed.

Lemma scan_blank_newlines (r : re) (s : str) :
  forall limit skip prev,
    count_if (eqb nl)
      (flat_map (fun p => match p with
                          | Keep c => [c]
                          | Hit g0 g1 => _blank g0 g1
                          end) (scan r limit skip prev s))
    = count_if (eqb nl) (skipn skip s).
Proof.
  induction s as [|c s IH]; intros limit skip prev.
  - destruct skip; cbn [scan skipn]; [|reflexivity].
    destruct (match limit with Some 0 => None | _ => match_at r prev [] end)
      as [[len g1]|]; [|reflexivity].
    cbn [flat_map]. rewrite app_nil_r, blank_newlines.
    destruct len; reflexivity.
  - destruct skip; cbn [scan skipn]; [|apply IH].
    destruct (match limit with Some 0 => None | _ => match_at r prev (c :: s) end)
      as [[len g1]|].
    + cbn [flat_map]. rewrite count_if_app, blank_newlines.
      destruct len as [|k].
      * cbn [flat_map firstn]. rewrite count_if_app, IH. cbn [skipn].
        change (c :: s) with ([c] ++ s). rewrite count_if_app. reflexivity.
      * rewrite IH. rewrite <- count_if_app.
        cbn [firstn app]. rewrite firstn_skipn. reflexivity.
    + cbn [flat_map]. rewrite count_if_app, IH. cbn [skipn].
      change (c :: s) with ([c] ++ s). rewrite count_if_app. reflexivity.
Qed.

(** The passes that replace a match by [_blank] keep every newline: these
    are the front matter, the two kinds of fenced blocks and the comments. *)
Lemma re_sub_blank_keeps_newlines (r : re) (limit : option nat) (s : str) :
  count_if (eqb nl) (re_sub r _blank limit s) = count_if (eqb nl) s.
Proof. unfold re_sub. apply scan_blank_newlines. Qed.

End LineFacts.

(** ** Runs *)

(** C2, on a file where a comment of three lines precedes the prose: the
    tag pass replaces the comment by one space before the comment pass can
    replace it by its newlines, two of the three newlines are lost, and the word of line 4
    is reported on line 2. *)
Theorem strip_non_prose_loses_lines :
  count_if (eqb nl) commented_text = 3
  /\ count_if (eqb nl) (strip_non_prose commented_text) = 1
  /\ nth 3 (splitlines commented_text) [] = u "Bu bir ornek metindir"
  /\ strip_non_prose commented_text
     = u " " ++ [nl] ++ u "Bu bir ornek metindir"
  /\ findings (fst (main commented_world []))
     = [Build_Finding (u "ornek") (u "örnek") [2] high 1].
Proof. vm_compute. repeat split; reflexivity. Qed.

(** C3, on the same file, dictionaries and replies of the checker: two
    processes that iterate the set of valid variants in different orders
    report different corrections for the same word. *)
Theorem layer2_tie_follows_set_order :
  findings (fst (main (tie_world slot_a) []))
  = [Build_Finding (u "kis") (u "kiş") [1] high 2]
  /\ findings (fst (main (tie_world slot_b) []))
     = [Build_Finding (u "kis") (u "kıs") [1] high 2]
  /\ findings (fst (main (tie_world slot_a) []))
     <> findings (fst (main (tie_world slot_b) [])).
Proof. vm_compute. repeat split; try reflexivity. discriminate. Qed.

(** C9, on a trigger for a file that is not UTF-8: reading the file raises
    an exception that nothing catches, and the run ends with status 1, the
    traceback on the error channel, nothing on standard output and no
    finding, before any call of the checker: a run without finding that
    does not end with status 0. *)
Theorem undecodable_file_ends_with_status_1 :
  let o := fst (main code_page_world []) in
  exit_code o = 1%Z
  /\ exit_code o <> 0%Z
  /\ findings o = []
  /\ stdout o = []
  /\ stderr o = Traceback UnicodeDecodeError
  /\ snd (main code_page_world []) = [].
Proof. vm_compute. repeat split; try reflexivity. discriminate. Qed.

(** The word "Hava" has none of the twelve letters. *)
Lemma no_finding_without_substitutable_letter_witness :
  existsb (fun c => mem c (u "cgiosuCGIOSU")) (u "Hava") = false
  /\ ~ In (u "Hava") (map word (findings (fst (main (tie_world slot_a) [])))).
Proof.
  split; [reflexivity|].
  apply (@no_finding_without_substitutable_letter latin_unicode
           (tie_world slot_a) [] (u "Hava")).
  reflexivity.
Defined.

(** * Further properties *)

(** ** Folding *)

Lemma fold_char_plain (c : char) :
  let f := match dict_get c DIACRITICS_MAP with Some a => a | None => c end in
  dict_mem f DIACRITICS_MAP = false
  /\ (dict_mem c DIACRITICS_MAP = false -> f = c).
Proof.
  unfold dict_mem, dict_get, DIACRITICS_MAP, eqb, N_Eqb.
  repeat match goal with
  | |- context [(c =? ?b)%N] =>
      destruct (N.eqb_spec c b);
      [subst; vm_compute; split; [reflexivity | discriminate]|]
  end.
  cbn zeta. split; [|reflexivity].
  repeat match goal with
  | H : c <> ?b |- context [(c =? ?b)%N] =>
      destruct (N.eqb_spec c b); [contradiction|]
  end.
  reflexivity.
Qed.

(** X1: folding keeps the length, leaves no diacritic, changes nothing when
    applied again, and is the identity on a text without diacritics. *)
Theorem ascii_fold_removes_diacritics (s : str) :
  List.length (ascii_fold s) = List.length s
  /\ count_diacritics (ascii_fold s) = 0
  /\ ascii_fold (ascii_fold s) = ascii_fold s
  /\ (count_diacritics s = 0 -> ascii_fold s = s).
Proof.
  unfold ascii_fold, count_diacritics.
  split; [apply length_map|].
  induction s as [|c s (IH1 & IH2 & IH3)]; [repeat split; reflexivity|].
  destruct (fold_char_plain c) as [Hf Hc]. cbn zeta in Hf, Hc.
  cbn [map filter]. rewrite Hf. split; [exact IH1|]. split.
  - f_equal; [|exact IH2].
    destruct (fold_char_plain
                (match dict_get c DIACRITICS_MAP with
                 | Some a => a
                 | None => c
                 end)) as [_ H2].
    apply H2. exact Hf.
  - destruct (dict_mem c DIACRITICS_MAP) eqn:E; cbn [List.length];
      [discriminate|].
    intros H0. f_equal; auto.
Qed.

(** ** The variants of a word *)

Lemma positions_options (word : str) :
  map snd (positions word) = map options word.
Proof.
  unfold positions, enumerate. generalize 0.
  induction word as [|c word IH]; intros k; [reflexivity|].
  cbn [List.length seq combine map]. rewrite IH. f_equal.
  unfold options. destruct (dict_get c SWAP_MAP); reflexivity.
Qed.

Lemma swap_pair (c a : char) (alts : list char) :
  dict_get c SWAP_MAP = Some (a :: alts) ->
  alts = [] /\ a <> c
  /\ dict_mem c DIACRITICS_MAP = false /\ dict_mem a DIACRITICS_MAP = true.
Proof.
  unfold SWAP_MAP, dict_get at 1, eqb, N_Eqb.
  repeat match goal with
  | |- context [(c =? ?b)%N] =>
      destruct (N.eqb_spec c b);
      [subst; intros E; injection E as <- <-; vm_compute;
       repeat split; try reflexivity; discriminate|]
  end.
  discriminate.
Qed.

Lemma options_spec (c o : char) :
  In o (options c) <-> o = c \/ dict_get c SWAP_MAP = Some [o].
Proof.
  unfold options. destruct (dict_get c SWAP_MAP) as [[|a alts]|] eqn:E.
  - apply SWAP_MAP_one_alternative in E. discriminate.
  - destruct (swap_pair c a alts E) as (-> & _). cbn [app In]. split.
    + intros [<-|[<-|[]]]; auto.
    + intros [->|H]; auto. injection H as ->. auto.
  - cbn [In]. split; [intros [<-|[]]; auto|].
    intros [->|H]; [auto|discriminate].
Qed.

Lemma options_NoDup (c : char) : NoDup (options c).
Proof.
  unfold options. destruct (dict_get c SWAP_MAP) as [[|a alts]|] eqn:E.
  - repeat constructor; intros [].
  - destruct (swap_pair c a alts E) as (-> & Hn & _). cbn [app].
    constructor; [intros [H|[]]; auto|]. repeat constructor; intros [].
  - repeat constructor; intros [].
Qed.

Lemma options_length (c : char) :
  List.length (options c) = if dict_mem c SWAP_MAP then 2 else 1.
Proof.
  unfold options, dict_mem. destruct (dict_get c SWAP_MAP) as [alts|] eqn:E;
    [|reflexivity].
  apply SWAP_MAP_one_alternative in E. rewrite length_app, E. reflexivity.
Qed.

Lemma product_In {A} (pools : list (list A)) :
  forall combo,
    In combo (product pools) <-> Forall2 (fun pool o => In o pool) pools combo.
Proof.
  induction pools as [|opts rest IH]; intros combo; cbn [product].
  - split.
    + intros [<-|[]]. constructor.
    + intros H. inversion H. left. reflexivity.
  - rewrite in_flat_map. split.
    + intros (o & Ho & Hc). apply in_map_iff in Hc.
      destruct Hc as (c1 & <- & Hc1). constructor; auto. apply IH. exact Hc1.
    + intros H. inversion H as [|? o ? c1 Ho Hc1]; subst.
      exists o. split; auto. apply in_map. apply IH. exact Hc1.
Qed.

Lemma product_NoDup {A} (pools : list (list A)) :
  Forall (@NoDup A) pools -> NoDup (product pools).
Proof.
  induction 1 as [|opts rest Ho Hr IH]; cbn [product].
  - repeat constructor. intros [].
  - induction Ho as [|o opts Hno Ho IHo]; cbn [flat_map]; [constructor|].
    apply NoDup_app; auto.
    + clear - IH. induction IH as [|c1 P Hc HP IHP]; cbn [map];
        constructor; auto.
      intros Hin. apply in_map_iff in Hin. destruct Hin as (c2 & E & Hc2).
      injection E as ->. contradiction.
    + intros combo H1 H2. apply in_map_iff in H1.
      destruct H1 as (c1 & <- & _). apply in_flat_map in H2.
      destruct H2 as (o2 & Ho2 & Hc). apply in_map_iff in Hc.
      destruct Hc as (c2 & E & _). injection E as -> _. contradiction.
Qed.

Lemma product_length (word : str) :
  List.length (product (map options word)) = 2 ^ substitutable word.
Proof.
  unfold substitutable, count_if.
  induction word as [|c word IH]; [reflexivity|].
  cbn [map product filter].
  assert (F : forall (opts : list char) (P : list (list char)),
    List.length (flat_map (fun o => map (cons o) P) opts)
    = List.length opts * List.length P).
  { intros opts P. induction opts as [|o opts IHo]; [reflexivity|].
    cbn [flat_map List.length]. rewrite length_app, length_map, IHo.
    rewrite Nat.mul_succ_l. apply Nat.add_comm. }
  rewrite F, IH, options_length.
  destruct (dict_mem c SWAP_MAP); cbn [List.length Nat.pow]; lia.
Qed.

Lemma diacritized_product (word v : str) :
  In v (product (map options word)) <-> diacritized word v.
Proof.
  etransitivity; [apply product_In|].
  unfold diacritized. revert v.
  induction word as [|c word IH]; intros v; cbn [map].
  - split; intros H; inversion H; constructor.
  - split; intros H; inversion H as [|? o ? v1 Ho Hv]; subst; constructor;
      try (apply options_spec; exact Ho); try (apply IH; exact Hv);
      try (apply options_spec in Ho; exact Ho).
Qed.

Lemma diacritized_refl (word : str) : diacritized word word.
Proof. induction word; constructor; auto. Qed.

Lemma diacritized_count (word v : str) :
  diacritized word v ->
  count_diacritics word <= count_diacritics v
  /\ (v <> word -> count_diacritics word < count_diacritics v).
Proof.
  unfold count_diacritics.
  induction 1 as [|c o word v Ho Hv [IH1 IH2]]; [split; [lia|congruence]|].
  cbn [filter]. destruct Ho as [->|Ho].
  - destruct (dict_mem c DIACRITICS_MAP); cbn [List.length]; split; try lia;
      intros Hne; assert (v <> word) by congruence;
      specialize (IH2 H); lia.
  - destruct (swap_pair c o [] Ho) as (_ & _ & -> & ->).
    cbn [List.length]. split; intros; lia.
Qed.

Lemma variants_loop_no_break (word : str) (word_dc : nat) (combos : list str) :
  forall variants count,
    count + List.length (filter (fun c => negb (eqb c word)) combos) <= 64 ->
    variants_loop word word_dc combos variants count
    = variants ++ filter (fun c => negb (eqb c word)
                                   && (word_dc <? count_diacritics c)) combos.
Proof.
  induction combos as [|c combos IH]; intros variants count Hle;
    cbn [variants_loop filter] in *.
  - symmetry. apply app_nil_r.
  - destruct (eqb c word); cbn [negb andb List.length] in *.
    + apply IH. exact Hle.
    + destruct (64 <? count + 1) eqn:E; [apply Nat.ltb_lt in E; lia|].
      destruct (word_dc <? count_diacritics c).
      * rewrite IH by lia. rewrite <- app_assoc. reflexivity.
      * apply IH. lia.
Qed.

Lemma filter_out_length (l : list str) (x : str) :
  NoDup l -> In x l ->
  List.length (filter (fun c => negb (eqb c x)) l) + 1 = List.length l.
Proof.
  induction 1 as [|y l Hy Hl IH]; intros Hin; [destruct Hin|].
  cbn [filter List.length]. destruct (eqb y x) eqn:E; cbn [negb].
  - apply eqb_eq in E. subst y.
    rewrite (forallb_filter_id _ l); [lia|].
    apply forallb_forall. intros z Hz. apply negb_true_iff. apply eqb_neq.
    intros ->. contradiction.
  - apply eqb_neq in E. destruct Hin as [->|Hin]; [contradiction|].
    cbn [List.length]. rewrite <- (IH Hin). lia.
Qed.

Lemma others_of_product (word : str) :
  let others := filter (fun c => negb (eqb c word))
                       (product (map options word)) in
  (forall v, In v others <-> diacritized word v /\ v <> word)
  /\ NoDup others
  /\ List.length others = 2 ^ substitutable word - 1.
Proof.
  cbn zeta. split; [|split].
  - intros v. rewrite filter_In, diacritized_product, negb_true_iff, eqb_neq.
    tauto.
  - apply NoDup_filter. apply product_NoDup.
    apply Forall_forall. intros p Hp. apply in_map_iff in Hp.
    destruct Hp as (c & <- & _). apply options_NoDup.
  - pose proof (filter_out_length (product (map options word)) word) as H.
    rewrite product_length in H. rewrite <- H; [lia| |].
    + apply product_NoDup. apply Forall_forall. intros p Hp.
      apply in_map_iff in Hp. destruct Hp as (c & <- & _).
      apply options_NoDup.
    + apply diacritized_product. apply diacritized_refl.
Qed.

Lemma generate_variants_others (word : str) :
  substitutable word <= 6 ->
  generate_variants word
  = filter (fun c => negb (eqb c word)) (product (map options word)).
Proof.
  intros Hk. destruct (others_of_product word) as (Hin & Hnd & Hlen).
  cbn zeta in *.
  destruct (Nat.eq_dec (substitutable word) 0) as [H0|H0].
  - rewrite generate_variants_without_letter by exact H0.
    rewrite H0 in Hlen. cbn in Hlen.
    destruct (filter _ _); [reflexivity|discriminate].
  - unfold generate_variants.
    assert (Ex : existsb (fun c => dict_mem c SWAP_MAP) word = true).
    { destruct (existsb _ word) eqn:E; auto.
      apply existsb_count_if in E. contradiction. }
    unfold char in *. rewrite Ex. cbn [negb].
    unfold positions, enumerate. rewrite swappable_positions.
    destruct (6 <? substitutable word) eqn:E6;
      [apply Nat.ltb_lt in E6; lia|].
    fold (enumerate word). fold (positions word).
    rewrite positions_options, variants_loop_no_break.
    + cbn [app]. apply filter_ext_in. intros v Hv.
      destruct (eqb v word) eqn:E; cbn [negb andb]; [reflexivity|].
      apply eqb_neq in E. apply diacritized_product in Hv.
      apply diacritized_count in Hv. destruct Hv as [_ Hv].
      apply Nat.ltb_lt. auto.
    + assert (H64 : 2 ^ substitutable word <= 2 ^ 6)
        by (apply Nat.pow_le_mono_r; lia).
      change (2 ^ 6) with 64 in H64. cbn [Nat.add].
      unfold str, char in *. rewrite Hlen. lia.
Qed.

(** X2: for a word with at most 6 substitutable letters, the variants are
    exactly the other ways of putting a diacritic on some of its
    substitutable letters, each once: 2^k - 1 of them for k such letters,
    so that the limit of 64 is never reached. *)
Theorem generate_variants_exact (word : str) :
  substitutable word <= 6 ->
  (forall v, In v (generate_variants word)
             <-> diacritized word v /\ v <> word)
  /\ NoDup (generate_variants word)
  /\ List.length (generate_variants word) = 2 ^ substitutable word - 1.
Proof.
  intros Hk. rewrite generate_variants_others by exact Hk.
  apply others_of_product.
Qed.

Lemma generate_variants_exact_witness :
  substitutable (u "kis") <= 6
  /\ List.length (generate_variants (u "kis")) = 2 ^ substitutable (u "kis") - 1.
Proof.
  assert (H : substitutable (u "kis") <= 6) by (vm_compute; lia).
  split; [exact H|]. apply (generate_variants_exact (u "kis") H).
Defined.

Lemma diacritized_fold (word v : str) :
  diacritized word v ->
  ascii_fold v = ascii_fold word /\ List.length v = List.length word.
Proof.
  unfold ascii_fold.
  induction 1 as [|c o word v Ho Hv [IH1 IH2]]; [split; reflexivity|].
  cbn [map List.length]. split; [|lia]. rewrite IH1. f_equal.
  destruct Ho as [->|Ho]; [reflexivity|].
  revert Ho. unfold SWAP_MAP, dict_get at 1, eqb, N_Eqb.
  repeat match goal with
  | |- context [(c =? ?b)%N] =>
      destruct (N.eqb_spec c b);
      [subst; intros E; injection E as <-; reflexivity|]
  end.
  discriminate.
Qed.

Lemma variants_loop_subset (word : str) (word_dc : nat) (combos : list str) :
  forall variants count v,
    In v (variants_loop word word_dc combos variants count) ->
    In v variants \/ In v combos.
Proof.
  induction combos as [|c combos IH]; intros variants count v H;
    cbn [variants_loop] in H; auto.
  destruct (eqb c word).
  - apply IH in H. destruct H; auto. right. right. assumption.
  - destruct (64 <? count + 1); auto.
    destruct (word_dc <? count_diacritics c); apply IH in H.
    + destruct H as [H|H]; [|right; right; exact H].
      apply in_app_or in H. destruct H as [H|[<-|[]]]; auto.
      right. left. reflexivity.
    + destruct H; auto. right. right. assumption.
Qed.

(** X3: whatever the word, a variant has the length of the word and the
    same ASCII folding: it differs from the word by diacritics only. *)
Theorem variants_differ_by_diacritics_only (word v : str) :
  In v (generate_variants word) ->
  diacritized word v
  /\ ascii_fold v = ascii_fold word
  /\ List.length v = List.length word.
Proof.
  intros H.
  assert (D : diacritized word v).
  { unfold generate_variants in H.
    destruct (negb (existsb _ word)); [destruct H|]. cbn zeta in H.
    destruct (6 <? _); [destruct H|].
    apply variants_loop_subset in H. destruct H as [[]|H].
    rewrite positions_options in H. apply diacritized_product. exact H. }
  split; [exact D|]. apply diacritized_fold. exact D.
Qed.

Lemma variants_differ_by_diacritics_only_witness :
  In (u "kış") (generate_variants (u "kis"))
  /\ ascii_fold (u "kış") = ascii_fold (u "kis").
Proof.
  assert (H : In (u "kış") (generate_variants (u "kis")))
    by (vm_compute; tauto).
  split; [exact H|].
  apply (variants_differ_by_diacritics_only (u "kis") (u "kış") H).
Defined.

(** ** Identifier-shaped words, exactly *)

Lemma runs_complete (p : char -> bool) (t : str) :
  forall prev rest g1,
    Forall (fun c => p c = true) t ->
    exists st,
      nth_error (runs p None prev (t ++ rest) g1) (List.length t) = Some st
      /\ m_rest st = rest /\ m_g1 st = g1.
Proof.
  induction t as [|c t IH]; intros prev rest g1 Ht.
  - cbn [app List.length]. destruct rest; cbn [runs nth_error]; eauto.
  - inversion Ht as [|? ? Hc Ht1]; subst.
    cbn [app List.length runs pred_hi nth_error]. rewrite Hc. apply IH. exact Ht1.
Qed.

Section Complete.
Context {U : Unicode}.

Lemma mt_complete (r : re) :
  plain r ->
  forall t st rest,
    lang r t -> m_rest st = t ++ rest ->
    exists st1, In st1 (mt r st) /\ m_rest st1 = rest /\ m_g1 st1 = m_g1 st.
Proof.
  induction r as [|p|greedy lo hi p|a IHa b IHb|a IHa b IHb|ml| | |a IHa];
    intros Hp t st rest Hl Hs; cbn [plain lang mt] in *; try contradiction.
  - subst t. exists st. split; [left; reflexivity|]. split; auto.
  - destruct Hl as (c & -> & Hc). rewrite Hs. cbn [app]. rewrite Hc.
    eexists. split; [left; reflexivity|]. split; reflexivity.
  - subst hi. destruct Hl as [Ht Hlo].
    destruct (runs_complete p t (m_prev st) rest (m_g1 st) Ht)
      as (st1 & Hn & Hr & Hg).
    exists st1. rewrite Hs. split; [|auto].
    assert (Hin : In st1 (skipn lo (runs p None (m_prev st) (t ++ rest)
                                      (m_g1 st)))).
    { apply nth_error_In with (n := List.length t - lo).
      rewrite nth_error_skipn. replace (lo + (List.length t - lo))
        with (List.length t) by lia. exact Hn. }
    destruct greedy; [apply in_rev; rewrite rev_involutive|]; exact Hin.
  - destruct Hp as [Hpa Hpb]. destruct Hl as (x & y & -> & Hx & Hy).
    rewrite <- app_assoc in Hs.
    destruct (IHa Hpa x st (y ++ rest) Hx Hs) as (st0 & H0 & R0 & G0).
    destruct (IHb Hpb y st0 rest Hy R0) as (st1 & H1 & R1 & G1).
    exists st1. split; [|split; [auto|congruence]].
    apply in_flat_map. eauto.
  - destruct Hp as [Hpa Hpb]. destruct Hl as [Hl|Hl].
    + destruct (IHa Hpa t st rest Hl Hs) as (st1 & H1 & R1).
      exists st1. split; auto. apply in_or_app. auto.
    + destruct (IHb Hpb t st rest Hl Hs) as (st1 & H1 & R1).
      exists st1. split; auto. apply in_or_app. auto.
Qed.

Lemma fullmatch_plain (r : re) (s : str) :
  plain r -> (fullmatch r s = true <-> lang r s).
Proof.
  intros Hp. split; [apply fullmatch_lang|].
  intros Hl. unfold fullmatch. apply existsb_exists.
  destruct (mt_complete r Hp s
              {| m_prev := None; m_rest := s; m_g1 := [] |} [] Hl)
    as (st1 & H1 & R1 & _); [cbn; symmetry; apply app_nil_r|].
  exists st1. split; auto. rewrite R1. reflexivity.
Qed.

Lemma upper_is_letter (c : char) :
  ascii_upper c = true -> ascii_letter c = true.
Proof.
  unfold ascii_letter, ascii_upper, either. intros ->. apply orb_true_r.
Qed.

Lemma letter_not_diacritic (c : char) :
  ascii_letter c = true \/ c = ch "_" \/ c = ch "-" ->
  dict_mem c DIACRITICS_MAP = false.
Proof.
  unfold ascii_letter, either, in_range. eval_lits.
  rewrite !orb_true_iff, !andb_true_iff, !N.leb_le. intros H.
  unfold dict_mem, dict_get, DIACRITICS_MAP, eqb, N_Eqb.
  repeat match goal with
  | |- context [(c =? ?b)%N] => destruct (N.eqb_spec c b); [exfalso; lia|]
  end.
  reflexivity.
Qed.

Lemma lang_camel (t : str) :
  lang re_camel t <->
  exists a c b,
    t = a ++ c :: b /\ a <> [] /\ Forall (fun x => ascii_letter x = true) a
    /\ ascii_upper c = true /\ Forall (fun x => ascii_letter x = true) b.
Proof.
  unfold re_camel, cats, plus, star. cbn [fold_right lang]. split.
  - intros (a & y & -> & [Ha La] & x1 & y1 & -> & (c & -> & Hc)
            & b & y2 & -> & [Hb _] & ->).
    exists a, c, b. rewrite app_nil_r. repeat split; auto.
    intros ->. cbn in La. lia.
  - intros (a & c & b & -> & Hne & Ha & Hc & Hb).
    exists a, (c :: b). repeat split; auto.
    + destruct a; [contradiction|cbn; lia].
    + exists [c], b. repeat split; eauto.
      exists b, []. rewrite app_nil_r. repeat split; auto. lia.
Qed.

Lemma lang_separated (m : char) (t : str) :
  lang (cats [plus ascii_letter; lit [m];
              plus (either ascii_letter (one_of [m]))]) t ->
  Forall (fun x => ascii_letter x = true \/ x = m) t
  /\ In m t /\ 3 <= List.length t.
Proof.
  unfold cats, lit, plus. cbn [map fold_right lang].
  intros (a & y & -> & [Ha La] & x1 & y1 & -> & Hm & b & y2 & -> & [Hb Lb] & ->).
  destruct Hm as (x2 & y3 & -> & (c & -> & Hc) & ->).
  apply (proj1 (eqb_eq m c)) in Hc. subst c.
  rewrite !app_nil_r. cbn [app]. repeat split.
  - apply Forall_app. split; [eapply Forall_impl; [|exact Ha]; auto|].
    constructor; auto. eapply Forall_impl; [|exact Hb].
    intros x Hx. unfold either, one_of, mem in Hx. cbn [existsb] in Hx.
    rewrite orb_false_r in Hx. apply orb_true_iff in Hx.
    destruct Hx as [Hx|Hx]; auto. right. apply eqb_eq. exact Hx.
  - apply in_or_app. right. left. reflexivity.
  - rewrite length_app. cbn [List.length]. lia.
Qed.

Lemma lang_caps (t : str) :
  lang re_caps t <->
  Forall (fun x => ascii_upper x = true) t /\ 2 <= List.length t.
Proof. unfold re_caps. cbn [lang]. tauto. Qed.

Lemma plain_RE_IDENTIFIER : plain RE_IDENTIFIER.
Proof. cbn. tauto. Qed.

(** X4: an identifier-shaped word has at least two characters, all of them
    ASCII letters, underscores or hyphens, one of them an upper-case letter,
    an underscore or a hyphen: a word with a diacritic, or all in lower-case
    letters, is never identifier-shaped. *)
Theorem identifier_shape (word : str) :
  is_identifier word = true ->
  2 <= List.length word
  /\ Forall (fun c => ascii_letter c = true \/ c = ch "_" \/ c = ch "-") word
  /\ (exists c, In c word
                 /\ (ascii_upper c = true \/ c = ch "_" \/ c = ch "-"))
  /\ count_diacritics word = 0.
Proof.
  intros H. apply fullmatch_lang in H.
  assert (G : 2 <= List.length word
    /\ Forall (fun c => ascii_letter c = true \/ c = ch "_" \/ c = ch "-") word
    /\ (exists c, In c word
                  /\ (ascii_upper c = true \/ c = ch "_" \/ c = ch "-"))).
  { unfold RE_IDENTIFIER in H. cbn [lang] in H.
    destruct H as [H|[H|[H|H]]].
    - apply lang_camel in H. destruct H as (a & c & b & -> & Hne & Ha & Hc & Hb).
      split; [|split].
      + rewrite length_app. destruct a; [contradiction|cbn; lia].
      + apply Forall_app. split; [eapply Forall_impl; [|exact Ha]; auto|].
        constructor; [left; apply upper_is_letter; exact Hc|].
        eapply Forall_impl; [|exact Hb]; auto.
      + exists c. split; auto. apply in_or_app. right. left. reflexivity.
    - apply (lang_separated (ch "_")) in H. destruct H as (Hf & Hin & Hl).
      split; [lia|]. split.
      + eapply Forall_impl; [|exact Hf]. intros x [Hx|Hx]; auto.
      + exists (ch "_"). auto.
    - apply lang_caps in H. destruct H as [Hf Hl]. split; [exact Hl|]. split.
      + eapply Forall_impl; [|exact Hf]. intros x Hx. left.
        apply upper_is_letter. exact Hx.
      + destruct word as [|c word]; [cbn in Hl; lia|].
        exists c. split; [left; reflexivity|]. left.
        inversion Hf; auto.
    - apply (lang_separated (ch "-")) in H. destruct H as (Hf & Hin & Hl).
      split; [lia|]. split.
      + eapply Forall_impl; [|exact Hf]. intros x [Hx|Hx]; auto.
      + exists (ch "-"). auto. }
  destruct G as (G1 & G2 & G3). repeat split; auto.
  unfold count_diacritics. clear - G2.
  induction G2 as [|c word Hc Hw IH]; [reflexivity|].
  cbn [filter]. rewrite (letter_not_diacritic c Hc). exact IH.
Qed.

(** X5: a word of ASCII letters is identifier-shaped exactly when one of
    its letters after the first is in upper case: capitals such as NATO and
    mixed case such as iPhone are, a capitalised or lower-case word is not. *)
Theorem identifier_among_letters (word : str) :
  Forall (fun c => ascii_letter c = true) word ->
  (is_identifier word = true
   <-> exists x rest,
         word = x :: rest /\ exists c, In c rest /\ ascii_upper c = true).
Proof.
  intros Hw.
  assert (Hno : forall m, ascii_letter m = false -> ~ In m word).
  { intros m Hm Hin. rewrite Forall_forall in Hw. apply Hw in Hin.
    rewrite Hin in Hm. discriminate. }
  split.
  - intros H. apply fullmatch_lang in H. unfold RE_IDENTIFIER in H.
    cbn [lang] in H. destruct H as [H|[H|[H|H]]].
    + apply lang_camel in H. destruct H as (a & c & b & -> & Hne & Ha & Hc & Hb).
      destruct a as [|x a]; [contradiction|].
      exists x, (a ++ c :: b). split; [reflexivity|].
      exists c. split; auto. apply in_or_app. right. left. reflexivity.
    + apply (lang_separated (ch "_")) in H. destruct H as (_ & Hin & _).
      exfalso. revert Hin. apply Hno. reflexivity.
    + apply lang_caps in H. destruct H as [Hf Hl].
      destruct word as [|x [|y rest]]; cbn in Hl; try lia.
      exists x, (y :: rest). split; [reflexivity|].
      exists y. split; [left; reflexivity|].
      inversion Hf as [|? ? _ Hf1]; subst. inversion Hf1; auto.
    + apply (lang_separated (ch "-")) in H. destruct H as (_ & Hin & _).
      exfalso. revert Hin. apply Hno. reflexivity.
  - intros (x & rest & -> & c & Hin & Hc).
    apply (fullmatch_plain RE_IDENTIFIER _ plain_RE_IDENTIFIER).
    unfold RE_IDENTIFIER. cbn [lang]. left. apply lang_camel.
    apply in_split in Hin. destruct Hin as (l1 & l2 & ->).
    exists (x :: l1), c, l2. inversion Hw as [|? ? Hx Hr]; subst.
    apply Forall_app in Hr. destruct Hr as [H1 H2].
    inversion H2; subst. repeat split; auto. discriminate.
Qed.

End Complete.

Lemma identifier_among_letters_witness :
  Forall (fun c => ascii_letter c = true) (u "iPhone")
  /\ is_identifier (u "iPhone") = true.
Proof.
  assert (H : Forall (fun c => ascii_letter c = true) (u "iPhone"))
    by (vm_compute; repeat constructor).
  split; [exact H|].
  apply (@identifier_among_letters latin_unicode (u "iPhone") H).
  exists (ch "i"), (u "Phone"). split; [reflexivity|].
  exists (ch "P"). split; [left; reflexivity | reflexivity].
Defined.

Lemma identifier_shape_witness :
  is_identifier (u "NATO") = true /\ count_diacritics (u "NATO") = 0.
Proof.
  assert (H : is_identifier (u "NATO") = true) by reflexivity.
  split; [exact H|]. apply (@identifier_shape latin_unicode (u "NATO") H).
Defined.

(** ** The ambiguity lookup *)

Lemma startswith_prefix (s w : str) :
  startswith s w = true <-> exists t, s = w ++ t.
Proof.
  revert s. induction w as [|y w IH]; intros s.
  - split; [exists s; reflexivity | destruct s; reflexivity].
  - destruct s as [|x s]; cbn [startswith].
    + split; [discriminate | intros (t & H); discriminate].
    + rewrite andb_true_iff, IH. split.
      * intros [E (t & ->)]. apply eqb_eq in E. subst. exists t. reflexivity.
      * intros (t & H). injection H as -> ->. split; [apply eqb_refl|eauto].
Qed.

Section Layer3.
Context {U : Unicode}.

(** X6: Layer 3 proposes a correction exactly when the lower-case word has
    an entry in the lookup table, is not in the whitelist, is not a
    whitelisted stem of at least 5 characters followed by at most 5 more,
    and is not in the skip list; the correction is the entry. *)
Theorem layer3_ambiguity_spec (word : str) (amb_lookup : dict str str)
    (amb_skip whitelist : list str) (c : str) :
  layer3_ambiguity word amb_lookup amb_skip whitelist = Some c
  <-> dict_get (lower word) amb_lookup = Some c
      /\ ~ In (lower word) whitelist
      /\ ~ In (lower word) amb_skip
      /\ (forall stem t,
            In stem whitelist -> 5 <= List.length stem ->
            lower word = stem ++ t -> 5 < List.length t).
Proof.
  unfold layer3_ambiguity.
  assert (Stem :
    existsb (fun w => startswith (lower word) w
                      && (Z.of_nat (List.length (lower word))
                          - Z.of_nat (List.length w) <=? 5)%Z)
            (filter (fun w => 5 <=? List.length w) whitelist) = false
    <-> forall stem t,
          In stem whitelist -> 5 <= List.length stem ->
          lower word = stem ++ t -> 5 < List.length t).
  { split.
    - intros H stem t Hin Hlen E.
      destruct (Nat.lt_ge_cases 5 (List.length t)) as [|Ht]; auto.
      exfalso.
      assert (X : existsb (fun w => startswith (lower word) w
                      && (Z.of_nat (List.length (lower word))
                          - Z.of_nat (List.length w) <=? 5)%Z)
            (filter (fun w => 5 <=? List.length w) whitelist) = true).
      { apply existsb_exists. exists stem. split.
        - apply filter_In. split; auto. apply Nat.leb_le. exact Hlen.
        - apply andb_true_iff. split.
          + apply startswith_prefix. eauto.
          + apply Z.leb_le. rewrite E, length_app. lia. }
      rewrite X in H. discriminate.
    - intros H. destruct (existsb _ _) eqn:E; auto.
      apply existsb_exists in E. destruct E as (stem & Hin & Hc).
      apply filter_In in Hin. destruct Hin as [Hin Hlen].
      apply Nat.leb_le in Hlen. apply andb_true_iff in Hc.
      destruct Hc as [Hp Hz]. apply startswith_prefix in Hp.
      destruct Hp as (t & Ht). apply Z.leb_le in Hz.
      specialize (H stem t Hin Hlen Ht). rewrite Ht, length_app in Hz. lia. }
  destruct (mem (lower word) whitelist) eqn:Hw; cbn [orb].
  - apply mem_In in Hw. split; [discriminate | tauto].
  - apply mem_notIn in Hw. destruct (existsb _ _) eqn:Hs.
    + split; [discriminate|]. intros (_ & _ & _ & H).
      apply Stem in H. discriminate.
    + destruct (mem (lower word) amb_skip) eqn:Hk.
      * apply mem_In in Hk. split; [discriminate | tauto].
      * apply mem_notIn in Hk. unfold dict_mem.
        destruct (dict_get (lower word) amb_lookup) as [v|] eqn:Hg.
        -- split; [intros ->|intros (-> & _)]; auto.
           repeat split; auto. apply Stem. reflexivity.
        -- split; [discriminate | intros (? & _); discriminate].
Qed.

End Layer3.

(** ** The two calls of the checker *)

Lemma dedup_NoDup (l : list str) : NoDup (dedup l).
Proof.
  induction l as [|x l IH]; cbn [dedup]; constructor.
  - intros H. apply filter_In in H. destruct H as [_ H].
    rewrite eqb_refl in H. discriminate.
  - apply NoDup_filter. exact IH.
Qed.

Lemma dedup_In_iff (l : list str) (v : str) : In v (dedup l) <-> In v l.
Proof.
  split; [apply dedup_In|].
  induction l as [|x l IH]; cbn [dedup In]; auto.
  intros [->|H]; auto.
  destruct (eqb x v) eqn:E; [apply eqb_eq in E; auto|].
  right. apply filter_In. split; auto. rewrite E. reflexivity.
Qed.

(** X7: the valid words are the words asked that the checker did not
    print, each once; when the checker is missing or times out there is
    none. *)
Theorem hunspell_batch_valid_spec (w : World) (words : list str)
    (log : list call) :
  let valid := fst (hunspell_batch_valid w words log) in
  NoDup valid
  /\ (forall v, In v valid
                <-> In v words
                    /\ hunspell_found w = true
                    /\ exists printed,
                         hunspell_l w (join [nl] words) = Some printed
                         /\ ~ In v printed)
  /\ (hunspell_found w = false \/ hunspell_l w (join [nl] words) = None ->
      valid = []).
Proof.
  cbn zeta. unfold hunspell_batch_valid, bind, run_l, ret.
  destruct words as [|x words]; cbn [fst].
  - split; [constructor|]. split; auto.
    intros v. split; [intros [] | intros [[] _]].
  - destruct (hunspell_found w).
    + destruct (hunspell_l w (join [nl] (x :: words))) as [printed|];
        cbn [fst].
      * split; [apply NoDup_filter, dedup_NoDup|].
        split; [|intros [H|H]; discriminate].
        intros v. rewrite filter_In, dedup_In_iff, negb_true_iff. split.
        -- intros [H1 H2]. split; auto. split; auto. exists printed.
           split; auto. apply mem_notIn. exact H2.
        -- intros (H1 & _ & p & E & H2). injection E as <-. split; auto.
           apply mem_notIn. exact H2.
      * split; [constructor|]. split; auto.
        intros v.
        split; [intros [] | intros (_ & _ & p & E & _); discriminate].
    + cbn [fst]. split; [constructor|]. split; auto.
      intros v. split; [intros [] | intros (_ & E & _); discriminate].
Qed.












(** ** The lines of the word index *)

Lemma dict_append_In {V} (k k1 : str) (x : V) (l : list V)
    (d : dict str (list V)) :
  In (k, l) (dict_append k1 x d) ->
  In (k, l) d \/ (k = k1 /\ (l = [x] \/ exists l0, In (k, l0) d /\ l = l0 ++ [x])).
Proof.
  induction d as [|[k2 l2] d IH]; cbn [dict_append In].
  - intros [H|[]]. injection H as <- <-. auto.
  - destruct (eqb k1 k2) eqn:E; cbn [In].
    + apply eqb_eq in E. subst k2. intros [H|H]; auto.
      injection H as <- <-. right. split; auto. right. eauto.
    + intros [H|H]; auto. apply IH in H.
      destruct H as [H|(-> & [->|(l0 & H0 & ->)])]; auto.
      right. split; auto. right. eauto.
Qed.

Lemma dict_append_NoDup {V} (k1 : str) (x : V) (d : dict str (list V)) :
  NoDup (dict_keys d) -> NoDup (dict_keys (dict_append k1 x d)).
Proof.
  unfold dict_keys. induction d as [|[k2 l2] d IH]; cbn [dict_append map fst].
  - intros _. repeat constructor. intros [].
  - intros H. inversion H as [|? ? Hk Hd]; subst.
    destruct (eqb k1 k2) eqn:E; cbn [map fst]; [constructor; auto|].
    constructor; auto. intros Hin.
    apply (dict_append_keys k2 k1 x d) in Hin. destruct Hin as [->|Hin]; auto.
    rewrite eqb_refl in E. discriminate.
Qed.

Lemma sorted_snoc (l : list nat) (n : nat) :
  StronglySorted le l -> Forall (fun x => x <= n) l ->
  StronglySorted le (l ++ [n]).
Proof.
  induction 1 as [|x l Hs IH Hx]; intros Hn; cbn [app].
  - repeat constructor.
  - inversion Hn; subst. constructor; auto.
    apply Forall_app. split; auto.
Qed.

Section Index.
Context {U : Unicode}.

Lemma index_words_within (lo n : nat) (words : list str) :
  lo <= n ->
  forall d, lines_within lo (S n) d ->
    lines_within lo (S n)
      (fold_left (fun d word =>
                    if List.length word <? 2 then d
                    else dict_append word n d) words d).
Proof.
  intros Hlo. induction words as [|x words IH]; intros d Hd; cbn [fold_left];
    auto.
  apply IH. destruct (List.length x <? 2); auto.
  destruct Hd as [Hk Hl]. split; [apply dict_append_NoDup; exact Hk|].
  intros k l Hin. apply dict_append_In in Hin.
  destruct Hin as [Hin|(-> & [->|(l0 & H0 & ->)])].
  - exact (Hl k l Hin).
  - split; [discriminate|].
    split; [repeat constructor; lia | repeat constructor].
  - destruct (Hl x l0 H0) as (Hne & Hr & Hs). split; [|split].
    + destruct l0; discriminate.
    + apply Forall_app. split; auto.
    + apply sorted_snoc; auto. eapply Forall_impl; [|exact Hr].
      cbn. intros; lia.
Qed.

Lemma lines_within_weaken (lo hi hi1 : nat) d :
  hi <= hi1 -> lines_within lo hi d -> lines_within lo hi1 d.
Proof.
  intros Hle [Hk Hl]. split; auto. intros k l Hin.
  destruct (Hl k l Hin) as (Hne & Hr & Hs). repeat split; auto.
  eapply Forall_impl; [|exact Hr]. cbn. intros; lia.
Qed.

Lemma index_lines_within (lo : nat) (ls : list str) :
  forall s d, lo <= s -> lines_within lo s d ->
    lines_within lo (s + List.length ls)
      (fold_left index_line (combine (seq s (List.length ls)) ls) d).
Proof.
  induction ls as [|line ls IH]; intros s d Hlo Hd;
    cbn [List.length seq combine fold_left].
  - rewrite Nat.add_0_r. exact Hd.
  - replace (s + S (List.length ls)) with (S s + List.length ls) by lia.
    apply IH; [lia|]. unfold index_line.
    apply index_words_within; auto.
    eapply lines_within_weaken; [|exact Hd]. lia.
Qed.

Lemma NoDup_keys_get {V} (k : str) (v : V) (d : dict str V) :
  NoDup (dict_keys d) -> In (k, v) d -> dict_get k d = Some v.
Proof.
  unfold dict_keys. induction d as [|[k1 v1] d IH]; cbn [map fst dict_get In];
    [intros _ []|].
  intros Hn [H|H].
  - injection H as -> ->. rewrite eqb_refl. reflexivity.
  - inversion Hn as [|? ? Hk Hd]; subst.
    destruct (eqb k k1) eqn:E; [|auto].
    apply eqb_eq in E. subst k1. exfalso. apply Hk.
    apply in_map_iff. exists (k, v). auto.
Qed.

(** X9: in the word index every word occurs once as a key, with at least
    one line number; its line numbers are between 1 and the number of lines
    of the prose and never decrease. *)
Theorem word_index_lines (prose : str) :
  NoDup (dict_keys (layer0 prose))
  /\ forall k, In k (dict_keys (layer0 prose)) ->
       exists l,
         dict_get k (layer0 prose) = Some l
         /\ l <> []
         /\ Forall (fun n => 1 <= n <= List.length (splitlines prose)) l
         /\ StronglySorted le l.
Proof.
  assert (H : lines_within 1 (1 + List.length (splitlines prose))
                (layer0 prose)).
  { unfold layer0. apply index_lines_within; [lia|].
    split; [constructor | intros k l []]. }
  destruct H as [Hk Hl]. split; [exact Hk|].
  intros k Hin. apply in_map_iff in Hin. destruct Hin as ([k1 l] & E & Hin).
  cbn [fst] in E. subst k1. exists l.
  destruct (Hl k l Hin) as (Hne & Hr & Hs).
  split; [apply NoDup_keys_get; auto|]. repeat split; auto.
  eapply Forall_impl; [|exact Hr]. cbn. intros; lia.
Qed.

End Index.

Lemma word_index_lines_witness :
  In (u "kis") (dict_keys (layer0 (u "Hava kis gibi")))
  /\ exists l, dict_get (u "kis") (layer0 (u "Hava kis gibi")) = Some l
               /\ l <> [].
Proof.
  assert (H : In (u "kis") (dict_keys (layer0 (u "Hava kis gibi"))))
    by (vm_compute; tauto).
  split; [exact H|].
  destruct (proj2 (@word_index_lines latin_unicode (u "Hava kis gibi"))
                  (u "kis") H)
    as (l & Hl & Hne & _).
  exists l. split; assumption.
Defined.

(** ** The text given to the checker *)

Lemma splitlines_from_line (w rest cur : str) :
  Forall (fun c => is_linebreak c = false) w ->
  splitlines_from cur false (w ++ nl :: rest)
  = (rev cur ++ w) :: splitlines_from [] false rest.
Proof.
  revert cur. induction w as [|c w IH]; intros cur Hw; cbn [app splitlines_from].
  - cbn [andb]. change (is_linebreak nl) with true. cbv iota.
    change (eqb nl 13%N) with false. rewrite app_nil_r. reflexivity.
  - inversion Hw as [|? ? Hc Hw1]; subst. cbn [andb]. rewrite Hc.
    rewrite IH by exact Hw1. cbn [rev]. rewrite <- app_assoc. reflexivity.
Qed.

Lemma splitlines_from_last (w cur : str) :
  Forall (fun c => is_linebreak c = false) w -> rev cur ++ w <> [] ->
  splitlines_from cur false w = [rev cur ++ w].
Proof.
  revert cur. induction w as [|c w IH]; intros cur Hw Hne; cbn [splitlines_from].
  - rewrite app_nil_r in *. destruct cur; [contradiction|reflexivity].
  - inversion Hw as [|? ? Hc Hw1]; subst. cbn [andb]. rewrite Hc.
    rewrite IH; auto; cbn [rev]; rewrite <- app_assoc; auto.
Qed.

Lemma splitlines_join (l : list str) :
  Forall (fun w => w <> [] /\ Forall (fun c => is_linebreak c = false) w) l ->
  splitlines (join [nl] l) = l.
Proof.
  unfold splitlines. induction 1 as [|w l [Hne Hw] Hl IH]; [reflexivity|].
  cbn [join]. destruct l as [|w1 l].
  - rewrite splitlines_from_last; auto.
  - cbn [app]. rewrite splitlines_from_line by exact Hw. cbn [rev app].
    f_equal. exact IH.
Qed.

Lemma letter_not_linebreak (c : char) :
  is_letter c = true -> is_linebreak c = false.
Proof.
  unfold is_letter, either, in_range, one_of, mem. eval_lits.
  cbn [existsb]. unfold eqb, N_Eqb. intros H.
  rewrite !orb_true_iff, !andb_true_iff, !N.leb_le, !N.eqb_eq in H.
  assert (Hlo : (65 <= c)%N) by lia.
  assert (Hhi : (c <= 351)%N) by lia.
  assert (Hne : c <> 133%N) by lia.
  clear H. unfold is_linebreak.
  rewrite (proj2 (N.leb_gt c 13)) by lia.
  rewrite (proj2 (N.leb_gt c 30)) by lia.
  rewrite (proj2 (N.eqb_neq c 133)) by exact Hne.
  rewrite (proj2 (N.eqb_neq c 8232)) by lia.
  rewrite (proj2 (N.eqb_neq c 8233)) by lia.
  rewrite !andb_false_r. reflexivity.
Qed.

(** X10: the text given to the first call of the checker has one indexed
    word on each line: split into lines, it is the sorted list of the
    distinct words. *)
Theorem checker_input_one_word_per_line {U : Unicode} (prose : str) :
  splitlines (join [nl] (sorted (dict_keys (layer0 prose))))
  = sorted (dict_keys (layer0 prose)).
Proof.
  apply splitlines_join. apply Forall_forall. intros k Hk.
  apply (Permutation_in k (sort_by_perm str_leb _)) in Hk.
  apply layer0_keys in Hk. destruct Hk as (line & Hin & Hlen).
  apply re_findall_lang, re_word_letters in Hin. split.
  - intros ->. cbn in Hlen. lia.
  - eapply Forall_impl; [|exact Hin]. apply letter_not_linebreak.
Qed.

(** ** The passes of the text stripping *)

Lemma runs_g1 (p : char -> bool) (s : str) :
  forall hi prev g1 st, In st (runs p hi prev s g1) -> m_g1 st = g1.
Proof.
  induction s as [|c s IH]; intros hi prev g1 st Hin; cbn [runs] in Hin.
  - destruct hi as [[|n]|]; destruct Hin as [<-|[]]; reflexivity.
  - destruct Hin as [<-|Hin]; [reflexivity|].
    destruct hi as [[|n]|]; [destruct Hin| |];
      (destruct (p c); [eapply IH; exact Hin | destruct Hin]).
Qed.

Lemma In_skipn {A} (n : nat) (l : list A) (x : A) :
  In x (skipn n l) -> In x l.
Proof.
  intros H. rewrite <- (firstn_skipn n l). apply in_or_app. right. exact H.
Qed.

Section StripFacts.
Context {U : Unicode}.

(** Group 1 is either what it was or a part of what has been matched. *)
Lemma mt_g1_part (r : re) :
  forall st st1, In st1 (mt r st) ->
    exists t, m_rest st = t ++ m_rest st1
      /\ (m_g1 st1 = m_g1 st \/ exists a b, t = a ++ m_g1 st1 ++ b).
Proof.
  induction r as [|p|greedy lo hi p|a IHa b IHb|a IHa b IHb|ml| | |a IHa];
    intros st st1 Hin.
  - cbn [mt] in Hin. destruct Hin as [<-|[]]. exists []. auto.
  - cbn [mt] in Hin. destruct (m_rest st) as [|c s1] eqn:E; [destruct Hin|].
    destruct (p c); [|destruct Hin]. destruct Hin as [<-|[]].
    exists [c]. cbn. auto.
  - destruct (mt_sound (Rep greedy lo hi p) st st1 Hin) as (t & Ht & _).
    exists t. split; auto. left. cbn [mt] in Hin.
    assert (Hin1 : In st1 (skipn lo (runs p hi (m_prev st) (m_rest st)
                                       (m_g1 st)))).
    { destruct greedy; [apply in_rev|]; exact Hin. }
    apply In_skipn in Hin1. eapply runs_g1. exact Hin1.
  - cbn [mt] in Hin. apply in_flat_map in Hin. destruct Hin as (st0 & H0 & H1).
    apply IHa in H0. apply IHb in H1.
    destruct H0 as (x & Hx & Gx). destruct H1 as (y & Hy & Gy).
    exists (x ++ y). split; [rewrite Hx, Hy; apply app_assoc|].
    destruct Gy as [Gy|(a1 & b1 & Gy)].
    + destruct Gx as [Gx|(a0 & b0 & Gx)].
      * left. congruence.
      * right. exists a0, (b0 ++ y). rewrite Gy, Gx.
        rewrite <- !app_assoc. reflexivity.
    + right. exists (x ++ a1), b1. rewrite Gy.
      rewrite <- !app_assoc. reflexivity.
  - cbn [mt] in Hin. apply in_app_or in Hin.
    destruct Hin as [H|H]; [apply IHa in H | apply IHb in H]; exact H.
  - cbn [mt] in Hin. destruct (m_prev st) as [c|].
    + destruct (ml && eqb c nl); [|destruct Hin].
      destruct Hin as [<-|[]]. exists []; auto.
    + destruct Hin as [<-|[]]. exists []; auto.
  - cbn [mt] in Hin. destruct (m_rest st) as [|c s1] eqn:E.
    + destruct Hin as [<-|[]]. exists []; rewrite E; auto.
    + destruct (eqb c nl); [|destruct Hin].
      destruct Hin as [<-|[]]. exists []; rewrite E; auto.
  - cbn [mt] in Hin. destruct (xorb _ _); [|destruct Hin].
    destruct Hin as [<-|[]]. exists []; auto.
  - cbn [mt] in Hin. apply in_map_iff in Hin.
    destruct Hin as (st0 & <- & H0).
    apply IHa in H0. destruct H0 as (t & Ht & _).
    exists t. cbn [m_rest m_g1]. split; [exact Ht|].
    right. exists [], []. rewrite Ht at 1 2.
    rewrite length_app, Nat.add_sub, firstn_app, firstn_all, Nat.sub_diag.
    cbn [firstn app]. rewrite !app_nil_r. reflexivity.
Qed.

Lemma match_at_g1_part (r : re) (prev : option char) (s : str) (len : nat)
    (g1 : str) :
  match_at r prev s = Some (len, g1) ->
  g1 = [] \/ exists a b, firstn len s = a ++ g1 ++ b.
Proof.
  unfold match_at.
  destruct (mt r _) as [|st l] eqn:E; [discriminate|].
  intros H. injection H as <- <-.
  assert (Hin : In st (mt r {| m_prev := prev; m_rest := s; m_g1 := [] |}))
    by (rewrite E; left; reflexivity).
  apply mt_g1_part in Hin. destruct Hin as (t & Ht & G). cbn [m_rest m_g1] in *.
  destruct G as [G|(a & b & G)]; [left; exact G|].
  right. exists a, b. rewrite Ht at 1 2.
  rewrite length_app, Nat.add_sub, firstn_app, firstn_all, Nat.sub_diag.
  cbn [firstn]. rewrite app_nil_r. exact G.
Qed.

Lemma shrinks_blank (r : re) : shrinks r _blank.
Proof. intros prev s len g1 _. rewrite blank_newlines. apply Nat.le_refl. Qed.

Lemma shrinks_space (r : re) : shrinks r space.
Proof. intros prev s len g1 _. apply Nat.le_0_l. Qed.

Lemma shrinks_nothing (r : re) : shrinks r nothing.
Proof. intros prev s len g1 _. apply Nat.le_0_l. Qed.

Lemma shrinks_group1 (r : re) : shrinks r group1.
Proof.
  intros prev s len g1 H. unfold group1.
  apply match_at_g1_part in H. destruct H as [->|(a & b & ->)].
  - apply Nat.le_0_l.
  - rewrite !count_if_app. lia.
Qed.

Lemma scan_shrinks (r : re) (repl : str -> str -> str) (s : str) :
  shrinks r repl ->
  forall limit skip prev,
    count_if (eqb nl)
      (flat_map (fun p => match p with
                          | Keep c => [c]
                          | Hit g0 g1 => repl g0 g1
                          end) (scan r limit skip prev s))
    <= count_if (eqb nl) (skipn skip s).
Proof.
  intros Hr. induction s as [|c s IH]; intros limit skip prev.
  - destruct skip; cbn [scan skipn]; [|apply Nat.le_refl].
    destruct (match limit with Some 0 => None | _ => match_at r prev [] end)
      as [[len g1]|] eqn:E; [|apply Nat.le_refl].
    cbn [flat_map]. rewrite app_nil_r.
    assert (E1 : match_at r prev [] = Some (len, g1))
      by (destruct limit as [[|n]|]; try discriminate; exact E).
    apply Hr in E1. destruct len; exact E1.
  - destruct skip; cbn [scan skipn]; [|apply IH].
    destruct (match limit with Some 0 => None | _ => match_at r prev (c :: s) end)
      as [[len g1]|] eqn:E.
    + assert (E1 : match_at r prev (c :: s) = Some (len, g1))
        by (destruct limit as [[|n]|]; try discriminate; exact E).
      apply Hr in E1.
      cbn [flat_map]. rewrite count_if_app.
      destruct len as [|k].
      * cbn [flat_map firstn] in *. rewrite count_if_app.
        specialize (IH (spend limit) 0 (Some c)). cbn [skipn] in IH.
        change (c :: s) with ([c] ++ s). rewrite count_if_app.
        change (count_if (eqb nl) []) with 0 in E1. lia.
      * specialize (IH (spend limit) k (Some c)).
        rewrite <- (firstn_skipn (S k) (c :: s)) at 2.
        rewrite count_if_app. cbn [skipn]. lia.
    + cbn [flat_map]. rewrite count_if_app.
      specialize (IH limit 0 (Some c)). cbn [skipn] in IH.
      change (c :: s) with ([c] ++ s). rewrite (count_if_app _ [c] s). lia.
Qed.

Lemma re_sub_shrinks (r : re) (repl : str -> str -> str)
    (limit : option nat) (s : str) :
  shrinks r repl ->
  count_if (eqb nl) (re_sub r repl limit s) <= count_if (eqb nl) s.
Proof. intros H. unfold re_sub. apply (scan_shrinks r repl s H limit 0 None). Qed.

(** X11: the stripped text never has more newlines than the file: no pass
    replaces a match by a text with more newlines than the match. *)
Theorem strip_non_prose_adds_no_newline (text : str) :
  count_if (eqb nl) (strip_non_prose text) <= count_if (eqb nl) text.
Proof.
  unfold strip_non_prose. cbv zeta.
  repeat (eapply Nat.le_trans;
          [apply re_sub_shrinks;
           first [apply shrinks_blank | apply shrinks_space
                 | apply shrinks_nothing | apply shrinks_group1]|]).
  apply Nat.le_refl.
Qed.

(** A star or an underscore always starts a match of the emphasis pattern
    that is not empty. *)
Lemma emphasis_matches (prev : option char) (c : char) (s : str) :
  c = ch "*" \/ c = ch "_" ->
  exists k g, match_at re_emphasis prev (c :: s) = Some (S k, g).
Proof.
  assert (Hne : forall p hi pr s0 g, runs p hi pr s0 g <> []).
  { intros p hi pr s0 g. destruct s0; cbn [runs]; discriminate. }
  assert (Hhead : forall (l tl : list mstate),
             (forall st, In st l -> exists t, s = t ++ m_rest st) ->
             l <> [] ->
             exists k g,
               match rev l ++ tl with
               | st :: _ => Some (List.length (c :: s) - List.length (m_rest st),
                                  m_g1 st)
               | [] => @None (nat * str)
               end = Some (S k, g)).
  { intros l tl Hl Hn. destruct (rev l) as [|st l'] eqn:E.
    - apply (f_equal (@rev mstate)) in E. rewrite rev_involutive in E.
      contradiction.
    - assert (Hin : In st l) by (apply in_rev; rewrite E; left; reflexivity).
      destruct (Hl st Hin) as (t & Ht).
      exists (List.length t), (m_g1 st). cbn [app]. f_equal. f_equal.
      rewrite Ht at 1. cbn [List.length]. rewrite length_app. lia. }
  assert (Hruns : forall p hi pr g st,
             In st (runs p hi pr s g) -> exists t, s = t ++ m_rest st).
  { intros p hi pr g st Hin.
    destruct (runs_skipn p s 0 hi pr g st Hin) as (t & Ht & _).
    exists t. exact Ht. }
  intros [->| ->]; unfold match_at, re_emphasis; cbn [mt m_rest m_prev m_g1 runs].
  - change (one_of (u "*") (ch "*")) with true. cbn [skipn pred_hi Nat.pred].
    apply Hhead; [apply Hruns | apply Hne].
  - change (one_of (u "*") (ch "_")) with false. cbn [skipn rev app].
    change (one_of (u "_") (ch "_")) with true. cbn [skipn pred_hi Nat.pred].
    rewrite <- (app_nil_r (rev _)).
    apply Hhead; [apply Hruns | apply Hne].
Qed.

Lemma scan_keeps (r : re) (s : str) :
  forall skip prev c,
    In (Keep c) (scan r None skip prev s) ->
    exists prev1 s1,
      match_at r prev1 (c :: s1) = None
      \/ exists g, match_at r prev1 (c :: s1) = Some (0, g).
Proof.
  induction s as [|c0 s IH]; intros skip prev c Hin.
  - destruct skip; cbn [scan] in Hin; [|destruct Hin].
    destruct (match_at r prev []) as [[len g]|]; [|destruct Hin].
    destruct Hin as [H|[]]. discriminate.
  - destruct skip; cbn [scan] in Hin; [|eapply IH; exact Hin].
    destruct (match_at r prev (c0 :: s)) as [[len g]|] eqn:E.
    + destruct Hin as [H|Hin]; [discriminate|].
      destruct len as [|k].
      * destruct Hin as [H|Hin]; [|eapply IH; exact Hin].
        injection H as <-. exists prev, s. right. exists g. exact E.
      * eapply IH; exact Hin.
    + destruct Hin as [H|Hin]; [|eapply IH; exact Hin].
      injection H as <-. exists prev, s. left. exact E.
Qed.

(** X12: the stripped text holds no star and no underscore: the last pass
    removes every one of them. *)
Theorem strip_non_prose_leaves_no_emphasis_mark (text : str) :
  ~ In (ch "*") (strip_non_prose text) /\ ~ In (ch "_") (strip_non_prose text).
Proof.
  assert (H : forall c s, c = ch "*" \/ c = ch "_" ->
                ~ In c (re_sub re_emphasis nothing None s)).
  { intros c s Hc Hin. unfold re_sub in Hin. apply in_flat_map in Hin.
    destruct Hin as ([c1|g0 g1] & Hp & Hin); [|destruct Hin].
    destruct Hin as [<-|[]].
    apply scan_keeps in Hp. destruct Hp as (prev1 & s1 & Hm).
    destruct (emphasis_matches prev1 c1 s1 Hc) as (k & g & Hk).
    rewrite Hk in Hm. destruct Hm as [Hm|(g' & Hm)]; discriminate. }
  unfold strip_non_prose. cbv zeta. split; apply H; auto.
Qed.

End StripFacts.

(** ** What every finding satisfies *)

Lemma variants_loop_others (word : str) (word_dc : nat) (combos : list str) :
  forall variants count v,
    In v (variants_loop word word_dc combos variants count) ->
    In v variants
    \/ (In v combos /\ v <> word /\ word_dc < count_diacritics v).
Proof.
  induction combos as [|c combos IH]; intros variants count v H;
    cbn [variants_loop] in H; auto.
  destruct (eqb c word) eqn:Ec.
  - apply IH in H. destruct H as [H|(H1 & H2)]; auto.
    right. split; [right; exact H1 | exact H2].
  - apply eqb_neq in Ec. destruct (64 <? count + 1); auto.
    destruct (word_dc <? count_diacritics c) eqn:Ed; apply IH in H.
    + destruct H as [H|(H1 & H2)]; [|right; split; [right; exact H1|exact H2]].
      apply in_app_or in H. destruct H as [H|[<-|[]]]; auto.
      right. apply Nat.ltb_lt in Ed. repeat split; auto. left. reflexivity.
    + destruct H as [H|(H1 & H2)]; auto.
      right. split; [right; exact H1 | exact H2].
Qed.

Lemma generate_variants_other (word v : str) :
  In v (generate_variants word) ->
  v <> word /\ diacritized word v
  /\ count_diacritics word < count_diacritics v.
Proof.
  intros H. unfold generate_variants in H.
  destruct (negb (existsb _ word)); [destruct H|]. cbn zeta in H.
  destruct (6 <? _); [destruct H|].
  apply variants_loop_others in H. destruct H as [[]|(H1 & H2 & H3)].
  rewrite positions_options in H1. apply diacritized_product in H1. auto.
Qed.

Lemma min_by_In {A} (key : A -> nat) (l : list A) :
  forall best, In (min_by key best l) (best :: l).
Proof.
  induction l as [|x l IH]; intros best; cbn [min_by]; [left; reflexivity|].
  destruct (key x <? key best).
  - right. apply IH.
  - destruct (IH best) as [H|H]; [left; exact H | right; right; exact H].
Qed.

Lemma batch_valid_result (w : World) (words : list str) (log : list call) :
  fst (hunspell_batch_valid w words log) = fst (hunspell_batch_valid w words []).
Proof.
  unfold hunspell_batch_valid, bind, run_l, ret.
  destruct words as [|x words]; [reflexivity|].
  destruct (hunspell_found w); [|reflexivity].
  destruct (hunspell_l w (join [nl] (x :: words))); reflexivity.
Qed.

Lemma batch_valid_accepted (w : World) (words : list str) (log : list call)
    (v : str) :
  In v (fst (hunspell_batch_valid w words log)) ->
  exists reply,
    hunspell_l w (join [nl] words) = Some reply /\ ~ In v reply.
Proof.
  unfold hunspell_batch_valid, bind, run_l, ret.
  destruct words as [|x words]; cbn [fst]; [intros []|].
  destruct (hunspell_found w); [|intros []].
  destruct (hunspell_l w (join [nl] (x :: words))) as [reply|]; cbn [fst];
    [|intros []].
  intros H. apply filter_In in H. destruct H as [_ H].
  apply negb_true_iff in H. apply mem_notIn in H. exists reply. auto.
Qed.

Lemma variant_to_word_inner_from (k : str) (vs : list str) :
  forall (d : dict str str) v src,
    In (v, src) (fold_left (fun d v => dict_set v k d) vs d) ->
    In (v, src) d \/ (src = k /\ In v vs).
Proof.
  induction vs as [|v1 vs IH]; intros d v src H; cbn [fold_left] in H; auto.
  apply IH in H. destruct H as [H|[H1 H2]].
  - apply dict_set_In in H. destruct H as [[-> ->]|H]; auto.
    right. split; [reflexivity | left; reflexivity].
  - right. split; [exact H1 | right; exact H2].
Qed.

Lemma variant_to_word_from (cands : dict str (list str)) :
  forall (d : dict str str) v src,
    In (v, src)
       (fold_left (fun d item =>
                     fold_left (fun d v => dict_set v (fst item) d)
                               (snd item) d) cands d) ->
    In (v, src) d \/ exists vs, In (src, vs) cands /\ In v vs.
Proof.
  induction cands as [|[k vs] cands IH]; intros d v src H;
    cbn [fold_left] in H; auto.
  apply IH in H. destruct H as [H|(vs1 & H1 & H2)].
  - apply variant_to_word_inner_from in H. cbn [fst snd] in H.
    destruct H as [H|[-> H]]; auto.
    right. exists vs. split; [left; reflexivity | exact H].
  - right. exists vs1. split; [right; exact H1 | exact H2].
Qed.

Lemma word_valid_entries (R : str -> str -> Prop)
    (variant_to_word : dict str str) (vs : list str) :
  (forall v k, In v vs -> dict_get v variant_to_word = Some k -> R k v) ->
  forall d : dict str (list str),
    (forall k l v, In (k, l) d -> In v l -> R k v) ->
    forall k l v,
      In (k, l) (fold_left (fun d v =>
                              match dict_get v variant_to_word with
                              | Some src => dict_append src v d
                              | None => d
                              end) vs d) ->
      In v l -> R k v.
Proof.
  induction vs as [|v1 vs IH]; intros Hvs d Hd k l v H Hv;
    cbn [fold_left] in H; [eapply Hd; eauto|].
  revert H Hv. apply IH.
  - intros v0 k0 H0. apply Hvs. right. exact H0.
  - clear k l v. intros k l v H Hv.
    destruct (dict_get v1 variant_to_word) as [src|] eqn:E;
      [|eapply Hd; eauto].
    apply dict_append_In in H.
    destruct H as [H|(-> & [->|(l0 & H0 & ->)])].
    + eapply Hd; eauto.
    + destruct Hv as [<-|[]]. apply Hvs; [left; reflexivity | exact E].
    + apply in_app_or in Hv. destruct Hv as [Hv|[<-|[]]].
      * eapply Hd; eauto.
      * apply Hvs; [left; reflexivity | exact E].
Qed.

Lemma layer3_not_whitelisted {U : Unicode} (wd : str)
    (amb_lookup : dict str str) (amb_skip whitelist : list str) (c : str) :
  layer3_ambiguity wd amb_lookup amb_skip whitelist = Some c ->
  ~ In (lower wd) whitelist.
Proof.
  unfold layer3_ambiguity.
  destruct (mem (lower wd) whitelist) eqn:E; cbn [orb]; [discriminate|].
  intros _. apply mem_notIn. exact E.
Qed.

Section Soundness.
Context {U : Unicode}.
Variable w : World.
Variable word_locations : dict str (list nat).
Variable misspellings : dict str (list str).

Lemma pass1_step_sound (P : Finding -> Prop) (st : Acc)
    (item : str * list str) :
  In item misspellings ->
  (forall e, filtered w e -> by_layer1 word_locations misspellings e -> P e) ->
  Forall P (errors st) ->
  Forall (candidate_ok w misspellings) (layer2_candidates st) ->
  Forall P (errors (pass1_step w word_locations st item))
  /\ Forall (candidate_ok w misspellings)
            (layer2_candidates (pass1_step w word_locations st item)).
Proof.
  intros Hin HP He Hc. destruct item as [wd suggestions]. unfold pass1_step.
  destruct (mem (lower wd) (seen_lower st)); cbn [orb]; [auto|].
  destruct (List.length wd <? 3) eqn:Hlen; [auto|].
  destruct (is_identifier wd) eqn:Hid; cbn [orb]; [auto|].
  destruct (mem (lower wd) (whitelist w)) eqn:Hwl; [auto|].
  apply Nat.ltb_ge in Hlen. apply mem_notIn in Hwl.
  assert (Later : truthy (layer1_suggestion wd suggestions) = false ->
    Forall (candidate_ok w misspellings)
      (layer2_candidates
         match generate_variants wd with
         | [] => st
         | _ :: _ =>
             {| errors := errors st; seen_lower := seen_lower st;
                layer2_candidates :=
                  dict_set wd (generate_variants wd) (layer2_candidates st) |}
         end)).
  { intros Ht. destruct (generate_variants wd) as [|v1 vs] eqn:Ev; [exact Hc|].
    cbn [layer2_candidates]. apply Forall_forall. intros [k v] Hkv.
    apply dict_set_In in Hkv. destruct Hkv as [[-> ->]|Hkv].
    - unfold candidate_ok. cbn [fst snd]. repeat split; auto.
      exists suggestions. auto.
    - rewrite Forall_forall in Hc. apply Hc. exact Hkv. }
  destruct (layer1_suggestion wd suggestions) as [[|c s]|] eqn:E;
    cbn [truthy some_or_empty].
  - split; [|apply Later; reflexivity].
    destruct (generate_variants wd); exact He.
  - split; [|exact Hc]. cbn [claim errors].
    apply Forall_app. split; [exact He|]. constructor; [|constructor].
    apply HP.
    + unfold filtered. cbn [word correction]. repeat split; auto.
      * discriminate.
      * intros Heq. apply layer1_found in E.
        destruct E as (_ & _ & _ & (_ & Hq & _) & _).
        apply Hq. rewrite Heq. reflexivity.
    + unfold by_layer1. cbn [word correction layer confidence lines].
      repeat split; auto. exists suggestions. auto.
  - split; [|apply Later; reflexivity].
    destruct (generate_variants wd); exact He.
Qed.

Lemma pass1_sound (P : Finding -> Prop) (items : dict str (list str)) :
  incl items misspellings ->
  (forall e, filtered w e -> by_layer1 word_locations misspellings e -> P e) ->
  forall st,
    Forall P (errors st) ->
    Forall (candidate_ok w misspellings) (layer2_candidates st) ->
    Forall P (errors (fold_left (pass1_step w word_locations) items st))
    /\ Forall (candidate_ok w misspellings)
              (layer2_candidates
                 (fold_left (pass1_step w word_locations) items st)).
Proof.
  intros Hincl HP.
  induction items as [|item items IH]; intros st He Hc; cbn [fold_left];
    [auto|].
  destruct (pass1_step_sound P st item) as [He1 Hc1]; auto.
  { apply Hincl. left. reflexivity. }
  apply IH; auto. intros x Hx. apply Hincl. right. exact Hx.
Qed.

Lemma layer2_steps_sound (P : Finding -> Prop) (R : str -> str -> Prop)
    (items : dict str (list str)) :
  (forall k v, R k v -> P (Build_Finding k v (get_lines word_locations k)
                                         high 2)) ->
  (forall k l v, In (k, l) items -> In v l -> R k v) ->
  forall st,
    Forall P (errors st) ->
    Forall P (errors (fold_left (layer2_step word_locations) items st)).
Proof.
  intros HP. induction items as [|[wd valid_list] items IH];
    intros HR st He; cbn [fold_left]; [exact He|].
  apply IH.
  - intros k l v Hin. apply HR. right. exact Hin.
  - unfold layer2_step.
    destruct (mem (lower wd) (seen_lower st)); [exact He|].
    destruct valid_list as [|v vs]; [exact He|].
    cbn [claim errors]. apply Forall_app. split; [exact He|].
    constructor; [|constructor]. apply HP.
    apply (HR wd (v :: vs)); [left; reflexivity | apply min_by_In].
Qed.

Lemma layer2_sound (P : Finding -> Prop) (st : Acc) (log : list call) :
  (forall e,
     filtered w e ->
     by_layer2_valid w word_locations misspellings
       (fst (hunspell_batch_valid w (flat_map snd (layer2_candidates st)) []))
       e ->
     P e) ->
  Forall (candidate_ok w misspellings) (layer2_candidates st) ->
  Forall P (errors st) ->
  Forall P (errors (fst (layer2 w word_locations st log))).
Proof.
  intros HP Hc He. unfold layer2.
  destruct (layer2_candidates st) as [|c0 cands] eqn:Ec; [exact He|].
  unfold bind.
  pose proof (batch_valid_result w (flat_map snd (c0 :: cands)) log) as Hv.
  destruct (hunspell_batch_valid w (flat_map snd (c0 :: cands)) log)
    as [valid_variants log1].
  cbn [fst] in Hv. unfold ret. cbn [fst].
  apply (layer2_steps_sound P
           (fun k v => In v valid_variants
                       /\ exists vs, In (k, vs) (c0 :: cands) /\ In v vs));
    [| |exact He].
  - intros k v (Hvalid & vs & Hk & Hvs).
    rewrite Forall_forall in Hc.
    destruct (Hc (k, vs) Hk) as (Hlen & Hid & Hwl & Hgen & Hleft).
    cbn [fst snd] in *. subst vs.
    destruct (generate_variants_other k v Hvs) as (Hne & Hd & _).
    apply HP.
    + unfold filtered. cbn [word correction]. repeat split; auto.
      intros ->. apply diacritized_fold in Hd. destruct Hd as [_ Hd].
      cbn [List.length] in Hd. lia.
    + unfold by_layer2_valid. cbn [word correction layer confidence lines].
      rewrite <- Hv. repeat split; auto.
  - apply word_valid_entries.
    + intros v k Hin Hget. split.
      * eapply Permutation_in; [apply set_iter_permutation | exact Hin].
      * apply dict_get_In in Hget. apply variant_to_word_from in Hget.
        destruct Hget as [[]|Hget]. exact Hget.
    + intros k l v [].
Qed.

Lemma pass2_sound (P : Finding -> Prop) (all : list str) (words : list str) :
  (forall e, filtered w e ->
             by_layer3 w word_locations misspellings e ->
             In (word e) all -> P e) ->
  incl words all ->
  forall st n,
    Forall P (errors st) ->
    Forall P (errors (pass2_loop w word_locations misspellings words st n)).
Proof.
  intros HP. induction words as [|wd words IH]; intros Hincl st n He;
    cbn [pass2_loop]; [exact He|].
  assert (Hincl1 : incl words all)
    by (intros x Hx; apply Hincl; right; exact Hx).
  destruct (mem (lower wd) (seen_lower st)); [apply IH; auto|].
  destruct (is_identifier wd) eqn:Hid; cbn [orb]; [apply IH; auto|].
  destruct (List.length wd <? 3) eqn:Hlen; [apply IH; auto|].
  destruct (existsb (fun c => dict_mem c SWAP_MAP) wd) eqn:Hsw;
    cbn [negb]; [|apply IH; auto].
  destruct (dict_mem wd misspellings) eqn:Hms; [apply IH; auto|].
  destruct (layer3_ambiguity wd (amb_lookup w) (amb_skip w) (whitelist w))
    as [[|c s]|] eqn:E3; cbn [truthy some_or_empty andb];
    [apply IH; auto| |apply IH; auto].
  destruct (eqb (lower (c :: s)) (lower wd)) eqn:Eq; cbn [negb];
    [apply IH; auto|].
  apply eqb_neq in Eq. apply Nat.ltb_ge in Hlen.
  assert (He1 : Forall P (errors (claim word_locations st wd (c :: s)
                                        medium 3))).
  { cbn [claim errors]. apply Forall_app. split; [exact He|].
    constructor; [|constructor]. apply HP.
    - unfold filtered. cbn [word correction]. repeat split; auto.
      + eapply layer3_not_whitelisted. exact E3.
      + discriminate.
      + intros Heq. apply Eq. rewrite Heq. reflexivity.
    - unfold by_layer3. cbn [word correction layer confidence lines].
      repeat split; auto.
      intros H0. apply existsb_count_if in H0.
      unfold char in *. rewrite H0 in Hsw. discriminate.
    - cbn [word]. apply Hincl. left. reflexivity. }
  destruct (LAYER3_BRAKE <=? n + 1); [exact He1|].
  apply IH; auto.
Qed.

End Soundness.

Section Findings.
Context {U : Unicode}.

Lemma detect_sound (w : World) (content : str)
    (misspellings : dict str (list str)) (log : list call) :
  Forall (sound w content misspellings)
         (fst (detect w content misspellings log)).
Proof.
  rewrite detect_unfold. cbn zeta. cbn [fst].
  set (wl := layer0 (strip_non_prose content)).
  set (ms := misspellings).
  destruct (pass1_sound w wl ms (sound w content ms) ms (incl_refl ms))
    with (st := {| errors := []; seen_lower := []; layer2_candidates := [] |})
    as [He1 Hc1].
  { intros e Hf H1. split; [exact Hf | left; exact H1]. }
  { constructor. }
  { constructor. }
  fold (pass1 w content ms) in He1, Hc1.
  apply (pass2_sound w wl ms (sound w content ms) (sorted (dict_keys wl))).
  - intros e Hf H3 Hin. split; [exact Hf|]. right. right. split; [exact H3|].
    eapply Permutation_in; [apply sort_by_perm | exact Hin].
  - apply incl_refl.
  - apply (layer2_sound w wl ms); auto.
    intros e Hf H2. split; [exact Hf|]. right. left. exact H2.
Qed.

Lemma layer0_lines_within (prose : str) :
  lines_within 1 (1 + List.length (splitlines prose)) (layer0 prose).
Proof.
  unfold layer0. apply index_lines_within; [lia|].
  split; [constructor | intros k l []].
Qed.

(** X13: every finding of a run is for a word of at least 3 characters that
    is not identifier-shaped and whose lower-case form is not whitelisted,
    and proposes a correction that is not empty and is not the word. *)
Theorem every_finding_is_filtered (w : World) (log : list call)
    (e : Finding) :
  In e (findings (fst (main w log))) ->
  3 <= List.length (word e)
  /\ is_identifier (word e) = false
  /\ ~ In (lower (word e)) (whitelist w)
  /\ correction e <> []
  /\ correction e <> word e.
Proof.
  intros Hin.
  destruct (main_findings w log) as [E|(content & ms & log1 & E)];
    rewrite E in Hin; [destruct Hin|].
  pose proof (detect_sound w content ms log1) as H.
  rewrite Forall_forall in H. destruct (H e Hin) as [Hf _]. exact Hf.
Qed.

(** X14: the correction of a Layer 2 finding is one of the generated
    variants of the word: the word with a diacritic put on some of its
    letters, of the same ASCII folding, with more diacritics; the checker
    flagged the word, Layer 1 found no suggestion for it, and the second run
    of the checker did not print the correction. *)
Theorem layer2_correction_is_accepted_variant (w : World) (content : str)
    (misspellings : dict str (list str)) (log : list call) (e : Finding) :
  let all_variants :=
    flat_map snd (layer2_candidates (pass1 w content misspellings)) in
  In e (fst (detect w content misspellings log)) -> layer e = 2 ->
  In (correction e) (generate_variants (word e))
  /\ diacritized (word e) (correction e)
  /\ ascii_fold (correction e) = ascii_fold (word e)
  /\ count_diacritics (word e) < count_diacritics (correction e)
  /\ (exists suggestions,
        In (word e, suggestions) misspellings
        /\ truthy (layer1_suggestion (word e) suggestions) = false)
  /\ (exists reply,
        hunspell_l w (join [nl] all_variants) = Some reply
        /\ ~ In (correction e) reply).
Proof.
  cbn zeta. intros Hin Hl.
  pose proof (detect_sound w content misspellings log) as H.
  rewrite Forall_forall in H. destruct (H e Hin) as [_ [H1|[H2|[H3 _]]]].
  - destruct H1 as (H1 & _). congruence.
  - destruct H2 as (_ & _ & _ & Hleft & Hgen & Hvalid).
    destruct (generate_variants_other _ _ Hgen) as (_ & Hd & Hc).
    split; [exact Hgen|]. split; [exact Hd|].
    split; [apply diacritized_fold; exact Hd|]. split; [exact Hc|].
    split; [exact Hleft|]. eapply batch_valid_accepted. exact Hvalid.
  - destruct H3 as (H3 & _). congruence.
Qed.

(** X15: the line numbers of a finding are line numbers of the prose, in
    increasing order; a Layer 3 finding is for a word of the index and has
    at least one line number. *)
Theorem findings_carry_lines_of_the_prose (w : World) (content : str)
    (misspellings : dict str (list str)) (log : list call) (e : Finding) :
  let prose := strip_non_prose content in
  In e (fst (detect w content misspellings log)) ->
  Forall (fun n => 1 <= n <= List.length (splitlines prose)) (lines e)
  /\ StronglySorted le (lines e)
  /\ (layer e = 3 -> In (word e) (dict_keys (layer0 prose)) /\ lines e <> []).
Proof.
  cbn zeta. intros Hin.
  pose proof (detect_sound w content misspellings log) as H.
  rewrite Forall_forall in H. destruct (H e Hin) as [_ Hs]. cbn zeta in Hs.
  destruct (layer0_lines_within (strip_non_prose content)) as [Hk Hl].
  assert (Hlines : lines e = get_lines (layer0 (strip_non_prose content))
                                       (word e)).
  { destruct Hs as [H1|[H2|[H3 _]]]; [apply H1 | apply H2 | apply H3]. }
  assert (Hget : forall l,
            dict_get (word e) (layer0 (strip_non_prose content)) = Some l ->
            l <> []
            /\ Forall (fun n => 1 <= n
                                <= List.length
                                     (splitlines (strip_non_prose content))) l
            /\ StronglySorted le l).
  { intros l Hg. apply dict_get_In in Hg.
    destruct (Hl _ _ Hg) as (Hne & Hr & Hso).
    split; [exact Hne|]. split; [|exact Hso].
    eapply Forall_impl; [|exact Hr]. intros n Hn. cbv beta in *. lia. }
  rewrite Hlines. unfold get_lines.
  destruct (dict_get (word e) (layer0 (strip_non_prose content)))
    as [l|] eqn:Hg.
  - destruct (Hget l eq_refl) as (Hne & Hr & Hso).
    split; [exact Hr|]. split; [exact Hso|]. intros Hl3.
    split; [|exact Hne].
    destruct Hs as [H1|[H2|[_ H3]]]; [| |exact H3];
      [destruct H1 as (H1 & _) | destruct H2 as (H2 & _)]; congruence.
  - split; [constructor|]. split; [constructor|]. intros Hl3.
    destruct Hs as [H1|[H2|[_ H3]]];
      [destruct H1 as (H1 & _); congruence
      |destruct H2 as (H2 & _); congruence|].
    exfalso. apply in_map_iff in H3. destruct H3 as ([k l] & Ek & Hkl).
    cbn [fst] in Ek. subst k.
    apply (NoDup_keys_get _ _ _ Hk) in Hkl. congruence.
Qed.

(** X16: the findings of high confidence are those of Layers 1 and 2 and
    come before those of medium confidence, which are those of Layer 3: the
    two groups of the report, one after the other, are the list of findings
    in the order in which they were found. *)
Theorem report_groups_keep_the_order (w : World) (content : str)
    (misspellings : dict str (list str)) (log : list call) :
  let fs := fst (detect w content misspellings log) in
  filter is_high fs ++ filter is_medium fs = fs
  /\ Forall (fun e => layer e <> 3) (filter is_high fs)
  /\ Forall (fun e => layer e = 3) (filter is_medium fs).
Proof.
  cbn zeta.
  destruct (detect_shape w content misspellings log)
    as (n1 & n2 & n3 & Hs & P1 & P2 & P3 & _).
  cbn zeta in *. rewrite Hs.
  assert (H12 : Forall (fun e => confidence e = high /\ layer e <> 3)
                       (n1 ++ n2)).
  { apply Forall_app. split; [eapply Forall_impl; [|exact P1]
                             |eapply Forall_impl; [|exact P2]];
      intros e (Hl & Hc & _); split; auto; rewrite Hl; discriminate. }
  assert (H3 : Forall (fun e => confidence e = medium /\ layer e = 3) n3).
  { eapply Forall_impl; [|exact P3]. intros e (Hl & Hc & _). auto. }
  rewrite app_assoc.
  assert (Fh : filter is_high ((n1 ++ n2) ++ n3) = n1 ++ n2).
  { rewrite filter_app.
    rewrite (forallb_filter_id is_high (n1 ++ n2)).
    - replace (filter is_high n3) with (@nil Finding);
        [apply app_nil_r|].
      symmetry. clear -H3. induction H3 as [|e l [Hc _] _ IH];
        [reflexivity|].
      cbn [filter]. unfold is_high at 1. rewrite Hc. exact IH.
    - apply forallb_forall. intros e He. rewrite Forall_forall in H12.
      destruct (H12 e He) as [Hc _]. unfold is_high. rewrite Hc. reflexivity. }
  assert (Fm : filter is_medium ((n1 ++ n2) ++ n3) = n3).
  { rewrite filter_app.
    rewrite (forallb_filter_id is_medium n3).
    - replace (filter is_medium (n1 ++ n2)) with (@nil Finding);
        [reflexivity|].
      symmetry. clear -H12. induction H12 as [|e l [Hc _] _ IH];
        [reflexivity|].
      cbn [filter]. unfold is_medium at 1. rewrite Hc. exact IH.
    - apply forallb_forall. intros e He. rewrite Forall_forall in H3.
      destruct (H3 e He) as [Hc _]. unfold is_medium. rewrite Hc.
      reflexivity. }
  rewrite Fh, Fm. split; [reflexivity|]. split.
  - eapply Forall_impl; [|exact H12]. intros e [_ H]. exact H.
  - eapply Forall_impl; [|exact H3]. intros e [_ H]. exact H.
Qed.

Lemma detect_log (w : World) (content : str)
    (misspellings : dict str (list str)) (log : list call) :
  exists calls,
    snd (detect w content misspellings log) = log ++ calls
    /\ (hunspell_found w = false -> calls = []).
Proof.
  rewrite detect_unfold. cbn zeta. cbn [snd]. rewrite layer2_log.
  eexists. split; [reflexivity|]. intros ->.
  destruct (flat_map snd _); reflexivity.
Qed.

(** X17: a run starts a process of the checker exactly when the program is
    there and the trigger is one to scan a file for: a payload that is an
    object, of the tool Edit or Write, with a path that is a string and is
    not empty, whose last component is one of the checked file names, of a
    file that can be read as UTF-8.  In every other case no process is
    started. *)
Theorem checker_started_iff_applicable (w : World) (log : list call) :
  snd (main w log) <> log <-> applicable w /\ hunspell_found w = true.
Proof.
  unfold applicable.
  destruct (main_cases w log)
    as [[E No]|[(e & _ & E & No)|[(p & c & R & Eh & _ & E)
                                 |(p & c & ms & R & _ & E)]]];
    cbn zeta in *; rewrite E; cbn [snd].
  - split; [intros H; contradiction|].
    intros [(p & c & R) _]. destruct (No p c R).
  - split; [intros H; contradiction|].
    intros [(p & c & R) _]. destruct (No p c R).
  - split; [intros _; split; [exists p, c; exact R | exact Eh]|].
    intros _ Heq. apply (f_equal (@List.length call)) in Heq.
    rewrite length_app in Heq. cbn [List.length] in Heq. lia.
  - destruct (detect_log w c ms
                (log ++ if hunspell_found w then [Call_a (words_text c)]
                        else [])) as (calls & -> & Hc).
    destruct (hunspell_found w) eqn:Eh.
    + split; [intros _; split; [exists p, c; exact R | reflexivity]|].
      intros _ Heq. apply (f_equal (@List.length call)) in Heq.
      rewrite !length_app in Heq. cbn [List.length] in Heq. lia.
    + rewrite (Hc eq_refl), !app_nil_r.
      split; [intros H; contradiction | intros [_ H]; discriminate].
Qed.


End Findings.

Lemma every_finding_is_filtered_witness :
  In (Build_Finding (u "ornek") (u "örnek") [2] high 1)
     (findings (fst (main commented_world [])))
  /\ u "örnek" <> u "ornek".
Proof.
  assert (H : In (Build_Finding (u "ornek") (u "örnek") [2] high 1)
                 (findings (fst (main commented_world []))))
    by (vm_compute; left; reflexivity).
  split; [exact H|].
  destruct (@every_finding_is_filtered latin_unicode commented_world [] _ H)
    as (_ & _ & _ & _ & Hne).
  exact Hne.
Defined.

Lemma layer2_correction_is_accepted_variant_witness :
  In (Build_Finding (u "kis") (u "kiş") [1] high 2)
     (fst (detect (tie_world slot_a) (u "Hava kis gibi")
                  [(u "kis", [])] []))
  /\ In (u "kiş") (generate_variants (u "kis")).
Proof.
  assert (H : In (Build_Finding (u "kis") (u "kiş") [1] high 2)
                 (fst (detect (tie_world slot_a) (u "Hava kis gibi")
                              [(u "kis", [])] [])))
    by (vm_compute; left; reflexivity).
  split; [exact H|].
  destruct (@layer2_correction_is_accepted_variant latin_unicode
              (tie_world slot_a) (u "Hava kis gibi") [(u "kis", [])] [] _
              H eq_refl)
    as (Hv & _).
  exact Hv.
Defined.

Lemma findings_carry_lines_of_the_prose_witness :
  In (Build_Finding (u "aci") (u "acı") [1] medium 3)
     (fst (detect amb_world (u "Biber aci") [] []))
  /\ StronglySorted le [1].
Proof.
  assert (H : In (Build_Finding (u "aci") (u "acı") [1] medium 3)
                 (fst (detect amb_world (u "Biber aci") [] [])))
    by (vm_compute; left; reflexivity).
  split; [exact H|].
  destruct (@findings_carry_lines_of_the_prose latin_unicode amb_world
              (u "Biber aci") [] [] _ H) as (_ & Hs & _).
  exact Hs.
Defined.

(** ** The string methods *)

Lemma lstrip_clean (s : str) : starts_clean (lstrip s).
Proof.
  induction s as [|c s IH]; cbn [lstrip]; [exact I|].
  destruct (is_space c) eqn:E; [exact IH | exact E].
Qed.

Lemma lstrip_id (t : str) : starts_clean t -> lstrip t = t.
Proof. destruct t as [|c t]; cbn; [reflexivity|]. intros ->. reflexivity. Qed.

Lemma lstrip_suffix (s : str) : exists a, s = a ++ lstrip s.
Proof.
  induction s as [|c s [a IH]]; cbn [lstrip]; [exists []; reflexivity|].
  destruct (is_space c); [|exists []; reflexivity].
  exists (c :: a). cbn [app]. f_equal. exact IH.
Qed.

Lemma lstrip_spaces (ws t : str) :
  Forall (fun c => is_space c = true) ws -> lstrip (ws ++ t) = lstrip t.
Proof.
  induction 1 as [|c ws Hc _ IH]; [reflexivity|].
  cbn [app lstrip]. rewrite Hc. exact IH.
Qed.

Lemma strip_tidy (s : str) : tidy (strip s).
Proof.
  unfold tidy, strip. split.
  - destruct (lstrip_suffix (rev (lstrip s))) as [a Ha].
    destruct (rev (lstrip (rev (lstrip s)))) as [|c t] eqn:E; [exact I|].
    apply (f_equal (@rev char)) in Ha.
    rewrite rev_involutive, rev_app_distr, E in Ha.
    pose proof (lstrip_clean s) as Hc. rewrite Ha in Hc. exact Hc.
  - rewrite rev_involutive. apply lstrip_clean.
Qed.

Lemma strip_of_tidy (ws t : str) :
  Forall (fun c => is_space c = true) ws -> tidy t -> strip (ws ++ t) = t.
Proof.
  intros Hws [H1 H2]. unfold strip.
  rewrite lstrip_spaces by exact Hws.
  rewrite (lstrip_id t H1), (lstrip_id (rev t) H2). apply rev_involutive.
Qed.

Lemma strip_incl (s : str) (c : char) : In c (strip s) -> In c s.
Proof.
  unfold strip. intros H. apply in_rev in H.
  destruct (lstrip_suffix (rev (lstrip s))) as [a Ha].
  assert (H1 : In c (rev (lstrip s)))
    by (rewrite Ha; apply in_or_app; right; exact H).
  apply in_rev in H1.
  destruct (lstrip_suffix s) as [b Hb]. rewrite Hb.
  apply in_or_app. right. exact H1.
Qed.

Lemma split_from_parts (sep : char) (s : str) :
  forall cur t,
    ~ In sep cur -> In t (split_from sep cur s) -> ~ In sep t.
Proof.
  induction s as [|c s IH]; intros cur t Hcur Ht; cbn [split_from] in Ht.
  - destruct Ht as [<-|[]]. intros H. apply in_rev in H. contradiction.
  - destruct (eqb c sep) eqn:E.
    + destruct Ht as [<-|Ht].
      * intros H. apply in_rev in H. contradiction.
      * eapply IH; [|exact Ht]. intros [].
    + apply eqb_neq in E. eapply IH; [|exact Ht].
      intros [H|H]; [congruence | contradiction].
Qed.

Lemma split_from_part (sep : char) (t rest : str) :
  forall cur,
    ~ In sep t ->
    split_from sep cur (t ++ sep :: rest)
    = (rev cur ++ t) :: split_from sep [] rest.
Proof.
  induction t as [|c t IH]; intros cur Ht; cbn [app split_from].
  - rewrite eqb_refl, app_nil_r. reflexivity.
  - assert (E : eqb c sep = false)
      by (apply eqb_neq; intros ->; apply Ht; left; reflexivity).
    rewrite E, IH by (intros H; apply Ht; right; exact H).
    cbn [rev]. rewrite <- app_assoc. reflexivity.
Qed.

Lemma split_from_last (sep : char) (t : str) :
  forall cur, ~ In sep t -> split_from sep cur t = [rev cur ++ t].
Proof.
  induction t as [|c t IH]; intros cur Ht; cbn [split_from].
  - rewrite app_nil_r. reflexivity.
  - assert (E : eqb c sep = false)
      by (apply eqb_neq; intros ->; apply Ht; left; reflexivity).
    rewrite E, IH by (intros H; apply Ht; right; exact H).
    cbn [rev]. rewrite <- app_assoc. reflexivity.
Qed.

Lemma split_once_found (sep : char) (a b : str) :
  ~ In sep a -> split_once sep (a ++ sep :: b) = (a, Some b).
Proof.
  induction a as [|c a IH]; intros Ha; cbn [app split_once].
  - rewrite eqb_refl. reflexivity.
  - assert (E : eqb c sep = false)
      by (apply eqb_neq; intros ->; apply Ha; left; reflexivity).
    rewrite E, IH by (intros H; apply Ha; right; exact H). reflexivity.
Qed.

Lemma split_once_parts (sep : char) (s : str) :
  ~ In sep (fst (split_once sep s))
  /\ match snd (split_once sep s) with
     | Some b => s = fst (split_once sep s) ++ sep :: b
     | None => s = fst (split_once sep s)
     end.
Proof.
  induction s as [|c s [IH1 IH2]]; cbn [split_once].
  - split; [intros [] | reflexivity].
  - destruct (eqb c sep) eqn:E.
    + apply eqb_eq in E. subst c. cbn [fst snd app].
      split; [intros [] | reflexivity].
    + apply eqb_neq in E. destruct (split_once sep s) as [a [b|]];
        cbn [fst snd app] in *.
      * split; [intros [H|H]; [congruence | contradiction]|].
        f_equal. exact IH2.
      * split; [intros [H|H]; [congruence | contradiction]|].
        f_equal. exact IH2.
Qed.

Lemma split_ws_from_words (s : str) :
  forall cur t,
    Forall (fun c => is_space c = false) cur ->
    In t (split_ws_from cur s) ->
    t <> [] /\ Forall (fun c => is_space c = false) t.
Proof.
  induction s as [|c s IH]; intros cur t Hcur Ht; cbn [split_ws_from] in Ht.
  - destruct cur as [|c0 cur]; [destruct Ht|].
    destruct Ht as [<-|[]]. split.
    + intros H. apply (f_equal (@rev char)) in H.
      rewrite rev_involutive in H. discriminate.
    + apply Forall_rev. exact Hcur.
  - destruct (is_space c) eqn:E.
    + destruct cur as [|c0 cur]; [eapply IH; [constructor|exact Ht]|].
      destruct Ht as [<-|Ht]; [|eapply IH; [constructor|exact Ht]].
      split.
      * intros H. apply (f_equal (@rev char)) in H.
        rewrite rev_involutive in H. discriminate.
      * apply Forall_rev. exact Hcur.
    + eapply IH; [|exact Ht]. constructor; assumption.
Qed.

Lemma split_ws_from_word (t rest : str) (c : char) :
  forall cur,
    Forall (fun c => is_space c = false) t -> is_space c = true ->
    rev cur ++ t <> [] ->
    split_ws_from cur (t ++ c :: rest)
    = (rev cur ++ t) :: split_ws_from [] rest.
Proof.
  induction t as [|x t IH]; intros cur Ht Hc Hne; cbn [app split_ws_from].
  - rewrite Hc. rewrite app_nil_r in *.
    destruct cur; [contradiction | reflexivity].
  - inversion Ht as [|? ? Hx Ht1]; subst. rewrite Hx.
    rewrite IH; auto; cbn [rev]; rewrite <- app_assoc; auto.
Qed.

(** ** Reading the reply of the checker *)

(** A line on which the loop raises: it starts with an ampersand and has
    no second word before its first colon *)
Lemma results_step_raises (results : dict str (list str)) (line : str) :
  results_step results line = None
  <-> startswith line (u "&") = true
      /\ List.length (split_ws (fst (split_once (ch ":") line))) < 2.
Proof.
  unfold results_step.
  destruct (startswith line (u "&")).
  - destruct (split_once (ch ":") line) as [head tail]. cbn [fst].
    destruct (split_ws head) as [|t0 [|t1 ts]]; cbn [List.length].
    + split; [intros _; split; [reflexivity | lia] | reflexivity].
    + split; [intros _; split; [reflexivity | lia] | reflexivity].
    + split; [discriminate | intros [_ H]; lia].
  - split; [|intros [H _]; discriminate].
    destruct (startswith line (u "#")); [|discriminate].
    destruct (match split_ws line with
              | _ :: wd :: _ => wd
              | _ => []
              end); discriminate.
Qed.

(** X18: reading the reply raises an error exactly when one of its lines
    starts with an ampersand and has, before its first colon, no second
    word; on any other reply it gives a dictionary. *)
Theorem hunspell_results_raises (stdout : str) :
  hunspell_results stdout = None
  <-> exists line,
        In line (splitlines stdout)
        /\ startswith line (u "&") = true
        /\ List.length (split_ws (fst (split_once (ch ":") line))) < 2.
Proof.
  unfold hunspell_results. generalize (@nil (str * list str)).
  induction (splitlines stdout) as [|line lines IH]; intros acc;
    cbn [fold_left].
  - split; [discriminate | intros (l & [] & _)].
  - destruct (results_step acc line) as [acc1|] eqn:E.
    + rewrite IH. split.
      * intros (l & Hin & H). exists l. split; [right; exact Hin | exact H].
      * intros (l & [<-|Hin] & H).
        -- apply (results_step_raises acc) in H. congruence.
        -- exists l. auto.
    + split.
      * intros _. exists line. split; [left; reflexivity|].
        apply (results_step_raises acc). exact E.
      * intros _. clear. induction lines as [|l lines IH]; [reflexivity|].
        cbn [fold_left]. exact IH.
Qed.

Lemma dict_set_Forall {V} (P : str * V -> Prop) (k : str) (v : V)
    (d : dict str V) :
  Forall P d -> P (k, v) -> Forall P (dict_set k v d).
Proof.
  intros Hd Hk. apply Forall_forall. intros [k1 v1] H.
  apply dict_set_In in H. destruct H as [[-> ->]|H]; [exact Hk|].
  rewrite Forall_forall in Hd. apply Hd. exact H.
Qed.

Lemma second_word (s : str) (t0 wd : str) (ts : list str) :
  split_ws s = t0 :: wd :: ts ->
  wd <> [] /\ Forall (fun c => is_space c = false) wd.
Proof.
  intros E. apply (split_ws_from_words s [] wd); [constructor|].
  fold (split_ws s). rewrite E. right. left. reflexivity.
Qed.

Lemma results_step_shape (results results1 : dict str (list str))
    (line : str) :
  results_step results line = Some results1 ->
  Forall entry_ok results -> Forall entry_ok results1.
Proof.
  unfold results_step. intros H Hok.
  destruct (startswith line (u "&")).
  - destruct (split_once (ch ":") line) as [head tail].
    destruct (split_ws head) as [|t0 [|wd ts]] eqn:E; try discriminate.
    injection H as <-. apply dict_set_Forall; [exact Hok|].
    destruct (second_word _ _ _ _ E) as [Hne Hw].
    unfold entry_ok. cbn [fst snd]. split; [exact Hne|]. split; [exact Hw|].
    destruct tail as [t|]; [|constructor].
    apply Forall_forall. intros s Hs. apply in_map_iff in Hs.
    destruct Hs as (p & <- & Hp). split; [|apply strip_tidy].
    intros Hc. apply strip_incl in Hc. revert Hc.
    eapply split_from_parts; [|exact Hp]. intros [].
  - destruct (startswith line (u "#")); [|injection H as <-; exact Hok].
    destruct (split_ws line) as [|t0 [|wd ts]] eqn:E;
      try (injection H as <-; exact Hok).
    destruct (second_word _ _ _ _ E) as [Hne Hw].
    destruct wd as [|c wd]; [contradiction|].
    injection H as <-. apply dict_set_Forall; [exact Hok|].
    unfold entry_ok. cbn [fst snd].
    split; [discriminate|]. split; [exact Hw | constructor].
Qed.

(** X19: in the dictionary read from a reply every key is a word that is
    not empty and holds no white space, and every suggestion holds no comma
    and no white space at either end. *)
Theorem hunspell_results_shape (stdout : str)
    (results : dict str (list str)) (k : str) (suggestions : list str) :
  hunspell_results stdout = Some results ->
  In (k, suggestions) results ->
  k <> []
  /\ Forall (fun c => is_space c = false) k
  /\ Forall (fun s => ~ In (ch ",") s /\ tidy s) suggestions.
Proof.
  unfold hunspell_results. intros H Hin.
  assert (G : forall ls acc,
            Forall entry_ok acc ->
            fold_left (fun acc line =>
                         match acc with
                         | Some results => results_step results line
                         | None => None
                         end) ls (Some acc) = Some results ->
            Forall entry_ok results).
  { induction ls as [|line ls IH]; intros acc Hacc Hf;
      cbn [fold_left] in Hf.
    - injection Hf as <-. exact Hacc.
    - destruct (results_step acc line) as [acc1|] eqn:E.
      + eapply IH; [|exact Hf]. eapply results_step_shape; eauto.
      + exfalso. clear -Hf. induction ls as [|l ls IH];
          [discriminate|]. cbn [fold_left] in Hf. auto. }
  apply G in H; [|constructor]. rewrite Forall_forall in H.
  exact (H (k, suggestions) Hin).
Qed.

Lemma is_space_space : is_space (ch " ") = true.
Proof. reflexivity. Qed.

Lemma split_join_comma (suggestions : list str) :
  suggestions <> [] ->
  Forall (fun s => ~ In (ch ",") s /\ tidy s) suggestions ->
  map strip (split (ch ",") (u " " ++ join (u ", ") suggestions))
  = suggestions.
Proof.
  intros Hne H. unfold split.
  induction H as [|s l [Hc Ht] Hl IH]; [contradiction|].
  assert (Hsp : Forall (fun c => is_space c = true) (u " "))
    by (repeat constructor).
  assert (Hpart : ~ In (ch ",") (u " " ++ s)).
  { intros Hin. apply in_app_or in Hin. destruct Hin as [Hin|Hin]; auto.
    destruct Hin as [Hin|[]]. discriminate. }
  destruct l as [|s1 l].
  - cbn [join]. rewrite split_from_last by exact Hpart.
    cbn [rev map]. rewrite (app_nil_l (u " " ++ s)).
    rewrite strip_of_tidy; auto.
  - change (join (u ", ") (s :: s1 :: l))
      with (s ++ u ", " ++ join (u ", ") (s1 :: l)).
    rewrite app_assoc.
    change (u ", " ++ join (u ", ") (s1 :: l))
      with (ch "," :: (u " " ++ join (u ", ") (s1 :: l))).
    rewrite split_from_part by exact Hpart.
    cbn [rev map]. rewrite (app_nil_l (u " " ++ s)).
    rewrite strip_of_tidy; auto. f_equal.
    apply IH. discriminate.
Qed.

(** X20: a line of the form [& word info: s1, s2, ...], as the checker
    prints for a word with suggestions, sets the entry of the word to the
    suggestions; a line of the form [# word info], as printed for a word
    without suggestion, sets it to no suggestion. *)
Theorem results_step_reads_a_line (results : dict str (list str))
    (wd info : str) (suggestions : list str) :
  wd <> [] -> Forall (fun c => is_space c = false) wd ->
  ~ In (ch ":") wd -> ~ In (ch ":") info ->
  suggestions <> [] ->
  Forall (fun s => ~ In (ch ",") s /\ tidy s) suggestions ->
  results_step results
    (u "& " ++ wd ++ u " " ++ info ++ u ":" ++ u " "
       ++ join (u ", ") suggestions)
  = Some (dict_set wd suggestions results)
  /\ results_step results (u "# " ++ wd ++ u " " ++ info)
     = Some (dict_set wd [] results).
Proof.
  intros Hne Hw Hcw Hci Hs Hsug.
  assert (Htok : forall rest,
            exists ts, split_ws (u "& " ++ wd ++ u " " ++ rest)
                       = u "&" :: wd :: ts).
  { intros rest. unfold split_ws.
    change (u "& " ++ wd ++ u " " ++ rest)
      with (u "&" ++ ch " " :: (wd ++ ch " " :: rest)).
    rewrite split_ws_from_word;
      [|repeat constructor | reflexivity | discriminate].
    rewrite split_ws_from_word;
      [|exact Hw | reflexivity | cbn [rev app]; exact Hne].
    cbn [rev app]. eexists. reflexivity. }
  split.
  - unfold results_step.
    change (startswith (u "& " ++ wd ++ u " " ++ info ++ u ":" ++ u " "
                          ++ join (u ", ") suggestions) (u "&")) with true.
    cbv iota.
    replace (u "& " ++ wd ++ u " " ++ info ++ u ":" ++ u " "
               ++ join (u ", ") suggestions)
      with ((u "& " ++ wd ++ u " " ++ info)
              ++ ch ":" :: (u " " ++ join (u ", ") suggestions))
      by (rewrite <- !app_assoc; reflexivity).
    rewrite split_once_found.
    + destruct (Htok info) as (ts & ->).
      rewrite split_join_comma by assumption. reflexivity.
    + intros Hin. apply in_app_or in Hin. destruct Hin as [Hin|Hin].
      * destruct Hin as [Hin|[Hin|[]]]; discriminate.
      * apply in_app_or in Hin. destruct Hin as [Hin|Hin]; auto.
        apply in_app_or in Hin. destruct Hin as [Hin|Hin]; auto.
        destruct Hin as [Hin|[]]. discriminate.
  - unfold results_step.
    change (startswith (u "# " ++ wd ++ u " " ++ info) (u "&")) with false.
    change (startswith (u "# " ++ wd ++ u " " ++ info) (u "#")) with true.
    cbv iota.
    assert (Htok1 : exists ts, split_ws (u "# " ++ wd ++ u " " ++ info)
                               = u "#" :: wd :: ts).
    { unfold split_ws.
      change (u "# " ++ wd ++ u " " ++ info)
        with (u "#" ++ ch " " :: (wd ++ ch " " :: info)).
      rewrite split_ws_from_word;
        [|repeat constructor | reflexivity | discriminate].
      rewrite split_ws_from_word;
        [|exact Hw | reflexivity | cbn [rev app]; exact Hne].
      cbn [rev app]. eexists. reflexivity. }
    destruct Htok1 as (ts & ->).
    destruct wd; [contradiction | reflexivity].
Qed.

Lemma results_step_reads_a_line_witness :
  results_step [] (u "& ornek 2 0: örnek, ödenek")
  = Some [(u "ornek", [u "örnek"; u "ödenek"])].
Proof.
  refine (proj1 (results_step_reads_a_line [] (u "ornek") (u "2 0")
                   [u "örnek"; u "ödenek"] _ _ _ _ _ _)).
  - discriminate.
  - repeat constructor.
  - vm_compute. intuition discriminate.
  - vm_compute. intuition discriminate.
  - discriminate.
  - repeat constructor; vm_compute; intuition discriminate.
Defined.

Lemma hunspell_results_shape_witness :
  hunspell_results (u "& ornek 2 0: örnek, ödenek")
  = Some [(u "ornek", [u "örnek"; u "ödenek"])]
  /\ u "ornek" <> [].
Proof.
  assert (H : hunspell_results (u "& ornek 2 0: örnek, ödenek")
              = Some [(u "ornek", [u "örnek"; u "ödenek"])])
    by (vm_compute; reflexivity).
  split; [exact H|].
  destruct (hunspell_results_shape _ _ (u "ornek") [u "örnek"; u "ödenek"] H
              (or_introl eq_refl)) as (Hne & _).
  exact Hne.
Defined.

(** ** The lookup table *)

Section LookupFacts.
Context {U : Unicode}.

Lemma lookup_step_values (lookup : dict str str) (line : str) :
  Forall (fun kv => ~ In (ch ",") (snd kv) /\ tidy (snd kv)) lookup ->
  Forall (fun kv => ~ In (ch ",") (snd kv) /\ tidy (snd kv))
         (lookup_step lookup line).
Proof.
  intros H. unfold lookup_step.
  destruct (strip line) as [|c l]; [exact H|].
  destruct (negb (mem tab (c :: l))); [exact H|].
  destruct (split_once tab (c :: l)) as [ascii_form [forms|]]; [|exact H].
  apply dict_set_Forall; [exact H|]. cbn [snd].
  split; [|apply strip_tidy].
  intros Hc. apply strip_incl in Hc. revert Hc.
  unfold split. destruct forms as [|x forms]; [intros []|].
  cbn [split_from].
  destruct (eqb x (ch ",")) eqn:E; [intros []|].
  assert (Hp : forall t, In t (split_from (ch ",") [x] forms) ->
                         ~ In (ch ",") t).
  { intros t. apply split_from_parts. apply eqb_neq in E.
    intros [Hx|[]]. congruence. }
  destruct (split_from (ch ",") [x] forms) as [|p ps] eqn:Es; [intros []|].
  cbn [hd]. apply Hp. left. reflexivity.
Qed.

Lemma load_values (file : option (list str)) :
  Forall (fun kv => ~ In (ch ",") (snd kv) /\ tidy (snd kv))
         (load_ambiguous_lookup file).
Proof.
  unfold load_ambiguous_lookup. destruct file as [lines|]; [|constructor].
  generalize (@nil (str * str)) (@Forall_nil (str * str)
    (fun kv => ~ In (ch ",") (snd kv) /\ tidy (snd kv))).
  induction lines as [|line lines IH]; intros d Hd; cbn [fold_left]; auto.
  apply IH. apply lookup_step_values. exact Hd.
Qed.

(** X21: with a lookup table loaded from a file, the correction that
    Layer 3 proposes holds no comma and no white space at either end: it is
    the first of the forms of a line, stripped. *)
Theorem loaded_correction_is_one_form (file : option (list str))
    (wd : str) (amb_skip whitelist : list str) (c : str) :
  layer3_ambiguity wd (load_ambiguous_lookup file) amb_skip whitelist
  = Some c ->
  ~ In (ch ",") c /\ tidy c.
Proof.
  unfold layer3_ambiguity. intros H.
  destruct (_ || _); [discriminate|].
  destruct (mem (lower wd) amb_skip); [discriminate|].
  destruct (dict_mem _ _); [|discriminate].
  apply dict_get_In in H.
  pose proof (load_values file) as Hv. rewrite Forall_forall in Hv.
  exact (Hv _ H).
Qed.

End LookupFacts.

Lemma loaded_correction_is_one_form_witness :
  layer3_ambiguity (u "Aci")
    (load_ambiguous_lookup (Some [u "aci" ++ [tab] ++ u " acı , açı" ++ [nl]]))
    [] []
  = Some (u "acı")
  /\ ~ In (ch ",") (u "acı").
Proof.
  assert (H : layer3_ambiguity (u "Aci")
                (load_ambiguous_lookup
                   (Some [u "aci" ++ [tab] ++ u " acı , açı" ++ [nl]]))
                [] []
              = Some (u "acı")) by (vm_compute; reflexivity).
  split; [exact H|].
  destruct (@loaded_correction_is_one_form latin_unicode _ _ _ _ _ H)
    as (Hc & _).
  exact Hc.
Defined.

(** ** Texts without markup *)

Lemma prev_of_cases (a : str) :
  forall prev,
    (a = [] /\ prev_of prev a = prev)
    \/ exists a1 c, a = a1 ++ [c] /\ prev_of prev a = Some c.
Proof.
  induction a as [|c a IH]; intros prev; [left; auto|].
  right. cbn [prev_of].
  destruct (IH (Some c)) as [[-> E]|(a1 & c1 & -> & E)].
  - exists [], c. auto.
  - exists (c :: a1), c1. auto.
Qed.

Lemma any_line_start_false (p : str -> bool) (s : str) :
  forall at_start,
    any_line_start p at_start s = false ->
    forall a s1,
      s = a ++ s1 ->
      (a = [] /\ at_start = true) \/ (exists a1, a = a1 ++ [nl]) ->
      p s1 = false.
Proof.
  induction s as [|c s IH]; intros at_start H a s1 Hs Ha;
    cbn [any_line_start] in H; apply orb_false_iff in H; destruct H as [H1 H2].
  - symmetry in Hs. apply app_eq_nil in Hs. destruct Hs as [-> ->].
    destruct Ha as [[_ ->]|(a1 & Ha)]; [exact H1|].
    destruct a1; discriminate.
  - destruct a as [|x a].
    + cbn [app] in Hs. subst s1.
      destruct Ha as [[_ ->]|(a1 & Ha)]; [exact H1|].
      destruct a1; discriminate.
    + cbn [app] in Hs. injection Hs as <- ->.
      destruct Ha as [[Ha _]|(a1 & Ha)]; [discriminate|].
      apply (IH _ H2 a s1 eq_refl).
      destruct a1 as [|y a1]; cbn [app] in Ha; injection Ha as -> ->.
      * left. split; reflexivity.
      * right. exists a1. reflexivity.
Qed.

Lemma lang_lit (s t : str) : lang (lit s) t -> t = s.
Proof.
  unfold lit, cats. revert t.
  induction s as [|c s IH]; intros t; cbn [map fold_right lang]; auto.
  intros (x & y & -> & (c0 & -> & E) & Hy).
  apply eqb_eq in E. subst c0. cbn [app]. f_equal. apply IH. exact Hy.
Qed.

Lemma lang_starts (w : str) (rest : list re) (t : str) :
  lang (cats (lit w :: rest)) t -> exists y, t = w ++ y /\ lang (cats rest) y.
Proof.
  change (cats (lit w :: rest)) with (Cat (lit w) (cats rest)).
  cbn [lang]. intros (x & y & -> & Hx & Hy).
  apply lang_lit in Hx. subst x. exists y. auto.
Qed.

Lemma lang_after (r : re) (rest : list re) (t : str) :
  lang (cats (r :: rest)) t ->
  exists x y, t = x ++ y /\ lang r x /\ lang (cats rest) y.
Proof. exact (fun H => H). Qed.

Section PlainFacts.
Context {U : Unicode}.

Lemma scan_keeps_all (r : re) (s : str) :
  forall limit prev,
    (forall a s1, s = a ++ s1 -> match_at r (prev_of prev a) s1 = None) ->
    scan r limit 0 prev s = map Keep s.
Proof.
  induction s as [|c s IH]; intros limit prev H; cbn [scan map].
  - pose proof (H [] [] eq_refl) as H0. cbn [prev_of] in H0.
    destruct limit as [[|n]|]; try rewrite H0; reflexivity.
  - pose proof (H [] (c :: s) eq_refl) as H0. cbn [prev_of] in H0.
    assert (E : scan r limit 0 (Some c) s = map Keep s).
    { apply IH. intros a s1 Hs. apply (H (c :: a) s1).
      cbn [app]. f_equal. exact Hs. }
    destruct limit as [[|n]|]; try rewrite H0; rewrite E; reflexivity.
Qed.

Lemma re_sub_unchanged (r : re) (repl : str -> str -> str)
    (limit : option nat) (s : str) :
  (forall a s1, s = a ++ s1 -> match_at r (prev_of None a) s1 = None) ->
  re_sub r repl limit s = s.
Proof.
  intros H. unfold re_sub. rewrite scan_keeps_all by exact H.
  clear. induction s as [|c s IH]; [reflexivity|].
  cbn [map flat_map app]. f_equal. exact IH.
Qed.

(** A pattern of which every match holds the character [c] finds nothing
    in a text without [c]. *)
Lemma no_match_without (c : char) (r : re) (s : str) :
  (forall t, lang r t -> In c t) -> ~ In c s ->
  forall (p : option char) a s1, s = a ++ s1 -> match_at r p s1 = None.
Proof.
  intros Hr Hc p a s1 Hs.
  destruct (match_at r p s1) as [[len g]|] eqn:E; [|reflexivity].
  exfalso. apply Hc. apply match_at_lang in E. apply Hr in E.
  rewrite Hs. apply in_or_app. right.
  rewrite <- (firstn_skipn len s1). apply in_or_app. left. exact E.
Qed.

Lemma match_at_Bol (ml : bool) (r : re) (p : option char) (s : str)
    (len : nat) (g : str) :
  match_at (Cat (Bol ml) r) p s = Some (len, g) ->
  p = None \/ (ml = true /\ p = Some nl).
Proof.
  unfold match_at. cbn [mt m_prev]. destruct p as [c|]; [|auto].
  destruct ml; cbn [andb flat_map]; [|discriminate].
  destruct (eqb c nl) eqn:E; cbn [flat_map]; [|discriminate].
  apply eqb_eq in E. subst c. auto.
Qed.

End PlainFacts.

Lemma needs_first (w : str) (c : char) (rest : list re) (t : str) :
  hd_error w = Some c -> lang (cats (lit w :: rest)) t -> In c t.
Proof.
  intros Hw H. apply lang_starts in H. destruct H as (y & -> & _).
  destruct w as [|c0 w]; [discriminate|]. injection Hw as ->.
  left. reflexivity.
Qed.

Lemma needs_run (p : char -> bool) (c : char) (t : str) :
  (forall x, p x = true -> x = c) ->
  Forall (fun x => p x = true) t -> 1 <= List.length t -> In c t.
Proof.
  intros Hp Ht Hlen. destruct t as [|x t]; [cbn in Hlen; lia|].
  inversion Ht as [|? ? Hx _]; subst. left. apply Hp. exact Hx.
Qed.

Lemma one_of_single (c x : char) : one_of [c] x = true -> x = c.
Proof.
  unfold one_of, mem. cbn [existsb]. rewrite orb_false_r.
  intros E. apply eqb_eq in E. exact E.
Qed.

Section Plain.
Context {U : Unicode}.

(** X22: a text without markup is returned as it is: a text that holds no
    backtick, tilde, angle bracket, brace, square bracket, hash, star,
    underscore or slash, does not start with the three hyphens of a front
    matter, and has no line that starts with import or export. *)
Theorem plain_prose_is_left_unchanged (text : str) :
  plain_prose text = true -> strip_non_prose text = text.
Proof.
  unfold plain_prose. rewrite !andb_true_iff, !negb_true_iff.
  intros [[Hc Hf] Hi].
  assert (Hno : forall c, mem c (u "`~<{[#*_/") = true -> ~ In c text).
  { intros c Hm Hin. rewrite forallb_forall in Hc.
    apply Hc in Hin. rewrite Hm in Hin. discriminate. }
  assert (By : forall c r,
            mem c (u "`~<{[#*_/") = true ->
            (forall t, lang r t -> In c t) ->
            forall repl limit, re_sub r repl limit text = text).
  { intros c r Hm Hr repl limit. apply re_sub_unchanged.
    intros a s1 Hs.
    apply (no_match_without c r text Hr (Hno c Hm) _ a s1 Hs). }
  assert (P1 : forall repl limit,
            re_sub re_front_matter repl limit text = text).
  { intros repl limit. apply re_sub_unchanged. intros a s1 Hs.
    destruct (match_at re_front_matter (prev_of None a) s1)
      as [[len g]|] eqn:E; [|reflexivity].
    exfalso. pose proof E as Eb. apply match_at_Bol in Eb.
    destruct Eb as [Eb|[Eb _]]; [|discriminate].
    destruct (prev_of_cases a None) as [[-> _]|(a1 & c & _ & Ea)];
      [|congruence].
    cbn [app] in Hs. subst s1. apply match_at_lang in E.
    apply lang_after in E. destruct E as (x & y & Ex & Hx & Hy).
    cbn [lang] in Hx. subst x. cbn [app] in Ex.
    apply lang_starts in Hy. destruct Hy as (z & -> & _).
    assert (St : startswith text (u "---" ++ [nl]) = true).
    { apply startswith_prefix. exists (z ++ skipn len text).
      rewrite <- (firstn_skipn len text) at 1. rewrite Ex.
      rewrite <- app_assoc. reflexivity. }
    rewrite St in Hf. discriminate. }
  assert (P2 : forall mark repl limit,
            (exists c, hd_error mark = Some c
                       /\ mem c (u "`~<{[#*_/") = true) ->
            re_sub (re_fence mark) repl limit text = text).
  { intros mark repl limit (c & Hh & Hm). apply (By c); [exact Hm|].
    intros t. apply needs_first. exact Hh. }
  assert (P5 : forall repl limit, re_sub re_import repl limit text = text).
  { intros repl limit. apply re_sub_unchanged. intros a s1 Hs.
    destruct (match_at re_import (prev_of None a) s1)
      as [[len g]|] eqn:E; [|reflexivity].
    exfalso. pose proof E as Eb. apply match_at_Bol in Eb.
    assert (Ha : (a = [] /\ true = true) \/ exists a1, a = a1 ++ [nl]).
    { destruct (prev_of_cases a None) as [[-> _]|(a1 & c & -> & Ea)];
        [left; auto|].
      right. exists a1. destruct Eb as [Eb|[_ Eb]]; congruence. }
    pose proof (any_line_start_false _ _ _ Hi a s1 Hs Ha) as Hp.
    cbv beta in Hp. apply orb_false_iff in Hp. destruct Hp as [Hp1 Hp2].
    apply match_at_lang in E.
    apply lang_after in E. destruct E as (x & y & Ex & Hx & Hy).
    cbn [lang] in Hx. subst x. cbn [app] in Ex.
    apply lang_after in Hy. destruct Hy as (x & z & -> & Hx & _).
    assert (St : forall w, x = w -> startswith s1 w = true).
    { intros w ->. apply startswith_prefix. exists (z ++ skipn len s1).
      rewrite <- (firstn_skipn len s1) at 1. rewrite Ex.
      rewrite <- app_assoc. reflexivity. }
    destruct Hx as [Hx|Hx]; apply lang_lit in Hx; apply St in Hx; congruence. }
  assert (P8 : forall repl limit, re_sub re_url repl limit text = text).
  { intros repl limit. apply (By (ch "/")); [reflexivity|].
    intros t Ht. unfold re_url in Ht.
    apply lang_starts in Ht. destruct Ht as (y & -> & Hy).
    apply lang_after in Hy. destruct Hy as (x & z & -> & _ & Hz).
    apply lang_starts in Hz. destruct Hz as (y1 & -> & _).
    apply in_or_app. right. apply in_or_app. right.
    right. left. reflexivity. }
  assert (P14 : forall repl limit, re_sub re_heading repl limit text = text).
  { intros repl limit. apply (By (ch "#")); [reflexivity|].
    intros t Ht. unfold re_heading in Ht.
    apply lang_after in Ht. destruct Ht as (x & y & -> & Hx & Hy).
    cbn [lang] in Hx. subst x. cbn [app].
    apply lang_after in Hy. destruct Hy as (x & z & -> & [Hx Hlen] & _).
    apply in_or_app. left.
    apply (needs_run (one_of (u "#"))); auto. apply one_of_single. }
  assert (P15 : forall repl limit,
            re_sub re_emphasis repl limit text = text).
  { intros repl limit. apply re_sub_unchanged. intros a s1 Hs.
    destruct (match_at re_emphasis (prev_of None a) s1)
      as [[len g]|] eqn:E; [|reflexivity].
    exfalso. apply match_at_lang in E.
    assert (Hin : forall c, In c (firstn len s1) -> In c text).
    { intros c Hin. rewrite Hs. apply in_or_app. right.
      rewrite <- (firstn_skipn len s1). apply in_or_app. left. exact Hin. }
    destruct E as [[Hx Hlen]|[Hx Hlen]].
    - apply (Hno (ch "*")); [reflexivity|]. apply Hin.
      apply (needs_run (one_of (u "*"))); auto. apply one_of_single.
    - apply (Hno (ch "_")); [reflexivity|]. apply Hin.
      apply (needs_run (one_of (u "_"))); auto. apply one_of_single. }
  assert (First : forall c w rest,
            hd_error w = Some c -> mem c (u "`~<{[#*_/") = true ->
            forall repl limit,
              re_sub (cats (lit w :: rest)) repl limit text = text).
  { intros c w rest Hh Hm repl limit. apply (By c); [exact Hm|].
    intros t. apply needs_first. exact Hh. }
  unfold strip_non_prose. cbv zeta.
  rewrite P1.
  rewrite (P2 (u "```")) by (exists (ch "`"); split; reflexivity).
  rewrite (P2 (u "~~~")) by (exists (ch "~"); split; reflexivity).
  rewrite (First (ch "`") (u "`") _ eq_refl eq_refl
           : forall repl limit, re_sub re_inline_code repl limit text = text).
  rewrite P5.
  rewrite (First (ch "<") (u "<") _ eq_refl eq_refl
           : forall repl limit, re_sub re_tag repl limit text = text).
  rewrite (First (ch "{") (u "{") _ eq_refl eq_refl
           : forall repl limit, re_sub re_braces repl limit text = text).
  rewrite P8.
  assert (Himage : forall repl limit, re_sub re_image repl limit text = text).
  { intros repl limit. apply (By (ch "[")); [reflexivity|].
    intros t Ht. unfold re_image in Ht.
    apply lang_starts in Ht. destruct Ht as (y & -> & _).
    right. left. reflexivity. }
  rewrite Himage.
  rewrite (First (ch "[") (u "[") _ eq_refl eq_refl
           : forall repl limit, re_sub re_link repl limit text = text).
  rewrite (First (ch "[") (u "[^") _ eq_refl eq_refl
           : forall repl limit, re_sub re_footnote repl limit text = text).
  rewrite (First (ch "[") (u "[") _ eq_refl eq_refl
           : forall repl limit, re_sub re_bdi_var repl limit text = text).
  rewrite (First (ch "<") (u "<!--") _ eq_refl eq_refl
           : forall repl limit, re_sub re_comment repl limit text = text).
  rewrite P14. apply P15.
Qed.

End Plain.

Lemma plain_prose_is_left_unchanged_witness :
  plain_prose (u "Bu bir ornek metindir." ++ [nl] ++ u "Ikinci satir - son.")
  = true
  /\ strip_non_prose
       (u "Bu bir ornek metindir." ++ [nl] ++ u "Ikinci satir - son.")
     = u "Bu bir ornek metindir." ++ [nl] ++ u "Ikinci satir - son.".
Proof.
  assert (H : plain_prose
                (u "Bu bir ornek metindir." ++ [nl] ++ u "Ikinci satir - son.")
              = true) by (vm_compute; reflexivity).
  split; [exact H|].
  exact (@plain_prose_is_left_unchanged latin_unicode _ H).
Defined.
